(** * TrenchBroom: the Quake map parser ([IO/StandardMapParser.h])

    A shallow embedding of the token kinds of [QuakeMapToken], of the
    template member [StandardMapParser::parseFloatVector], and of the block
    structure of the parser that the header declares. *)

From Stdlib Require Import ZArith List Lia.
From stdpp Require Import base list strings gmap.

Local Open Scope Z_scope.

(** ** Token kinds *)

(** [using Type = unsigned int]: a token kind, or a mask of token kinds. The
    constants below stay far under [2^32], so no wrap-around occurs. *)
Definition TokenType := Z.

Module QuakeMapToken.
Definition Integer : TokenType := Z.shiftl 1 0.       (* integer number *)
Definition Decimal : TokenType := Z.shiftl 1 1.       (* decimal number *)
Definition String : TokenType := Z.shiftl 1 2.        (* string *)
Definition OParenthesis : TokenType := Z.shiftl 1 3.  (* opening parenthesis *)
Definition CParenthesis : TokenType := Z.shiftl 1 4.  (* closing parenthesis *)
Definition OBrace : TokenType := Z.shiftl 1 5.        (* opening brace *)
Definition CBrace : TokenType := Z.shiftl 1 6.        (* closing brace *)
Definition OBracket : TokenType := Z.shiftl 1 7.      (* opening bracket *)
Definition CBracket : TokenType := Z.shiftl 1 8.      (* closing bracket *)
Definition Comment : TokenType := Z.shiftl 1 9.       (* line comment *)
Definition Eof : TokenType := Z.shiftl 1 10.          (* end of file *)
Definition Eol : TokenType := Z.shiftl 1 11.          (* end of line *)
Definition Number : TokenType := Z.lor Integer Decimal.

(** The twelve kinds, in declaration order. *)
Definition kinds : list TokenType :=
  [Integer; Decimal; String; OParenthesis; CParenthesis; OBrace; CBrace;
   OBracket; CBracket; Comment; Eof; Eol].

(** A mask built as the union ([|]) of the given kinds. *)
Definition mask (ks : list TokenType) : TokenType := foldr Z.lor 0 ks.
End QuakeMapToken.

(** ** Tokens and the parser state *)

(** Modelled from the spec: [Tokenizer<TokenType>::Token] (IO/Token.h is
    not part of the sources at hand): kind, text, line and column. *)
Record Token := mkToken {
  tok_type : TokenType;
  tok_data : string;
  tok_line : nat;
  tok_column : nat
}.

(** Modelled from the spec: [Token::hasType(typeMask)] (IO/Token.h), the
    one-test check of a kind against a mask of kinds,
    [(m_type & typeMask) != 0]. *)
Definition hasType (typeMask : TokenType) (t : Token) : bool :=
  negb (Z.land (tok_type t) typeMask =? 0).

(** Modelled from the spec: the token the tokenizer (IO/Tokenizer.h) hands
    out once the input is exhausted. Its position is not used. *)
Definition eofToken : Token := mkToken QuakeMapToken.Eof "" 0 0.

(** The [k]-th token the tokenizer will hand out from the pending tokens
    [ts]: past the end of the input it is the end-of-file token. *)
Definition tokenAt (k : nat) (ts : list Token) : Token := nth k ts eofToken.

(** Modelled from the spec: [ParserException] (IO/ParserException.h is not
    part of the sources at hand), by the errors a grammar rule throws.
    [UnexpectedTokenError] is thrown by [expect] and carries the mask that
    was asked for and the token that was found; the other two belong to the
    block parsers. *)
Inductive ParserException :=
| UnexpectedTokenError (expected : TokenType) (found : Token)
| MalformedPatchGridError (line : nat) (rows columns : Z)
| DuplicateKeyError (line : nat) (key : string).

(** Modelled from the spec: [m_tokenizer] (the class [Tokenizer] is in
    IO/Tokenizer.h), seen from the parser as the tokens still to be handed
    out. *)
Definition QuakeMapTokenizer := list Token.

(** A member function that works on a state [St] and may throw: the state
    is threaded through, and it is returned with the exception too, since a
    throw does not undo what was done before it. *)
Definition Throws (St A : Type) : Type := St -> (ParserException + A) * St.

Definition ret {St A} (a : A) : Throws St A := fun s => (inr a, s).

Definition throw {St A} (e : ParserException) : Throws St A :=
  fun s => (inl e, s).

Definition bind {St A B} (m : Throws St A) (k : A -> Throws St B) :
  Throws St B :=
  fun s =>
    match m s with
    | (inr a, s') => k a s'
    | (inl e, s') => (inl e, s')
    end.

(** [try { m } catch (const ParserException& e) { h e }]. *)
Definition tryCatch {St A} (m : Throws St A)
  (h : ParserException -> Throws St A) : Throws St A :=
  fun s =>
    match m s with
    | (inr a, s') => (inr a, s')
    | (inl e, s') => h e s'
    end.

Notation "'do' x <- m ; k" := (bind m (fun x => k))
  (at level 10, x name, m at level 100, k at level 200).
Notation "m ;; k" := (bind m (fun _ => k))
  (at level 100, k at level 200, right associativity).

(** The member functions that only touch [m_tokenizer]. *)
Definition Tok (A : Type) : Type := Throws QuakeMapTokenizer A.

(** Modelled from the spec: [Tokenizer::nextToken] (IO/Tokenizer.h is not
    part of the sources at hand). It returns the next token and advances
    past it, or returns an end-of-file token once the input is exhausted. *)
Definition nextToken : Tok Token :=
  fun ts => (inr (tokenAt 0 ts), drop 1 ts).

(** Modelled from the spec: [Tokenizer::peekToken] (IO/Tokenizer.h), the
    one-token lookahead that leaves the tokenizer where it is. *)
Definition peekToken : Tok Token :=
  fun ts => (inr (tokenAt 0 ts), ts).

(** Modelled from the spec: [Parser::expect] (IO/Parser.h is not part of the
    sources at hand). The token passes when its kind is in the mask, which is
    the single test [hasType]; otherwise the rule throws. The token has
    already been taken from the tokenizer by the caller. *)
Definition expect (typeMask : TokenType) (token : Token) : Tok Token :=
  if hasType typeMask token then ret token
  else throw (UnexpectedTokenError typeMask token).

(** ** [parseFloatVector] *)

Section FloatVector.
(** [T] is the numeric type of the components ([FloatType] by default),
    [toFloat] is [Token::toFloat<T>] and [zero] the value a default
    constructed [vm::vec] holds in each component. *)
Context {T : Type}.
Variable toFloat : Token -> T.
Variable zero : T.

(** The loop [for (size_t i = 0; i < S; i++) vec[i] = expect(Number,
    nextToken()).toFloat<T>()], with [n = S - i] iterations left. *)
Fixpoint parseFloatVector_loop (n i : nat) (vec : list T) : Tok (list T) :=
  match n with
  | O => ret vec
  | S n' =>
      do t <- nextToken;
      do t' <- expect QuakeMapToken.Number t;
      parseFloatVector_loop n' (S i) (<[i := toFloat t']> vec)
  end.

(** [template <size_t S, typename T> vm::vec<T, S>
    parseFloatVector(const Type o, const Type c)]. The vector is a list of
    [S] components, written by index as in the source. *)
Definition parseFloatVector (S : nat) (o c : TokenType) : Tok (list T) :=
  do t <- nextToken;
  expect o t;;
  do vec <- parseFloatVector_loop S 0 (replicate S zero);
  do t <- nextToken;
  expect c t;;
  ret vec.

(** The mask the [k]-th call of [expect] in [parseFloatVector<S>(o, c)]
    asks for: [o] first, then [S] times [Number], then [c]. *)
Definition expectedAt (S : nat) (o c : TokenType) (k : nat) : TokenType :=
  if (k =? 0)%nat then o
  else if (k <=? S)%nat then QuakeMapToken.Number
  else c.
End FloatVector.

(** ** The data the parser builds

    The header declares the member functions of [StandardMapParser]; their
    bodies are in IO/StandardMapParser.cpp, and the types they exchange are
    in headers of [Model] and [IO], none of which is part of the sources at
    hand. What is needed of them is modelled from the specification. *)

(** Modelled from the spec: [Model::MapFormat] (Model/MapFormat.h is not
    part of the sources at hand), the six face dialects a parser can be
    created for. The header has one face rule for each of them. *)
Inductive MapFormat :=
| Standard | Valve | Quake2 | Quake2_Valve | Hexen2 | Daikatana.

(** Modelled from the spec: which face rules of StandardMapParser.cpp read
    texture axes. The dialects whose faces carry their axes in the text are
    Valve and Quake2Valve; Standard, Quake2, Hexen2 and Daikatana leave them
    implicit. *)
Definition explicitAxes (f : MapFormat) : bool :=
  match f with
  | Valve | Quake2_Valve => true
  | Standard | Quake2 | Hexen2 | Daikatana => false
  end.

(** Modelled from the spec: the face of [Model] that the parser fills in.
    The texture axes as a face has them in the text: none (implicit), the
    two bracketed Valve axes with their offsets
    ([std::tuple<vm::vec3, float, vm::vec3, float>]), or the two bare axes of
    a brush primitive ([std::tuple<vm::vec3, vm::vec3>]). Exactly one
    representation is present in a face. *)
Inductive TextureAxes (T : Type) :=
| ImplicitAxes
| ValveAxes (uAxis : list T) (uOffset : T) (vAxis : list T) (vOffset : T)
| PrimitiveAxes (uAxis vAxis : list T).
Arguments ImplicitAxes {T}.
Arguments ValveAxes {T}.
Arguments PrimitiveAxes {T}.

(** Modelled from the spec: a face as read from the text (the arguments of
    the face callbacks of IO/MapParser.h): its three plane points, its
    texture name, its axes and the numeric fields that trail the texture
    name. *)
Record ParsedFace (T : Type) := mkParsedFace {
  facePoints : list T * list T * list T;
  faceTexture : string;
  faceAxes : TextureAxes T;
  faceFields : list T
}.
Arguments mkParsedFace {T}.

(** Modelled from the spec: a patch (the arguments of the patch callback of
    IO/MapParser.h): texture name, declared grid size, and the control
    points, one list per row, each point the five numbers [x y z u v]. *)
Record Patch (T : Type) := mkPatch {
  patchTexture : string;
  patchRows : Z;
  patchColumns : Z;
  patchGrid : list (list (list T))
}.
Arguments mkPatch {T}.

(** [Model::EntityProperty]: a key and a value. *)
Definition EntityProperty : Type := string * string.

(** [using EntityPropertyKeys = kdl::vector_set<std::string>]: the set of
    the keys seen so far in the entity being read. *)
Abbreviation EntityPropertyKeys := (gset string).

(** Modelled from the spec: the Builder Callback Interface (the callbacks
    of IO/MapParser.h). One operation per completed construct; a face is
    accumulated into the brush that encloses it and reaches the builder
    with that brush. *)
Inductive BuilderCall (T Face : Type) :=
| onEntityComplete (properties : list EntityProperty) (sourceLine : nat)
| onBrushComplete (faces : list Face) (sourceLine : nat)
| onPatchComplete (patch : Patch T) (sourceLine : nat).
Arguments onEntityComplete {T Face}.
Arguments onBrushComplete {T Face}.
Arguments onPatchComplete {T Face}.

(** Modelled from the spec: [ParserStatus] (IO/ParserStatus.h), by what it
    is told, [warn(line, message)] or [error(line, message)]; the message
    of an error is kept as the exception it renders. *)
Inductive StatusCall :=
| warn (line : nat) (message : string)
| error (line : nat) (cause : ParserException).

(** The source line an exception is reported at. *)
Definition lineOf (e : ParserException) : nat :=
  match e with
  | UnexpectedTokenError _ found => tok_line found
  | MalformedPatchGridError line _ _ => line
  | DuplicateKeyError line _ => line
  end.

(** What a parse works on: the tokenizer the parser owns, and the two
    external collaborators it is given, each as the sequence of calls it has
    received so far. *)
Record ParserState (T Face : Type) := mkState {
  m_tokenizer : QuakeMapTokenizer;
  status : list StatusCall;
  builder : list (BuilderCall T Face)
}.
Arguments mkState {T Face}.
Arguments m_tokenizer {T Face}.
Arguments status {T Face}.
Arguments builder {T Face}.

(** Modelled from the spec: what the body of [parseEntityProperty] does
    with a second write of a key in one entity. The spec leaves the choice
    open, so the parser is read under each of the three it names. *)
Inductive DuplicatePolicy := FirstWriteWins | LastWriteWins | RejectDuplicate.

(** Modelled from the spec: the value of [StandardMapParser::PatchId]
    (defined in StandardMapParser.cpp), the keyword that opens a patch
    block. *)
Definition PatchId : string := "patchDef2".

(** Modelled from the spec: the check of a grid count in the body of
    [parsePatch]: a count is valid when it is an odd integer that is at
    least 3. *)
Definition validGridCount (n : Z) : bool := (3 <=? n) && Z.odd n.

(** Modelled from the spec: the resynchronisation of the block parsers of
    StandardMapParser.cpp. Scans forward to the closing brace that balances
    the block, [depth] braces being open, and returns what follows it; an
    unterminated block runs to the end of the input. *)
Fixpoint skipBlock (depth : nat) (ts : list Token) : list Token :=
  match ts with
  | [] => []
  | t :: ts' =>
      if hasType QuakeMapToken.OBrace t then skipBlock (S depth) ts'
      else if hasType QuakeMapToken.CBrace t then
        match depth with
        | O | S O => ts'
        | S d => skipBlock d ts'
        end
      else skipBlock depth ts'
  end.

(** ** The recursive-descent parser *)

Section StandardMapParser.
Context {T Face : Type}.

(** [Token::toFloat<T>], [Token::toInteger<int>] and the zero of [T]. *)
Variable toFloat : Token -> T.
Variable toInteger : Token -> Z.
Variable zero : T.

(** The two formats the parser is constructed with. *)
Variable m_sourceMapFormat : MapFormat.
Variable m_targetMapFormat : MapFormat.

(** Modelled from the spec: the number of numeric fields the face rules
    of StandardMapParser.cpp read after the texture name (and the axes,
    where the dialect writes them) in a face of each dialect, and in a
    face of a brush primitive. The spec fixes no counts beyond its
    Standard example, so they are left open. *)
Variable trailingFields : MapFormat -> nat.
Variable primitiveFields : nat.

(** Modelled from the spec: the Geometric Axis Resolver and the Format
    Converter, which turn a face read in the source dialect into the face
    the builder receives in the target dialect. They are floating-point
    code outside the sources at hand, taken here as a function of the
    two formats and the face. *)
Variable resolveFace : MapFormat -> MapFormat -> ParsedFace T -> Face.

Variable duplicatePolicy : DuplicatePolicy.

(** The member functions that also reach the status sink or the builder
    (those the header declares with a [ParserStatus&] argument). *)
Definition Parse (A : Type) : Type := Throws (ParserState T Face) A.

(** A tokenizer-only member function, run on [m_tokenizer]. *)
Definition onTokenizer {A} (m : Tok A) : Parse A :=
  fun st =>
    match m (m_tokenizer st) with
    | (r, ts') => (r, mkState ts' (status st) (builder st))
    end.

(** Modelled from the spec: the [mark] and [reset] of the tokenizer's
    cursor (IO/Tokenizer.h), its means of backtracking. *)
Definition mark : Parse QuakeMapTokenizer :=
  fun st => (inr (m_tokenizer st), st).

Definition reset (ts : QuakeMapTokenizer) : Parse unit :=
  fun st => (inr tt, mkState ts (status st) (builder st)).

(** Modelled from the spec: [ParserStatus::error(line, message)]. *)
Definition statusError (e : ParserException) : Parse unit :=
  fun st =>
    (inr tt,
     mkState (m_tokenizer st) (status st ++ [error (lineOf e) e]) (builder st)).

(** Modelled from the spec: a call of one of the builder's callbacks. *)
Definition deliver (call : BuilderCall T Face) : Parse unit :=
  fun st =>
    (inr tt, mkState (m_tokenizer st) (status st) (builder st ++ [call])).

(** Modelled from the spec: the wrapper around every block parse in
    StandardMapParser.cpp. An exception thrown inside the construct is
    reported to the status sink
    and the construct is abandoned; the cursor is reset to the mark taken
    at the opening brace of the construct and moved past the closing brace
    that balances it, where the enclosing scope resumes. *)
Definition recovering (construct : Parse unit) : Parse unit :=
  do start <- mark;
  tryCatch construct
    (fun e =>
       statusError e;;
       reset start;;
       onTokenizer (fun ts => (inr tt, skipBlock 0 ts))).

(** *** Faces *)

(** Modelled from the spec: the body of [parseFloat], one token of a
    numeric kind. *)
Definition parseFloat : Tok T :=
  do t <- nextToken;
  do t' <- expect QuakeMapToken.Number t;
  ret (toFloat t').

(** Modelled from the spec: the body of [parseInteger], one token of
    kind Integer. *)
Definition parseInteger : Tok Z :=
  do t <- nextToken;
  do t' <- expect QuakeMapToken.Integer t;
  ret (toInteger t').

(** Modelled from the spec: the body of [parseFacePoints], the three
    plane points of a face, each a parenthesised triple. *)
Definition parseFacePoints : Tok (list T * list T * list T) :=
  do p1 <- parseFloatVector toFloat zero 3
             QuakeMapToken.OParenthesis QuakeMapToken.CParenthesis;
  do p2 <- parseFloatVector toFloat zero 3
             QuakeMapToken.OParenthesis QuakeMapToken.CParenthesis;
  do p3 <- parseFloatVector toFloat zero 3
             QuakeMapToken.OParenthesis QuakeMapToken.CParenthesis;
  ret (p1, p2, p3).

(** Modelled from the spec: the body of [parseTextureName], a String
    token. *)
Definition parseTextureName : Tok string :=
  do t <- nextToken;
  do t' <- expect QuakeMapToken.String t;
  ret (tok_data t').

(** Modelled from the spec: the body of [parseValveTextureAxes], the
    explicit axes of the Valve dialects: two bracketed groups of four
    numbers, an axis and its offset each. *)
Definition parseValveTextureAxes : Tok (TextureAxes T) :=
  do u <- parseFloatVector toFloat zero 4
            QuakeMapToken.OBracket QuakeMapToken.CBracket;
  do v <- parseFloatVector toFloat zero 4
            QuakeMapToken.OBracket QuakeMapToken.CBracket;
  ret (ValveAxes (take 3 u) (nth 3 u zero) (take 3 v) (nth 3 v zero)).

(** Modelled from the spec: the body of [parsePrimitiveTextureAxes], the
    axes of a primitive face: two explicit 3-vectors. *)
Definition parsePrimitiveTextureAxes : Tok (TextureAxes T) :=
  do u <- parseFloatVector toFloat zero 3
            QuakeMapToken.OParenthesis QuakeMapToken.CParenthesis;
  do v <- parseFloatVector toFloat zero 3
            QuakeMapToken.OParenthesis QuakeMapToken.CParenthesis;
  ret (PrimitiveAxes u v).

(** Modelled from the spec: the numeric fields that trail a face, read
    one by one by the face rules. *)
Fixpoint parseFields (n : nat) : Tok (list T) :=
  match n with
  | O => ret []
  | S n' =>
      do x <- parseFloat;
      do xs <- parseFields n';
      ret (x :: xs)
  end.

(** Modelled from the spec: the bodies of [parseQuakeFace],
    [parseQuake2Face], [parseHexen2Face] and [parseDaikatanaFace], a face
    of an implicit-axis dialect: points, texture name, trailing fields. *)
Definition parseImplicitFace (fields : nat) : Tok (ParsedFace T) :=
  do points <- parseFacePoints;
  do texture <- parseTextureName;
  do tail <- parseFields fields;
  ret (mkParsedFace points texture ImplicitAxes tail).

(** Modelled from the spec: the bodies of [parseValveFace] and
    [parseQuake2ValveFace], a face of an explicit-axis dialect: points,
    texture name, axes, trailing fields. *)
Definition parseExplicitFace (fields : nat) : Tok (ParsedFace T) :=
  do points <- parseFacePoints;
  do texture <- parseTextureName;
  do axes <- parseValveTextureAxes;
  do tail <- parseFields fields;
  ret (mkParsedFace points texture axes tail).

(** The six face rules the header declares. *)
Definition parseQuakeFace := parseImplicitFace (trailingFields Standard).
Definition parseQuake2Face := parseImplicitFace (trailingFields Quake2).
Definition parseQuake2ValveFace :=
  parseExplicitFace (trailingFields Quake2_Valve).
Definition parseHexen2Face := parseImplicitFace (trailingFields Hexen2).
Definition parseDaikatanaFace := parseImplicitFace (trailingFields Daikatana).
Definition parseValveFace := parseExplicitFace (trailingFields Valve).

(** Modelled from the spec: the body of [parsePrimitiveFace], a face of
    a brush primitive: an inner parenthesised block with the three plane points, then the two axes,
    the texture name and the trailing fields, whatever the face dialect. *)
Definition parsePrimitiveFace : Tok (ParsedFace T) :=
  do t <- nextToken;
  expect QuakeMapToken.OParenthesis t;;
  do points <- parseFacePoints;
  do t <- nextToken;
  expect QuakeMapToken.CParenthesis t;;
  do axes <- parsePrimitiveTextureAxes;
  do texture <- parseTextureName;
  do tail <- parseFields primitiveFields;
  ret (mkParsedFace points texture axes tail).

(** Modelled from the spec: the body of [parseFace], the face rule
    dispatched on the source dialect. *)
Definition parseFace (primitive : bool) : Tok (ParsedFace T) :=
  if primitive then parsePrimitiveFace
  else
    match m_sourceMapFormat with
    | Standard => parseQuakeFace
    | Valve => parseValveFace
    | Quake2 => parseQuake2Face
    | Quake2_Valve => parseQuake2ValveFace
    | Hexen2 => parseHexen2Face
    | Daikatana => parseDaikatanaFace
    end.

(** *** Brushes *)

(** Modelled from the spec: the body of [parseBrush], one face per round
    until the closing brace.
    The faces are accumulated and handed to the builder with the brush.
    [fuel] bounds the number of rounds; every round takes at least one
    token, and [parseBrush] starts with more fuel than there are tokens. *)
Fixpoint parseBrush_loop (fuel : nat) (startLine : nat) (primitive : bool)
  (faces : list Face) : Parse unit :=
  match fuel with
  | O => ret tt
  | S fuel' =>
      do t <- onTokenizer peekToken;
      if hasType QuakeMapToken.OParenthesis t then
        do face <- onTokenizer (parseFace primitive);
        parseBrush_loop fuel' startLine primitive
          (faces ++ [resolveFace m_sourceMapFormat m_targetMapFormat face])
      else if hasType QuakeMapToken.CBrace t then
        onTokenizer nextToken;;
        deliver (onBrushComplete faces startLine)
      else
        onTokenizer
          (expect (Z.lor QuakeMapToken.OParenthesis QuakeMapToken.CBrace) t);;
        ret tt
  end.

(** [parseBrush(status, startLine, primitive)]: the loop, with more fuel
    than there are tokens. *)
Definition parseBrush (startLine : nat) (primitive : bool) : Parse unit :=
  fun st =>
    parseBrush_loop (S (length (m_tokenizer st))) startLine primitive [] st.

(** [parseBrushPrimitive(status, startLine)]. *)
Definition parseBrushPrimitive (startLine : nat) : Parse unit :=
  parseBrush startLine true.

(** *** Patches *)

(** Modelled from the spec: the body of [parsePatch], in four steps.
    First one control point, the five numbers
    [( x y z u v )]. A block that ends where a point is due has too few
    points for its declared grid. *)
Definition parseControlPoint (line : nat) (rows columns : Z) : Tok (list T) :=
  do t <- peekToken;
  if hasType QuakeMapToken.CBrace t then
    throw (MalformedPatchGridError line rows columns)
  else
    parseFloatVector toFloat zero 5
      QuakeMapToken.OParenthesis QuakeMapToken.CParenthesis.

(** Then one row of the grid: [n] control points. *)
Fixpoint parseControlPointRow (line : nat) (rows columns : Z) (n : nat) :
  Tok (list (list T)) :=
  match n with
  | O => ret []
  | S n' =>
      do p <- parseControlPoint line rows columns;
      do ps <- parseControlPointRow line rows columns n';
      ret (p :: ps)
  end.

(** Then the grid, row after row: [m] rows of [n] control points. *)
Fixpoint parseControlPointRows (line : nat) (rows columns : Z) (m n : nat) :
  Tok (list (list (list T))) :=
  match m with
  | O => ret []
  | S m' =>
      do r <- parseControlPointRow line rows columns n;
      do rs <- parseControlPointRows line rows columns m' n;
      ret (r :: rs)
  end.

(** Modelled from the spec: the body of [parsePatch], a patch block after
    the opening brace of the block: the patch keyword, a brace, the texture name, the declared
    grid size, exactly rows times columns control points in row-major
    order, and the two closing braces. A grid count that is even or below
    3 is an error, and so is a point beyond the declared grid. *)
Definition parsePatch (startLine : nat) : Parse unit :=
  do patch <- onTokenizer (
    do t <- nextToken;
    expect QuakeMapToken.String t;;
    do t <- nextToken;
    expect QuakeMapToken.OBrace t;;
    do texture <- parseTextureName;
    do t <- peekToken;
    do rows <- parseInteger;
    do columns <- parseInteger;
    if validGridCount rows && validGridCount columns then
      do grid <- parseControlPointRows (tok_line t) rows columns
                   (Z.to_nat rows) (Z.to_nat columns);
      do t' <- peekToken;
      if hasType QuakeMapToken.OParenthesis t' then
        throw (MalformedPatchGridError (tok_line t) rows columns)
      else
        do t' <- nextToken;
        expect QuakeMapToken.CBrace t';;
        do t' <- nextToken;
        expect QuakeMapToken.CBrace t';;
        ret (mkPatch texture rows columns grid)
    else throw (MalformedPatchGridError (tok_line t) rows columns));
  deliver (onPatchComplete patch startLine).

(** *** Blocks *)

(** Modelled from the spec: the body of
    [parseBrushOrBrushPrimitiveOrPatch], the block that opens with a brace
    inside an entity. After the brace the cursor is marked, the next two tokens are
    read and the cursor is reset: the patch keyword selects a patch, two
    opening parentheses in a row select a brush primitive, anything else a
    plain brush. *)
Definition parseBlock : Parse unit :=
  do t <- onTokenizer nextToken;
  do brace <- onTokenizer (expect QuakeMapToken.OBrace t);
  do start <- mark;
  do t1 <- onTokenizer nextToken;
  do t2 <- onTokenizer nextToken;
  reset start;;
  if hasType QuakeMapToken.String t1 && bool_decide (tok_data t1 = PatchId)
  then parsePatch (tok_line brace)
  else if hasType QuakeMapToken.OParenthesis t1
          && hasType QuakeMapToken.OParenthesis t2
  then parseBrushPrimitive (tok_line brace)
  else parseBrush (tok_line brace) false.

(** [parseBrushOrBrushPrimitiveOrPatch(status)]: the block rule inside
    the wrapper that reports and resynchronises. *)
Definition parseBrushOrBrushPrimitiveOrPatch : Parse unit :=
  recovering parseBlock.

(** *** Entities *)

(** Modelled from the spec: the body of [parseEntityProperty], one
    property, a key and a value that are both String tokens. A key that is not yet in [keys] is appended and recorded;
    a key that is already there is handled as [duplicatePolicy] says. *)
Definition parseEntityProperty (properties : list EntityProperty)
  (keys : EntityPropertyKeys) :
  Parse (list EntityProperty * EntityPropertyKeys) :=
  do t <- onTokenizer nextToken;
  do k <- onTokenizer (expect QuakeMapToken.String t);
  do t <- onTokenizer nextToken;
  do v <- onTokenizer (expect QuakeMapToken.String t);
  if decide (tok_data k ∈ keys) then
    match duplicatePolicy with
    | FirstWriteWins => ret (properties, keys)
    | LastWriteWins =>
        ret (map (fun kv : EntityProperty =>
                    if decide (kv.1 = tok_data k)
                    then (tok_data k, tok_data v) else kv) properties,
             keys)
    | RejectDuplicate => throw (DuplicateKeyError (tok_line k) (tok_data k))
    end
  else ret (properties ++ [(tok_data k, tok_data v)], {[tok_data k]} ∪ keys).

(** Modelled from the spec: the body of [parseEntity]. Inside an entity,
    a String token starts a property, an opening brace a nested block, and the closing brace hands
    the entity to the builder. *)
Fixpoint parseEntity_loop (fuel : nat) (startLine : nat)
  (properties : list EntityProperty) (keys : EntityPropertyKeys) :
  Parse unit :=
  match fuel with
  | O => ret tt
  | S fuel' =>
      do t <- onTokenizer peekToken;
      if hasType QuakeMapToken.String t then
        do pk <- parseEntityProperty properties keys;
        parseEntity_loop fuel' startLine pk.1 pk.2
      else if hasType QuakeMapToken.OBrace t then
        parseBrushOrBrushPrimitiveOrPatch;;
        parseEntity_loop fuel' startLine properties keys
      else if hasType QuakeMapToken.CBrace t then
        onTokenizer nextToken;;
        deliver (onEntityComplete properties startLine)
      else
        onTokenizer
          (expect (Z.lor QuakeMapToken.String
                     (Z.lor QuakeMapToken.OBrace QuakeMapToken.CBrace)) t);;
        ret tt
  end.

(** [parseEntity(status)]: the opening brace, then the loop, inside the
    wrapper that reports and resynchronises. *)
Definition parseEntity : Parse unit :=
  recovering (
    do t <- onTokenizer nextToken;
    do brace <- onTokenizer (expect QuakeMapToken.OBrace t);
    fun st =>
      parseEntity_loop (S (length (m_tokenizer st))) (tok_line brace) [] ∅ st).

(** Modelled from the spec: the body of [parseEntities], the top level.
    An opening brace enters an entity, the end of the input ends the parse; any other token is an
    error with no enclosing block to abandon, and it reaches the caller. *)
Fixpoint parseEntities_loop (fuel : nat) : Parse unit :=
  match fuel with
  | O => ret tt
  | S fuel' =>
      do t <- onTokenizer peekToken;
      if hasType QuakeMapToken.Eof t then ret tt
      else if hasType QuakeMapToken.OBrace t then
        parseEntity;;
        parseEntities_loop fuel'
      else
        onTokenizer
          (expect (Z.lor QuakeMapToken.OBrace QuakeMapToken.Eof) t);;
        ret tt
  end.

(** [parseEntities(status)]: the loop, with more fuel than there are
    tokens. *)
Definition parseEntities : Parse unit :=
  fun st => parseEntities_loop (S (length (m_tokenizer st))) st.
End StandardMapParser.

(** ** The grammar of well-formed constructs *)

(** A token of one of the two numeric kinds. *)
Definition isNumber (t : Token) : Prop :=
  tok_type t = QuakeMapToken.Integer \/ tok_type t = QuakeMapToken.Decimal.

(** The brace depth after the tokens [ts], starting [d] braces deep; [None]
    when a closing brace has no opening brace before it. *)
Fixpoint depthAfter (d : nat) (ts : list Token) : option nat :=
  match ts with
  | [] => Some d
  | t :: ts' =>
      if hasType QuakeMapToken.OBrace t then depthAfter (S d) ts'
      else if hasType QuakeMapToken.CBrace t then
        match d with
        | O => None
        | S d' => depthAfter d' ts'
        end
      else depthAfter d ts'
  end.

(** Tokens whose braces are balanced. *)
Definition balanced (ts : list Token) : Prop := depthAfter 0 ts = Some 0%nat.

Section Grammar.
Context {T : Type}.
Variable toFloat : Token -> T.
Variable zero : T.
Variable m_sourceMapFormat : MapFormat.
Variable trailingFields : MapFormat -> nat.
Variable primitiveFields : nat.

(** A delimited group of [S] numbers, and the vector it denotes. *)
Inductive vectorTokens (S : nat) (o c : TokenType) :
  list Token -> list T -> Prop :=
| vectorTokens_intro (to tc : Token) (ns : list Token) :
    tok_type to = o -> tok_type tc = c ->
    length ns = S -> Forall isNumber ns ->
    vectorTokens S o c (to :: ns ++ [tc]) (map toFloat ns).

(** [n] trailing numeric fields. *)
Inductive fieldTokens (n : nat) : list Token -> list T -> Prop :=
| fieldTokens_intro (ns : list Token) :
    length ns = n -> Forall isNumber ns ->
    fieldTokens n ns (map toFloat ns).

(** The three plane points of a face. *)
Inductive pointsTokens : list Token -> list T * list T * list T -> Prop :=
| pointsTokens_intro p1 p2 p3 v1 v2 v3 :
    vectorTokens 3 QuakeMapToken.OParenthesis QuakeMapToken.CParenthesis p1 v1 ->
    vectorTokens 3 QuakeMapToken.OParenthesis QuakeMapToken.CParenthesis p2 v2 ->
    vectorTokens 3 QuakeMapToken.OParenthesis QuakeMapToken.CParenthesis p3 v3 ->
    pointsTokens (p1 ++ p2 ++ p3) (v1, v2, v3).

(** A face of a plain brush in the source dialect. *)
Inductive faceTokens : list Token -> ParsedFace T -> Prop :=
| faceTokens_implicit ps points tex fs fields :
    explicitAxes m_sourceMapFormat = false ->
    pointsTokens ps points ->
    tok_type tex = QuakeMapToken.String ->
    fieldTokens (trailingFields m_sourceMapFormat) fs fields ->
    faceTokens (ps ++ tex :: fs)
      (mkParsedFace points (tok_data tex) ImplicitAxes fields)
| faceTokens_explicit ps points tex us u vs v fs fields :
    explicitAxes m_sourceMapFormat = true ->
    pointsTokens ps points ->
    tok_type tex = QuakeMapToken.String ->
    vectorTokens 4 QuakeMapToken.OBracket QuakeMapToken.CBracket us u ->
    vectorTokens 4 QuakeMapToken.OBracket QuakeMapToken.CBracket vs v ->
    fieldTokens (trailingFields m_sourceMapFormat) fs fields ->
    faceTokens (ps ++ tex :: us ++ vs ++ fs)
      (mkParsedFace points (tok_data tex)
         (ValveAxes (take 3 u) (nth 3 u zero) (take 3 v) (nth 3 v zero))
         fields).

(** A face of a brush primitive. *)
Inductive primitiveFaceTokens : list Token -> ParsedFace T -> Prop :=
| primitiveFaceTokens_intro o ps points c us u vs v tex fs fields :
    tok_type o = QuakeMapToken.OParenthesis ->
    pointsTokens ps points ->
    tok_type c = QuakeMapToken.CParenthesis ->
    vectorTokens 3 QuakeMapToken.OParenthesis QuakeMapToken.CParenthesis us u ->
    vectorTokens 3 QuakeMapToken.OParenthesis QuakeMapToken.CParenthesis vs v ->
    tok_type tex = QuakeMapToken.String ->
    fieldTokens primitiveFields fs fields ->
    primitiveFaceTokens (o :: ps ++ c :: us ++ vs ++ tex :: fs)
      (mkParsedFace points (tok_data tex) (PrimitiveAxes u v) fields).

(** A brush block: a brace, faces, a brace. It denotes its faces and the
    line it starts on. *)
Inductive brushTokens (primitive : bool) :
  list Token -> list (ParsedFace T) -> nat -> Prop :=
| brushTokens_intro ob cb fts faces :
    tok_type ob = QuakeMapToken.OBrace ->
    tok_type cb = QuakeMapToken.CBrace ->
    Forall2 (if primitive then primitiveFaceTokens else faceTokens) fts faces ->
    brushTokens primitive (ob :: concat fts ++ [cb]) faces (tok_line ob).

(** The properties of an entity: pairs of String tokens. *)
Inductive propertyTokens : list Token -> list EntityProperty -> Prop :=
| propertyTokens_nil : propertyTokens [] []
| propertyTokens_cons k v ts props :
    tok_type k = QuakeMapToken.String ->
    tok_type v = QuakeMapToken.String ->
    propertyTokens ts props ->
    propertyTokens (k :: v :: ts) ((tok_data k, tok_data v) :: props).

(** The control points of a patch, row by row, and the grid they denote. *)
Definition gridTokens (rows : list (list (list Token)))
  (grid : list (list (list T))) : Prop :=
  Forall2 (Forall2 (vectorTokens 5 QuakeMapToken.OParenthesis
                      QuakeMapToken.CParenthesis)) rows grid.
End Grammar.

(** ** How a member function uses the two sinks *)

Section Sinks.
Context {T Face : Type}.

(** [m] reads nothing from the status sink and the builder and only adds
    calls to them: its result, the tokens it leaves and the calls it adds
    are determined by the tokens alone. Every builder call it adds
    satisfies [P] and every value it returns satisfies [R]. *)
Definition framed {A} (P : BuilderCall T Face -> Prop) (R : A -> Prop)
  (m : Throws (ParserState T Face) A) : Prop :=
  forall ts, exists r ts' ds db,
    Forall P db /\ (forall a, r = inr a -> R a) /\
    forall s b, m (mkState ts s b) = (r, mkState ts' (s ++ ds) (b ++ db)).

(** [m] leaves both sinks as they are. *)
Definition silent {A} (m : Throws (ParserState T Face) A) : Prop :=
  forall st, status (m st).2 = status st /\ builder (m st).2 = builder st.

(** When [m] throws, both sinks are as they were. *)
Definition throwsQuietly {A} (m : Throws (ParserState T Face) A) : Prop :=
  forall st e st', m st = (inl e, st') ->
    status st' = status st /\ builder st' = builder st.

(** The keys of the properties of a delivered entity are pairwise
    distinct. *)
Definition uniqueKeys (call : BuilderCall T Face) : Prop :=
  match call with
  | onEntityComplete properties _ => NoDup properties.*1
  | _ => True
  end.
End Sinks.

(** A face that was read by the rule for brush primitives: it carries the
    two bare axes of a primitive. *)
Definition isPrimitiveFace {T} (face : ParsedFace T) : Prop :=
  exists u v, faceAxes T face = PrimitiveAxes u v.

(** A builder call that, if it hands over a brush, hands over one whose
    faces were all read by the rule for brush primitives (and then resolved
    by [resolve]). *)
Definition primitiveBrushCall {T Face} (resolve : ParsedFace T -> Face)
  (call : BuilderCall T Face) : Prop :=
  match call with
  | onBrushComplete faces _ =>
      exists parsed, faces = map resolve parsed /\ Forall isPrimitiveFace parsed
  | _ => True
  end.

(** The keys of [properties] are pairwise distinct and [keys] is the set of
    them: what [parseEntityProperty] keeps true of its two accumulators. *)
Definition keysRecorded (properties : list EntityProperty)
  (keys : EntityPropertyKeys) : Prop :=
  NoDup properties.*1 /\ forall x, x ∈ keys <-> x ∈ properties.*1.

(** ** A concrete instance, for examples *)

Module Samples.
Import QuakeMapToken.

(** The value of a run of decimal digits. *)
Fixpoint digits (s : string) (acc : Z) : Z :=
  match s with
  | EmptyString => acc
  | String.String a s' =>
      digits s' (10 * acc + (Z.of_nat (Ascii.nat_of_ascii a) - 48))
  end.

Definition toFloat (t : Token) : Z := digits (tok_data t) 0.
Definition toInteger (t : Token) : Z := digits (tok_data t) 0.

(** Tokens on a given line. *)
Definition int (line : nat) (s : string) := mkToken Integer s line 0.
Definition dec (line : nat) (s : string) := mkToken Decimal s line 0.
Definition str (line : nat) (s : string) := mkToken QuakeMapToken.String s line 0.
Definition oparen (line : nat) := mkToken OParenthesis "(" line 0.
Definition cparen (line : nat) := mkToken CParenthesis ")" line 0.
Definition obrace (line : nat) := mkToken OBrace "{" line 0.
Definition cbrace (line : nat) := mkToken CBrace "}" line 0.

(** [( x y z )] *)
Definition point (line : nat) (x y z : string) : list Token :=
  [oparen line; int line x; int line y; int line z; cparen line].

(** A face of the Standard dialect:
    [( 0 0 0 ) ( 0 1 0 ) ( 1 0 0 ) tex 0 0 0 1 1]. *)
Definition standardFace (line : nat) (tex : string) : list Token :=
  point line "0" "0" "0" ++ point line "0" "1" "0" ++ point line "1" "0" "0"
  ++ [str line tex; int line "0"; int line "0"; int line "0";
      int line "1"; int line "1"].

(** The Standard dialect has five trailing fields; the other counts are
    picked for the examples. *)
Definition trailingFields (f : MapFormat) : nat :=
  match f with
  | Standard => 5 | Valve => 3 | Quake2 => 8 | Quake2_Valve => 6
  | Hexen2 => 6 | Daikatana => 8
  end%nat.

(** The builder receives the face as it was read. *)
Definition resolveFace (src tgt : MapFormat) (f : ParsedFace Z) := f.

Definition State := ParserState Z (ParsedFace Z).

Definition parse (src tgt : MapFormat) (policy : DuplicatePolicy)
  (text : list Token) : (ParserException + unit) * State :=
  parseEntities toFloat toInteger 0 src tgt trailingFields 3%nat resolveFace
    policy (mkState text [] []).

(** The spec's example scenario, one token per item:
    [{ "classname" "worldspawn" { ( 0 0 0 ) ( 0 1 0 ) ( 1 0 0 ) tex 0 0 0 1 1 } }]. *)
Definition scenario : list Token :=
  [obrace 1; str 1 "classname"; str 1 "worldspawn"; obrace 2]
  ++ standardFace 2 "tex" ++ [cbrace 2; cbrace 3].

(** A control point of a patch, [( 0 0 0 0 0 )]. *)
Definition controlPoint (line : nat) : list Token :=
  [oparen line; int line "0"; int line "0"; int line "0"; int line "0";
   int line "0"; cparen line].

(** The head of a patch block that declares [rows] by [columns]:
    [{ patchDef2 { tex rows columns]. *)
Definition patchHead (rows columns : string) : list Token :=
  [obrace 1; str 1 PatchId; obrace 1; str 2 "tex"; int 2 rows; int 2 columns].

(** A file with a malformed block, [{ ( 0 0 }], between two brushes. *)
Definition brokenFile : list Token :=
  [obrace 1; str 1 "classname"; str 1 "worldspawn"]
  ++ (obrace 2 :: standardFace 2 "a" ++ [cbrace 2])
  ++ (obrace 3 :: [oparen 3; int 3 "0"; int 3 "0"] ++ [cbrace 3])
  ++ (obrace 4 :: standardFace 4 "b" ++ [cbrace 4])
  ++ [cbrace 5].

(** A face of a brush primitive:
    [( ( 0 0 0 ) ( 0 1 0 ) ( 1 0 0 ) ) ( 1 0 0 ) ( 0 1 0 ) tex 0 0 0]. *)
Definition primitiveFace (line : nat) (tex : string) : list Token :=
  oparen line
  :: (point line "0" "0" "0" ++ point line "0" "1" "0"
      ++ point line "1" "0" "0")
  ++ cparen line
  :: point line "1" "0" "0" ++ point line "0" "1" "0"
  ++ [str line tex; int line "0"; int line "0"; int line "0"].

(** The file with the malformed block, [{ ( 0 0 }], between a plain brush
    and a brush primitive. *)
Definition mixedFile : list Token :=
  [obrace 1; str 1 "classname"; str 1 "worldspawn"]
  ++ (obrace 2 :: standardFace 2 "a" ++ [cbrace 2])
  ++ (obrace 3 :: [oparen 3; int 3 "0"; int 3 "0"] ++ [cbrace 3])
  ++ (obrace 4 :: primitiveFace 4 "b" ++ [cbrace 4])
  ++ [cbrace 5].

(** A file whose malformed brush, [{ ( 0 0], lacks its closing brace,
    between two well-formed brushes. *)
Definition unterminatedFile : list Token :=
  [obrace 1; str 1 "classname"; str 1 "worldspawn"]
  ++ (obrace 2 :: standardFace 2 "a" ++ [cbrace 2])
  ++ [obrace 3; oparen 3; int 3 "0"; int 3 "0"]
  ++ (obrace 4 :: standardFace 4 "b" ++ [cbrace 4])
  ++ [cbrace 5].
End Samples.

(** * Calls that can fail an [ensure] *)

(** How a call ends: it returns, or [ensure] fails (which ends the program),
    or it dereferences a null pointer (which the language leaves
    undefined). *)
Inductive Outcome (A : Type) :=
| Done (a : A)
| EnsureFailed (message : string)
| NullDereference.
Arguments Done {A}.
Arguments EnsureFailed {A}.
Arguments NullDereference {A}.

(** * [Model::NodeCollection] (Model/NodeCollection.cpp)

    The collection keeps every node it is given in [m_nodes] and, again, in
    the vector of its class. *)

Module Nodes.

(** The classes a [Node*] can point to, as [Node::accept] tells them
    apart. *)
Inductive NodeKind :=
| WorldNode | LayerNode | GroupNode | EntityNode | BrushNode | PatchNode.

#[global] Instance NodeKind_eq_dec : EqDecision NodeKind.
Proof. solve_decision. Defined.

(** A [Node*]: the address of the node, [0] for [nullptr]. Pointers are
    compared by address. *)
Definition NodePtr := N.

(** The six vectors of a [NodeCollection]. *)
Record NodeCollection := mkNodeCollection {
  m_nodes : list NodePtr;
  m_layers : list NodePtr;
  m_groups : list NodePtr;
  m_entities : list NodePtr;
  m_brushes : list NodePtr;
  m_patches : list NodePtr
}.

(** A default constructed collection. *)
Definition emptyCollection : NodeCollection := mkNodeCollection [] [] [] [] [] [].

Definition empty (c : NodeCollection) : bool := bool_decide (m_nodes c = []).
Definition nodeCount (c : NodeCollection) : nat := length (m_nodes c).
Definition layerCount (c : NodeCollection) : nat := length (m_layers c).
Definition groupCount (c : NodeCollection) : nat := length (m_groups c).
Definition entityCount (c : NodeCollection) : nat := length (m_entities c).
Definition brushCount (c : NodeCollection) : nat := length (m_brushes c).
Definition patchCount (c : NodeCollection) : nat := length (m_patches c).

Definition hasLayers (c : NodeCollection) : bool :=
  negb (bool_decide (m_layers c = [])).
Definition hasOnlyLayers (c : NodeCollection) : bool :=
  negb (empty c) && (nodeCount c =? layerCount c)%nat.
Definition hasGroups (c : NodeCollection) : bool :=
  negb (bool_decide (m_groups c = [])).
Definition hasOnlyGroups (c : NodeCollection) : bool :=
  negb (empty c) && (nodeCount c =? groupCount c)%nat.
Definition hasEntities (c : NodeCollection) : bool :=
  negb (bool_decide (m_entities c = [])).
Definition hasOnlyEntities (c : NodeCollection) : bool :=
  negb (empty c) && (nodeCount c =? entityCount c)%nat.
Definition hasBrushes (c : NodeCollection) : bool :=
  negb (bool_decide (m_brushes c = [])).
Definition hasOnlyBrushes (c : NodeCollection) : bool :=
  negb (empty c) && (nodeCount c =? brushCount c)%nat.
Definition hasPatches (c : NodeCollection) : bool :=
  negb (bool_decide (m_patches c = [])).
Definition hasOnlyPatches (c : NodeCollection) : bool :=
  negb (empty c) && (nodeCount c =? patchCount c)%nat.

(** [clear()]. *)
Definition clear (c : NodeCollection) : NodeCollection := emptyCollection.

(** [std::remove(std::begin(v), end, value)] on a vector of pointers, [e]
    being the index of [end]: the elements of [[0, e)] that differ from
    [value] are moved to the front in their order, and the index after the
    last of them is returned. The positions from that index on keep what
    they held (the standard leaves them unspecified; the collection erases
    them before it returns). *)
Definition std_remove (v : list NodePtr) (e : nat) (value : NodePtr) :
  list NodePtr * nat :=
  let kept := filter (fun y => y <> value) (take e v) in
  (kept ++ drop (length kept) v, length kept).

(** [v.erase(end, std::end(v))]. *)
Definition erase_from (v : list NodePtr) (e : nat) : list NodePtr := take e v.

(** The six vectors with the six moving ends of [doRemoveNodes]. *)
Record Removal := mkRemoval {
  nodes : list NodePtr;      nodeEnd : nat;
  layers : list NodePtr;     layerEnd : nat;
  groups : list NodePtr;     groupEnd : nat;
  entities : list NodePtr;   entityEnd : nat;
  brushes : list NodePtr;    brushEnd : nat;
  patches : list NodePtr;    patchEnd : nat
}.

(** The six vectors by name. *)
Inductive Vector := AllNodes | Layers | Groups | Entities | Brushes | Patches.

Definition vectorOf (vec : Vector) (c : NodeCollection) : list NodePtr :=
  match vec with
  | AllNodes => m_nodes c
  | Layers => m_layers c
  | Groups => m_groups c
  | Entities => m_entities c
  | Brushes => m_brushes c
  | Patches => m_patches c
  end.

(** The classes whose nodes a vector is written to by [addNode] and
    [doRemoveNodes]: [m_nodes] takes every class but the world node, each
    other vector its own class. *)
Definition holds (vec : Vector) (k : NodeKind) : bool :=
  match vec with
  | AllNodes => negb (bool_decide (k = WorldNode))
  | Layers => bool_decide (k = LayerNode)
  | Groups => bool_decide (k = GroupNode)
  | Entities => bool_decide (k = EntityNode)
  | Brushes => bool_decide (k = BrushNode)
  | Patches => bool_decide (k = PatchNode)
  end.

(** A vector of a removal in progress, with its moving end. *)
Definition rangeOf (vec : Vector) (r : Removal) : list NodePtr * nat :=
  match vec with
  | AllNodes => (nodes r, nodeEnd r)
  | Layers => (layers r, layerEnd r)
  | Groups => (groups r, groupEnd r)
  | Entities => (entities r, entityEnd r)
  | Brushes => (brushes r, brushEnd r)
  | Patches => (patches r, patchEnd r)
  end.

(** The vector that [removeNodes] is given by reference: a vector of the
    caller, or the collection's own [m_nodes], which is what
    [c.removeNodes(c.nodes())] passes. The other five vectors have element
    types of their own, so [m_nodes] is the only vector of the collection
    that the parameter can refer to. *)
Inductive Range :=
| Separate (vector : list NodePtr)
| OwnNodes.

(** The size of the range when [doRemoveNodes] is called: the distance
    from [cur] to [end]. *)
Definition rangeSize (range : Range) (c : NodeCollection) : nat :=
  match range with
  | Separate vector => length vector
  | OwnNodes => length (m_nodes c)
  end.

(** The element that [cur] points to when it stands at index [i] of the
    range: an element of the caller's vector, or of [m_nodes] as the loop
    has left it so far. *)
Definition deref (range : Range) (r : Removal) (i : nat) : option NodePtr :=
  match range with
  | Separate vector => vector !! i
  | OwnNodes => nodes r !! i
  end.

Section WithKinds.
(** The class of the node at an address, which [accept] dispatches on. *)
Variable kindOf : NodePtr -> NodeKind.

(** [addNode(node)]: a world node is not kept; any other node is appended
    to [m_nodes] and to the vector of its class. *)
Definition addNode (node : NodePtr) (c : NodeCollection) :
  Outcome NodeCollection :=
  if (node =? 0)%N then EnsureFailed "node is null"
  else
    Done
      match kindOf node with
      | WorldNode => c
      | LayerNode =>
          mkNodeCollection (m_nodes c ++ [node]) (m_layers c ++ [node])
            (m_groups c) (m_entities c) (m_brushes c) (m_patches c)
      | GroupNode =>
          mkNodeCollection (m_nodes c ++ [node]) (m_layers c)
            (m_groups c ++ [node]) (m_entities c) (m_brushes c) (m_patches c)
      | EntityNode =>
          mkNodeCollection (m_nodes c ++ [node]) (m_layers c) (m_groups c)
            (m_entities c ++ [node]) (m_brushes c) (m_patches c)
      | BrushNode =>
          mkNodeCollection (m_nodes c ++ [node]) (m_layers c) (m_groups c)
            (m_entities c) (m_brushes c ++ [node]) (m_patches c)
      | PatchNode =>
          mkNodeCollection (m_nodes c ++ [node]) (m_layers c) (m_groups c)
            (m_entities c) (m_brushes c) (m_patches c ++ [node])
      end.

(** [addNodes(nodes)]: [addNode] for each node in turn. [nodes] is a vector
    of the caller; the collection's own [m_nodes] is no argument here, as
    appending to the vector that the loop runs over invalidates the loop's
    iterators. *)
Fixpoint addNodes (nodes : list NodePtr) (c : NodeCollection) :
  Outcome NodeCollection :=
  match nodes with
  | [] => Done c
  | node :: rest =>
      match addNode node c with
      | Done c' => addNodes rest c'
      | failed => failed
      end
  end.

(** One round of the loop of [doRemoveNodes]: [accept] is called on the
    node that [cur] points to. *)
Definition removeStep (cur : NodePtr) (r : Removal) : Removal :=
  let n := std_remove (nodes r) (nodeEnd r) cur in
  match kindOf cur with
  | WorldNode => r
  | LayerNode =>
      let k := std_remove (layers r) (layerEnd r) cur in
      mkRemoval n.1 n.2 k.1 k.2 (groups r) (groupEnd r)
        (entities r) (entityEnd r) (brushes r) (brushEnd r)
        (patches r) (patchEnd r)
  | GroupNode =>
      let k := std_remove (groups r) (groupEnd r) cur in
      mkRemoval n.1 n.2 (layers r) (layerEnd r) k.1 k.2
        (entities r) (entityEnd r) (brushes r) (brushEnd r)
        (patches r) (patchEnd r)
  | EntityNode =>
      let k := std_remove (entities r) (entityEnd r) cur in
      mkRemoval n.1 n.2 (layers r) (layerEnd r) (groups r) (groupEnd r)
        k.1 k.2 (brushes r) (brushEnd r) (patches r) (patchEnd r)
  | BrushNode =>
      let k := std_remove (brushes r) (brushEnd r) cur in
      mkRemoval n.1 n.2 (layers r) (layerEnd r) (groups r) (groupEnd r)
        (entities r) (entityEnd r) k.1 k.2 (patches r) (patchEnd r)
  | PatchNode =>
      let k := std_remove (patches r) (patchEnd r) cur in
      mkRemoval n.1 n.2 (layers r) (layerEnd r) (groups r) (groupEnd r)
        (entities r) (entityEnd r) (brushes r) (brushEnd r) k.1 k.2
  end.

(** The loop [while (cur != end) { ...; ++cur; }], with [cur] at index [i]
    of the range and [count] elements before [end]. No vector changes its
    size before the loop ends, so [cur] stays inside the range. *)
Fixpoint removeLoop (range : Range) (count i : nat) (r : Removal) :
  Outcome Removal :=
  match count with
  | O => Done r
  | S count' =>
      match deref range r i with
      | None => Done r
      | Some cur =>
          if (cur =? 0)%N then NullDereference
          else removeLoop range count' (S i) (removeStep cur r)
      end
  end.

(** The six vectors when [doRemoveNodes] is entered, each end at the end
    of its vector. *)
Definition begin (c : NodeCollection) : Removal :=
  mkRemoval (m_nodes c) (length (m_nodes c))
    (m_layers c) (length (m_layers c))
    (m_groups c) (length (m_groups c))
    (m_entities c) (length (m_entities c))
    (m_brushes c) (length (m_brushes c))
    (m_patches c) (length (m_patches c)).

(** [doRemoveNodes]: the ends start at the ends of the vectors, the loop
    moves them, and each vector is erased from its end on. *)
Definition doRemoveNodes (c : NodeCollection) (range : Range) :
  Outcome NodeCollection :=
  match removeLoop range (rangeSize range c) 0 (begin c) with
  | Done r =>
      Done
        (mkNodeCollection
           (erase_from (nodes r) (nodeEnd r))
           (erase_from (layers r) (layerEnd r))
           (erase_from (groups r) (groupEnd r))
           (erase_from (entities r) (entityEnd r))
           (erase_from (brushes r) (brushEnd r))
           (erase_from (patches r) (patchEnd r)))
  | EnsureFailed message => EnsureFailed message
  | NullDereference => NullDereference
  end.

(** [removeNodes(nodes)]: the vector is taken by reference. *)
Definition removeNodes (range : Range) (c : NodeCollection) :
  Outcome NodeCollection :=
  doRemoveNodes c range.

(** [removeNode(node)]: the range is the parameter itself. *)
Definition removeNode (node : NodePtr) (c : NodeCollection) :
  Outcome NodeCollection :=
  if (node =? 0)%N then EnsureFailed "node is null"
  else doRemoveNodes c (Separate [node]).

(** The rounds of the loop for the nodes [values], one after the other. *)
Fixpoint removeEach (values : list NodePtr) (r : Removal) : Outcome Removal :=
  match values with
  | [] => Done r
  | cur :: rest =>
      if (cur =? 0)%N then NullDereference
      else removeEach rest (removeStep cur r)
  end.

(** The nodes that the loop reads, in order, up to a null pointer. *)
Fixpoint nodesRead (range : Range) (count i : nat) (r : Removal) :
  list NodePtr :=
  match count with
  | O => []
  | S count' =>
      match deref range r i with
      | None => []
      | Some cur =>
          cur ::
          (if (cur =? 0)%N then []
           else nodesRead range count' (S i) (removeStep cur r))
      end
  end.

(** The collection holds no null pointer and no world node, and the vector
    of each class is [m_nodes] restricted to that class, in the same
    order. *)
Definition consistent (c : NodeCollection) : Prop :=
  Forall (fun n => n <> 0%N /\ kindOf n <> WorldNode) (m_nodes c) /\
  m_layers c = filter (fun n => kindOf n = LayerNode) (m_nodes c) /\
  m_groups c = filter (fun n => kindOf n = GroupNode) (m_nodes c) /\
  m_entities c = filter (fun n => kindOf n = EntityNode) (m_nodes c) /\
  m_brushes c = filter (fun n => kindOf n = BrushNode) (m_nodes c) /\
  m_patches c = filter (fun n => kindOf n = PatchNode) (m_nodes c).

(** A vector without the nodes of [range] that are of a class in [K]. *)
Definition without (K : NodeKind -> bool) (range : list NodePtr)
  (v : list NodePtr) : list NodePtr :=
  filter (fun y => ~ (y ∈ range /\ K (kindOf y) = true)) v.

(** The collections a caller can get: a default constructed one, and what
    the public operations that return make of such a collection. *)
Inductive built : NodeCollection -> Prop :=
| built_empty : built emptyCollection
| built_addNode node c c' :
    built c -> addNode node c = Done c' -> built c'
| built_addNodes range c c' :
    built c -> addNodes range c = Done c' -> built c'
| built_removeNode node c c' :
    built c -> removeNode node c = Done c' -> built c'
| built_removeNodes range c c' :
    built c -> removeNodes range c = Done c' -> built c'
| built_clear c :
    built c -> built (clear c).
End WithKinds.

(** The query [hasLayers], ..., [hasPatches] of a class vector; for
    [m_nodes] the query is [!empty()]. *)
Definition has (vec : Vector) (c : NodeCollection) : bool :=
  match vec with
  | AllNodes => negb (empty c)
  | Layers => hasLayers c
  | Groups => hasGroups c
  | Entities => hasEntities c
  | Brushes => hasBrushes c
  | Patches => hasPatches c
  end.

(** The query [hasOnlyLayers], ..., [hasOnlyPatches] of a class vector; for
    [m_nodes] the query is [!empty()]. *)
Definition hasOnly (vec : Vector) (c : NodeCollection) : bool :=
  match vec with
  | AllNodes => negb (empty c)
  | Layers => hasOnlyLayers c
  | Groups => hasOnlyGroups c
  | Entities => hasOnlyEntities c
  | Brushes => hasOnlyBrushes c
  | Patches => hasOnlyPatches c
  end.

(** A sample scene: the class of a node is told by its address. *)
Definition sampleKind (n : NodePtr) : NodeKind :=
  match (n mod 6)%N with
  | 1%N => LayerNode
  | 2%N => GroupNode
  | 3%N => EntityNode
  | 4%N => BrushNode
  | 5%N => PatchNode
  | _ => WorldNode
  end.

(** A collection with an entity and two of its brushes. *)
Definition sampleCollection : NodeCollection :=
  mkNodeCollection [9%N; 10%N; 16%N] [] [] [9%N] [10%N; 16%N] [].

(** What [removeNodes] leaves of the sample collection when it is given the
    collection's own vector: the first brush. *)
Definition sampleLeftover : NodeCollection :=
  mkNodeCollection [10%N] [] [] [] [10%N] [].
End Nodes.

(** * [Renderer::RenderBatch] (Renderer/RenderBatch.cpp)

    The batch keeps the renderables it is given in the order they come, and
    owns the one-shot renderables and the wrappers it allocates. *)

Module Batch.

(** A renderable of the caller, by address; [0] is [nullptr]. *)
Definition Address := N.

(** What a pointer to [Renderable] held by the batch points to: an object of the
    caller, or an [IndexedRenderableWrapper] that the batch has allocated
    with [new]. A wrapper is told from the other wrappers by the number of
    wrappers allocated before it, and holds [m_wrappee]. *)
Inductive RenderablePtr :=
| Given (address : Address)
| Wrapper (serial : nat) (m_wrappee : Address).

#[global] Instance RenderablePtr_eq_dec : EqDecision RenderablePtr.
Proof. solve_decision. Defined.

Record RenderBatch := mkRenderBatch {
  m_batch : list RenderablePtr;
  m_directRenderables : list Address;
  m_indexedRenderables : list RenderablePtr;
  m_oneshots : list Address
}.

(** [RenderBatch(renderContext)]: every vector starts empty. *)
Definition emptyBatch : RenderBatch := mkRenderBatch [] [] [] [].

(** The calls the batch makes on the renderables. [Renderable::render]
    (Renderer/Renderable.h) is taken to call the [doRender] of the object
    it is called on. *)
Inductive Call :=
| prepareVertices (renderable : Address)
| prepareVerticesAndIndices (renderable : Address)
| Renderable_render (renderable : Address).

Definition andThen {A B} (m : Outcome A) (k : A -> Outcome B) : Outcome B :=
  match m with
  | Done a => k a
  | EnsureFailed message => EnsureFailed message
  | NullDereference => NullDereference
  end.

Definition isNull (p : RenderablePtr) : bool :=
  match p with
  | Given address => (address =? 0)%N
  | Wrapper _ _ => false
  end.

(** [new IndexedRenderableWrapper(m_renderContext, wrappee)]: the
    constructor ensures that the wrappee is not null. No wrapper is freed
    before the destructor of the batch, and every wrapper is put into
    [m_indexedRenderables], whose size therefore numbers the new one. *)
Definition newWrapper (wrappee : Address) (b : RenderBatch) :
  Outcome RenderablePtr :=
  if (wrappee =? 0)%N then EnsureFailed "wrappee is null"
  else Done (Wrapper (length (m_indexedRenderables b)) wrappee).

(** [doAdd(renderable)]. *)
Definition doAdd (renderable : RenderablePtr) (b : RenderBatch) :
  Outcome RenderBatch :=
  if isNull renderable then EnsureFailed "renderable is null"
  else
    Done (mkRenderBatch (m_batch b ++ [renderable]) (m_directRenderables b)
            (m_indexedRenderables b) (m_oneshots b)).

Definition push_direct (renderable : Address) (b : RenderBatch) : RenderBatch :=
  mkRenderBatch (m_batch b) (m_directRenderables b ++ [renderable])
    (m_indexedRenderables b) (m_oneshots b).

Definition push_indexed (wrapper : RenderablePtr) (b : RenderBatch) :
  RenderBatch :=
  mkRenderBatch (m_batch b) (m_directRenderables b)
    (m_indexedRenderables b ++ [wrapper]) (m_oneshots b).

Definition push_oneshot (renderable : Address) (b : RenderBatch) : RenderBatch :=
  mkRenderBatch (m_batch b) (m_directRenderables b) (m_indexedRenderables b)
    (m_oneshots b ++ [renderable]).

(** [add] of a pointer to [Renderable]. *)
Definition add_Renderable (renderable : Address) (b : RenderBatch) :
  Outcome RenderBatch :=
  doAdd (Given renderable) b.

(** [add] of a pointer to [DirectRenderable]. *)
Definition add_DirectRenderable (renderable : Address) (b : RenderBatch) :
  Outcome RenderBatch :=
  andThen (doAdd (Given renderable) b) (fun b1 =>
  Done (push_direct renderable b1)).

(** [add] of a pointer to [IndexedRenderable]: the batch gets a wrapper. *)
Definition add_IndexedRenderable (renderable : Address) (b : RenderBatch) :
  Outcome RenderBatch :=
  andThen (newWrapper renderable b) (fun wrapper =>
  andThen (doAdd wrapper b) (fun b1 =>
  Done (push_indexed wrapper b1))).

(** [addOneShot] of a pointer to [Renderable]. *)
Definition addOneShot_Renderable (renderable : Address) (b : RenderBatch) :
  Outcome RenderBatch :=
  andThen (doAdd (Given renderable) b) (fun b1 =>
  Done (push_oneshot renderable b1)).

(** [addOneShot] of a pointer to [DirectRenderable]. *)
Definition addOneShot_DirectRenderable (renderable : Address)
  (b : RenderBatch) : Outcome RenderBatch :=
  andThen (doAdd (Given renderable) b) (fun b1 =>
  Done (push_oneshot renderable (push_direct renderable b1))).

(** [addOneShot] of a pointer to [IndexedRenderable]: the wrapper goes into the batch, the
    wrappee into the one-shots. *)
Definition addOneShot_IndexedRenderable (renderable : Address)
  (b : RenderBatch) : Outcome RenderBatch :=
  andThen (newWrapper renderable b) (fun wrapper =>
  andThen (doAdd wrapper b) (fun b1 =>
  Done (push_oneshot renderable (push_indexed wrapper b1)))).

(** [p->prepareVerticesAndIndices(m_renderContext)] on an element of
    [m_indexedRenderables]: a wrapper hands the call to its wrappee. *)
Definition call_prepareVerticesAndIndices (p : RenderablePtr) : list Call :=
  match p with
  | Given address => [prepareVerticesAndIndices address]
  | Wrapper _ m_wrappee => [prepareVerticesAndIndices m_wrappee]
  end.

(** [p->render(renderState)] on an element of [m_batch]: the [doRender] of
    a wrapper is [m_wrappee->render(renderState)]. *)
Definition call_render (p : RenderablePtr) : list Call :=
  match p with
  | Given address => [Renderable_render address]
  | Wrapper _ m_wrappee => [Renderable_render m_wrappee]
  end.

(** [prepareRenderables()]. *)
Definition prepareRenderables (b : RenderBatch) : list Call :=
  map prepareVertices (m_directRenderables b)
  ++ flat_map call_prepareVerticesAndIndices (m_indexedRenderables b).

(** [renderRenderables(renderState)]. *)
Definition renderRenderables (b : RenderBatch) : list Call :=
  flat_map call_render (m_batch b).

(** [render(renderState)]: the calls it makes, in order. *)
Definition render (b : RenderBatch) : list Call :=
  prepareRenderables b ++ renderRenderables b.

(** How the destructor ends: every object was deleted once, or an object
    that had been deleted already is deleted again, which the language
    leaves undefined; the deletes after that one are not followed. *)
Inductive Destruction :=
| Destroyed (deleted : list RenderablePtr)
| DoubleDelete (deleted : list RenderablePtr) (again : RenderablePtr).

(** [kdl::vec_clear_and_delete(v)] (kdl/vector_utils.h): every element of
    the vector is deleted, in order, and the vector is cleared; [deleted]
    are the objects deleted before. *)
Fixpoint vec_clear_and_delete (v : list RenderablePtr)
  (deleted : list RenderablePtr) : Destruction :=
  match v with
  | [] => Destroyed deleted
  | p :: rest =>
      if bool_decide (p ∈ deleted) then DoubleDelete deleted p
      else vec_clear_and_delete rest (deleted ++ [p])
  end.

(** [~RenderBatch()]: the one-shot renderables, then the wrappers. *)
Definition destroy (b : RenderBatch) : Destruction :=
  match vec_clear_and_delete (map Given (m_oneshots b)) [] with
  | Destroyed deleted => vec_clear_and_delete (m_indexedRenderables b) deleted
  | DoubleDelete deleted again => DoubleDelete deleted again
  end.

(** The six ways to hand a renderable to the batch: the static type of the
    argument picks the overload. *)
Inductive StaticType := AsRenderable | AsDirectRenderable | AsIndexedRenderable.

#[global] Instance StaticType_eq_dec : EqDecision StaticType.
Proof. solve_decision. Defined.

Record Request := mkRequest {
  oneShot : bool;
  staticType : StaticType;
  target : Address
}.

Definition request (q : Request) (b : RenderBatch) : Outcome RenderBatch :=
  match oneShot q, staticType q with
  | false, AsRenderable => add_Renderable (target q) b
  | false, AsDirectRenderable => add_DirectRenderable (target q) b
  | false, AsIndexedRenderable => add_IndexedRenderable (target q) b
  | true, AsRenderable => addOneShot_Renderable (target q) b
  | true, AsDirectRenderable => addOneShot_DirectRenderable (target q) b
  | true, AsIndexedRenderable => addOneShot_IndexedRenderable (target q) b
  end.

(** A sequence of [add] and [addOneShot] calls. *)
Fixpoint requests (qs : list Request) (b : RenderBatch) : Outcome RenderBatch :=
  match qs with
  | [] => Done b
  | q :: rest => andThen (request q b) (requests rest)
  end.

(** The renderables a sequence of calls hands over with a given static
    type, in the order of the calls. *)
Definition targetsOf (ty : StaticType) (qs : list Request) : list Address :=
  map target (filter (fun q => staticType q = ty) qs).

(** The renderables handed over with [addOneShot]. *)
Definition oneShotsOf (qs : list Request) : list Address :=
  map target (filter (fun q => oneShot q = true) qs).

(** The wrappers with the serial numbers [serial], [serial + 1], ... *)
Fixpoint wrappersFrom (serial : nat) (wrappees : list Address) :
  list RenderablePtr :=
  match wrappees with
  | [] => []
  | w :: rest => Wrapper serial w :: wrappersFrom (S serial) rest
  end.

(** The entries of [m_batch] that a sequence of calls makes, [serial]
    wrappers having been allocated before: a wrapper for a renderable handed
    over as [IndexedRenderable], the renderable itself otherwise. *)
Fixpoint entriesFrom (serial : nat) (qs : list Request) : list RenderablePtr :=
  match qs with
  | [] => []
  | q :: rest =>
      match staticType q with
      | AsIndexedRenderable =>
          Wrapper serial (target q) :: entriesFrom (S serial) rest
      | _ => Given (target q) :: entriesFrom serial rest
      end
  end.

Definition isWrapper (p : RenderablePtr) : bool :=
  match p with
  | Given _ => false
  | Wrapper _ _ => true
  end.

(** The four vectors of [b'] are those of [b] with what the calls [qs]
    put at their ends. *)
Definition filled (qs : list Request) (b b' : RenderBatch) : Prop :=
  m_batch b' =
    m_batch b ++ entriesFrom (length (m_indexedRenderables b)) qs /\
  m_directRenderables b' =
    m_directRenderables b ++ targetsOf AsDirectRenderable qs /\
  m_indexedRenderables b' =
    m_indexedRenderables b ++
    wrappersFrom (length (m_indexedRenderables b))
      (targetsOf AsIndexedRenderable qs) /\
  m_oneshots b' = m_oneshots b ++ oneShotsOf qs.

(** The message of the [ensure] that a null argument fails. *)
Definition nullMessage (q : Request) : string :=
  match staticType q with
  | AsIndexedRenderable => "wrappee is null"
  | _ => "renderable is null"
  end.

(** A frame that hands the same renderable to [addOneShot] twice. *)
Definition repeatedOneShot : list Request :=
  [mkRequest true AsRenderable 50%N;
   mkRequest true AsDirectRenderable 60%N;
   mkRequest true AsRenderable 60%N;
   mkRequest false AsIndexedRenderable 70%N].

(** A sample frame: a plain renderable, a direct one, an indexed one, and a
    one-shot indexed one. *)
Definition sampleFrame : list Request :=
  [mkRequest false AsRenderable 10%N;
   mkRequest false AsDirectRenderable 20%N;
   mkRequest false AsIndexedRenderable 30%N;
   mkRequest true AsIndexedRenderable 40%N].
End Batch.

(** * [Model::GameFactory] (Model/GameFactory.cpp)

    The registry of game configurations, and the reading and writing of the
    compilation and game engine profiles of a game. The classes the file
    works with ([IO::Path], the file system, the parsers and writers of the
    configurations, the preferences) are not part of the sources at hand;
    they enter as the operations the file calls on them. *)

Module Games.

(** [GameConfig] (Model/GameConfig.h), by the members that GameFactory.cpp
    reads or writes. *)
Record GameConfig (CompilationConfig GameEngineConfig : Type) := mkGameConfig {
  name : string;
  compilationConfig : CompilationConfig;
  gameEngineConfig : GameEngineConfig;
  compilationConfigParseFailed : bool;
  gameEngineConfigParseFailed : bool
}.
Arguments mkGameConfig {CompilationConfig GameEngineConfig}.
Arguments name {CompilationConfig GameEngineConfig}.
Arguments compilationConfig {CompilationConfig GameEngineConfig}.
Arguments gameEngineConfig {CompilationConfig GameEngineConfig}.
Arguments compilationConfigParseFailed {CompilationConfig GameEngineConfig}.
Arguments gameEngineConfigParseFailed {CompilationConfig GameEngineConfig}.

(** [Preference<IO::Path>{path, defaultValue}]. *)
Record Preference (Path : Type) := mkPreference {
  pref_path : Path;
  pref_default : Path
}.
Arguments mkPreference {Path}.
Arguments pref_path {Path}.
Arguments pref_default {Path}.

(** The exceptions that pass through the file: the [GameException] it
    throws itself, and what the file system and the parsers throw, which is
    taken to derive from [Exception]. A [RecoverableException] carries its
    [recover], which works on the files. *)
Inductive Exception (FS : Type) :=
| GameException (message : string)
| FileSystemException (message : string)
| ParserError (message : string)
| RecoverableException (message : string) (recover : FS -> FS).
Arguments GameException {FS}.
Arguments FileSystemException {FS}.
Arguments ParserError {FS}.
Arguments RecoverableException {FS}.

(** [e.what()]. *)
Definition what {FS} (e : Exception FS) : string :=
  match e with
  | GameException message => message
  | FileSystemException message => message
  | ParserError message => message
  | RecoverableException message _ => message
  end.

(** Where a line of output goes. *)
Inductive Channel := LoggerDebug | LoggerWarn | StdOut | StdErr.

(** The lines the file writes, by what they say. *)
Inductive Message (Path : Type) :=
| SkippingUnchangedCompilationConfig (game : string)
| BackedUpCompilationConfig (profiles backup : Path)
| WroteCompilationConfig (profiles : Path)
| CouldNotLoadCompilationConfig (profiles : Path) (reason : string)
| SkippingUnchangedGameEngineConfig (game : string)
| BackedUpGameEngineConfig (profiles backup : Path)
| WroteGameEngineConfig (profiles : Path)
| CouldNotLoadGameEngineConfig (profiles : Path) (reason : string).
Arguments SkippingUnchangedCompilationConfig {Path}.
Arguments BackedUpCompilationConfig {Path}.
Arguments WroteCompilationConfig {Path}.
Arguments CouldNotLoadCompilationConfig {Path}.
Arguments SkippingUnchangedGameEngineConfig {Path}.
Arguments BackedUpGameEngineConfig {Path}.
Arguments WroteGameEngineConfig {Path}.
Arguments CouldNotLoadGameEngineConfig {Path}.

(** [m.emplace(key, value)] on a [std::map]: a key that is there keeps its
    value. *)
Definition emplace {V} (key : string) (value : V) (m : gmap string V) :
  gmap string V :=
  match m !! key with
  | Some _ => m
  | None => <[key := value]> m
  end.

(** [kdl::col_sort(names, kdl::cs::string_less())]: the names in ascending
    order, compared character by character. *)
Fixpoint sortedInsert (a : string) (sorted : list string) : list string :=
  match sorted with
  | [] => [a]
  | b :: rest =>
      if String.leb a b then a :: sorted else b :: sortedInsert a rest
  end.

Definition col_sort (names : list string) : list string :=
  foldr sortedInsert [] names.

Section GameFactory.
Context {Path FS CompilationConfig GameEngineConfig : Type}.

Local Abbreviation Config := (GameConfig CompilationConfig GameEngineConfig).
Local Abbreviation Line := (Channel * Message Path)%type.
Local Abbreviation Thrown := (Exception FS).

(** [IO::Path]: [IO::Path{s}], [operator+], [addExtension] and
    [operator==]. *)
Variable toPath : string -> Path.
Variable pathAdd : Path -> Path -> Path.
Variable addExtension : Path -> string -> Path.
Variable path_eqb : Path -> Path -> bool.
Variable asString : Path -> string.

(** [IO::WritableDiskFileSystem], the class of [m_configFS]. An operation
    that changes the files returns them with the exception, if any. *)
Variable fileExists : FS -> Path -> bool.
Variable openFile : FS -> Path -> Thrown + string.
Variable makeAbsolute : FS -> Path -> Path.
Variable findItemsRecursively : FS -> Path -> string -> list Path.
Variable copyFile : FS -> Path -> Path -> bool -> option Thrown * FS.
Variable createFileAtomic : FS -> Path -> string -> option Thrown * FS.

(** The parsers: [IO::GameConfigParser{text, path}.parse()] and the like. *)
Variable parseGameConfig : string -> Path -> Thrown + Config.
Variable parseCompilationConfig : string -> Path -> Thrown + CompilationConfig.
Variable parseGameEngineConfig : string -> Path -> Thrown + GameEngineConfig.

(** The writers: what [writeConfig()] puts into the stream. *)
Variable writeCompilation : CompilationConfig -> string.
Variable writeGameEngine : GameEngineConfig -> string.

(** [operator==] of the two configurations. *)
Variable compilationConfig_eqb : CompilationConfig -> CompilationConfig -> bool.
Variable gameEngineConfig_eqb : GameEngineConfig -> GameEngineConfig -> bool.

(** [PreferenceManager::instance().get(pref)]. *)
Variable preferenceGet : Preference Path -> Path.

(** The members of the factory. *)
Record GameFactory := mkGameFactory {
  m_configFS : FS;
  m_names : list string;
  m_configs : gmap string Config;
  m_gamePaths : gmap string (Preference Path);
  m_defaultEngines : gmap string (Preference Path)
}.

(** [gameList()]. *)
Definition gameList (f : GameFactory) : list string := m_names f.

(** [gameCount()]. *)
Definition gameCount (f : GameFactory) : nat := size (m_configs f).

(** [gameConfig(name)]. *)
Definition gameConfig (f : GameFactory) (gameName : string) : Thrown + Config :=
  match m_configs f !! gameName with
  | None => inl (GameException ("Unknown game: " +:+ gameName))
  | Some config => inr config
  end.

(** [gamePath(gameName)]. *)
Definition gamePath (f : GameFactory) (gameName : string) : Thrown + Path :=
  match m_gamePaths f !! gameName with
  | None => inl (GameException ("Unknown game: " +:+ gameName))
  | Some pref => inr (preferenceGet pref)
  end.

(** [isGamePathPreference(gameName, prefPath)]. *)
Definition isGamePathPreference (f : GameFactory) (gameName : string)
  (prefPath : Path) : Thrown + bool :=
  match m_gamePaths f !! gameName with
  | None => inl (GameException ("Unknown game: " +:+ gameName))
  | Some pref => inr (path_eqb (pref_path pref) prefPath)
  end.

(** The path of the compilation profiles of a game. *)
Definition compilationProfiles (gameName : string) : Path :=
  pathAdd (toPath gameName) (toPath "CompilationProfiles.cfg").

(** The path of the game engine profiles of a game. *)
Definition gameEngineProfiles (gameName : string) : Path :=
  pathAdd (toPath gameName) (toPath "GameEngineProfiles.cfg").

(** [loadCompilationConfig(gameConfig)]: the configuration as the call
    leaves it, and what it writes to [std::cerr]. *)
Definition loadCompilationConfig (fs : FS) (gameConfig : Config) :
  Config * list Line :=
  let path := compilationProfiles (name gameConfig) in
  let caught (e : Thrown) :=
    (mkGameConfig (name gameConfig) (compilationConfig gameConfig)
       (gameEngineConfig gameConfig) true
       (gameEngineConfigParseFailed gameConfig),
     [(StdErr, CouldNotLoadCompilationConfig path (what e))]) in
  if fileExists fs path then
    match openFile fs path with
    | inl e => caught e
    | inr text =>
        match parseCompilationConfig text (makeAbsolute fs path) with
        | inl e => caught e
        | inr parsed =>
            (mkGameConfig (name gameConfig) parsed
               (gameEngineConfig gameConfig) false
               (gameEngineConfigParseFailed gameConfig), [])
        end
    end
  else (gameConfig, []).

(** [loadGameEngineConfig(gameConfig)]. *)
Definition loadGameEngineConfig (fs : FS) (gameConfig : Config) :
  Config * list Line :=
  let path := gameEngineProfiles (name gameConfig) in
  let caught (e : Thrown) :=
    (mkGameConfig (name gameConfig) (compilationConfig gameConfig)
       (gameEngineConfig gameConfig)
       (compilationConfigParseFailed gameConfig) true,
     [(StdErr, CouldNotLoadGameEngineConfig path (what e))]) in
  if fileExists fs path then
    match openFile fs path with
    | inl e => caught e
    | inr text =>
        match parseGameEngineConfig text (makeAbsolute fs path) with
        | inl e => caught e
        | inr parsed =>
            (mkGameConfig (name gameConfig) (compilationConfig gameConfig)
               parsed (compilationConfigParseFailed gameConfig) false, [])
        end
    end
  else (gameConfig, []).

(** [doLoadGameConfig(path)]: the exception the call lets through, if any,
    the factory as the call leaves it, and what it wrote to [std::cerr]. *)
Definition doLoadGameConfig (f : GameFactory) (path : Path) :
  option Thrown * GameFactory * list Line :=
  match openFile (m_configFS f) path with
  | inl e => (Some e, f, [])
  | inr text =>
      let absolutePath := makeAbsolute (m_configFS f) path in
      match parseGameConfig text absolutePath with
      | inl e => (Some e, f, [])
      | inr config =>
          let '(config1, lines1) := loadCompilationConfig (m_configFS f) config in
          let '(config2, lines2) := loadGameEngineConfig (m_configFS f) config1 in
          let configName := name config2 in
          let gamePathPrefPath :=
            pathAdd (pathAdd (toPath "Games") (toPath configName))
              (toPath "Path") in
          let defaultEnginePrefPath :=
            pathAdd (pathAdd (toPath "Games") (toPath configName))
              (toPath "Default Engine") in
          (None,
           mkGameFactory (m_configFS f)
             (m_names f ++ [configName])
             (emplace configName config2 (m_configs f))
             (emplace configName
                (mkPreference gamePathPrefPath (toPath ""))
                (m_gamePaths f))
             (emplace configName
                (mkPreference defaultEnginePrefPath (toPath ""))
                (m_defaultEngines f)),
           lines1 ++ lines2)
      end
  end.

(** [loadGameConfig(path)]: a recoverable failure is recovered from, and
    the file is tried once more. *)
Definition loadGameConfig (f : GameFactory) (path : Path) :
  option Thrown * GameFactory * list Line :=
  match doLoadGameConfig f path with
  | (Some (RecoverableException _ recover), f1, lines1) =>
      let '(e, f2, lines2) :=
        doLoadGameConfig
          (mkGameFactory (recover (m_configFS f1)) (m_names f1) (m_configs f1)
             (m_gamePaths f1) (m_defaultEngines f1))
          path in
      (e, f2, lines1 ++ lines2)
  | other => other
  end.

(** The loop of [loadGameConfigs()] over the configuration files found,
    with the errors collected and the lines written so far. *)
Fixpoint loadEach (configFiles : list Path) (f : GameFactory)
  (errors : list string) (lines : list Line) :
  GameFactory * list string * list Line :=
  match configFiles with
  | [] => (f, errors, lines)
  | configFilePath :: rest =>
      match loadGameConfig f configFilePath with
      | (None, f', lines') => loadEach rest f' errors (lines ++ lines')
      | (Some e, f', lines') =>
          loadEach rest f'
            (errors ++
             ["Could not load game configuration file " +:+
              asString configFilePath +:+ ": " +:+ what e])
            (lines ++ lines')
      end
  end.

(** [loadGameConfigs()]: the errors are thrown when there are any; an empty
    list of errors stands for a return. *)
Definition loadGameConfigs (f : GameFactory) :
  list string * GameFactory * list Line :=
  let configFiles :=
    findItemsRecursively (m_configFS f) (toPath "") "GameConfig.cfg" in
  let '(f1, errors, lines) := loadEach configFiles f [] [] in
  (errors,
   mkGameFactory (m_configFS f1) (col_sort (m_names f1)) (m_configs f1)
     (m_gamePaths f1) (m_defaultEngines f1),
   lines).

(** [backupFile(fs, path)]. *)
Definition backupFile (fs : FS) (path : Path) : option Thrown * FS * Path :=
  let backupPath := addExtension path "bak" in
  let '(e, fs') := copyFile fs path backupPath true in
  (e, fs', backupPath).

(** [writeCompilationConfig(gameConfig, compilationConfig, logger)]: the
    exception the call lets through, if any, the game configuration and
    the files as the call leaves them, and the lines it logs. *)
Definition writeCompilationConfig (gameConfig : Config)
  (newConfig : CompilationConfig) (fs : FS) :
  option Thrown * Config * FS * list Line :=
  if negb (compilationConfigParseFailed gameConfig)
     && compilationConfig_eqb (compilationConfig gameConfig) newConfig
  then
    (None, gameConfig, fs,
     [(LoggerDebug, SkippingUnchangedCompilationConfig (name gameConfig))])
  else
    let text := writeCompilation newConfig in
    let profilesPath := compilationProfiles (name gameConfig) in
    let write (gameConfig1 : Config) (fs1 : FS) (lines1 : list Line) :=
      match createFileAtomic fs1 profilesPath text with
      | (Some e, fs2) => (Some e, gameConfig1, fs2, lines1)
      | (None, fs2) =>
          (None,
           mkGameConfig (name gameConfig1) newConfig
             (gameEngineConfig gameConfig1)
             (compilationConfigParseFailed gameConfig1)
             (gameEngineConfigParseFailed gameConfig1),
           fs2,
           lines1 ++
           [(LoggerDebug,
             WroteCompilationConfig (makeAbsolute fs2 profilesPath))])
      end in
    if compilationConfigParseFailed gameConfig then
      match backupFile fs profilesPath with
      | (Some e, fs1, _) => (Some e, gameConfig, fs1, [])
      | (None, fs1, backupPath) =>
          write
            (mkGameConfig (name gameConfig) (compilationConfig gameConfig)
               (gameEngineConfig gameConfig) false
               (gameEngineConfigParseFailed gameConfig))
            fs1
            [(LoggerWarn,
              BackedUpCompilationConfig (makeAbsolute fs1 profilesPath)
                (makeAbsolute fs1 backupPath))]
      end
    else write gameConfig fs [].

(** [writeGameEngineConfig(gameConfig, gameEngineConfig)]; its lines go to
    [std::cout] and [std::cerr]. *)
Definition writeGameEngineConfig (gameConfig : Config)
  (newConfig : GameEngineConfig) (fs : FS) :
  option Thrown * Config * FS * list Line :=
  if negb (gameEngineConfigParseFailed gameConfig)
     && gameEngineConfig_eqb (gameEngineConfig gameConfig) newConfig
  then
    (None, gameConfig, fs,
     [(StdOut, SkippingUnchangedGameEngineConfig (name gameConfig))])
  else
    let text := writeGameEngine newConfig in
    let profilesPath := gameEngineProfiles (name gameConfig) in
    let write (gameConfig1 : Config) (fs1 : FS) (lines1 : list Line) :=
      match createFileAtomic fs1 profilesPath text with
      | (Some e, fs2) => (Some e, gameConfig1, fs2, lines1)
      | (None, fs2) =>
          (None,
           mkGameConfig (name gameConfig1) (compilationConfig gameConfig1)
             newConfig
             (compilationConfigParseFailed gameConfig1)
             (gameEngineConfigParseFailed gameConfig1),
           fs2,
           lines1 ++
           [(StdOut, WroteGameEngineConfig (makeAbsolute fs2 profilesPath))])
      end in
    if gameEngineConfigParseFailed gameConfig then
      match backupFile fs profilesPath with
      | (Some e, fs1, _) => (Some e, gameConfig, fs1, [])
      | (None, fs1, backupPath) =>
          write
            (mkGameConfig (name gameConfig) (compilationConfig gameConfig)
               (gameEngineConfig gameConfig)
               (compilationConfigParseFailed gameConfig) false)
            fs1
            [(StdErr,
              BackedUpGameEngineConfig (makeAbsolute fs1 profilesPath)
                (makeAbsolute fs1 backupPath))]
      end
    else write gameConfig fs [].

(** [saveCompilationConfig(gameName, compilationConfig, logger)]: the
    configuration is written through the reference into [m_configs]. *)
Definition saveCompilationConfig (f : GameFactory) (gameName : string)
  (newConfig : CompilationConfig) :
  option Thrown * GameFactory * list Line :=
  match gameConfig f gameName with
  | inl e => (Some e, f, [])
  | inr config =>
      let '(e, config', fs', lines) :=
        writeCompilationConfig config newConfig (m_configFS f) in
      (e,
       mkGameFactory fs' (m_names f) (<[gameName := config']> (m_configs f))
         (m_gamePaths f) (m_defaultEngines f),
       lines)
  end.

(** [saveGameEngineConfig(gameName, gameEngineConfig)]. *)
Definition saveGameEngineConfig (f : GameFactory) (gameName : string)
  (newConfig : GameEngineConfig) :
  option Thrown * GameFactory * list Line :=
  match gameConfig f gameName with
  | inl e => (Some e, f, [])
  | inr config =>
      let '(e, config', fs', lines) :=
        writeGameEngineConfig config newConfig (m_configFS f) in
      (e,
       mkGameFactory fs' (m_names f) (<[gameName := config']> (m_configs f))
         (m_gamePaths f) (m_defaultEngines f),
       lines)
  end.

(** The factory after its constructor, with the files it is to work on. *)
Definition newFactory (fs : FS) : GameFactory :=
  mkGameFactory fs [] ∅ ∅ ∅.

(** The factories a caller can meet: a new one, and what [loadGameConfig],
    [loadGameConfigs] and the two [save] operations make of such a one,
    whether they return or throw. *)
Inductive reachable : GameFactory -> Prop :=
| reachable_new fs : reachable (newFactory fs)
| reachable_load f path :
    reachable f -> reachable (loadGameConfig f path).1.2
| reachable_loadAll f :
    reachable f -> reachable (loadGameConfigs f).1.2
| reachable_saveCompilation f gameName newConfig :
    reachable f -> reachable (saveCompilationConfig f gameName newConfig).1.2
| reachable_saveGameEngine f gameName newConfig :
    reachable f -> reachable (saveGameEngineConfig f gameName newConfig).1.2.

(** The preferences that [doLoadGameConfig] makes for a game. *)
Definition gamePathPreference (gameName : string) : Preference Path :=
  mkPreference
    (pathAdd (pathAdd (toPath "Games") (toPath gameName)) (toPath "Path"))
    (toPath "").

Definition defaultEnginePreference (gameName : string) : Preference Path :=
  mkPreference
    (pathAdd (pathAdd (toPath "Games") (toPath gameName))
       (toPath "Default Engine"))
    (toPath "").

(** What [doLoadGameConfig] reads from a configuration file before it
    touches the registry: the parsed game configuration, or the exception of
    the file system or of the parser. *)
Definition readGameConfig (fs : FS) (path : Path) : Thrown + Config :=
  match openFile fs path with
  | inl e => inl e
  | inr text => parseGameConfig text (makeAbsolute fs path)
  end.

(** The names of the configuration files among [configFiles] that can be
    read, as the configuration is named once its profiles are loaded. *)
Definition configNames (fs : FS) (configFiles : list Path) : list string :=
  omap (fun path =>
          match readGameConfig fs path with
          | inl _ => None
          | inr config => Some (name config)
          end) configFiles.

(** The errors for the configuration files among [configFiles] that
    cannot be read. *)
Definition configErrors (fs : FS) (configFiles : list Path) : list string :=
  omap (fun path =>
          match readGameConfig fs path with
          | inl e =>
              Some ("Could not load game configuration file " +:+
                    asString path +:+ ": " +:+ what e)
          | inr _ => None
          end) configFiles.

(** The registry is coherent: the games listed are the games that have a
    configuration, a game path and a default engine, each configuration is
    kept under its own name, the preferences of a game are the ones made
    for its name, and no more configurations are kept than names are
    listed. *)
Definition coherent (f : GameFactory) : Prop :=
  (forall n, n ∈ m_names f <-> is_Some (m_configs f !! n)) /\
  (forall n, is_Some (m_gamePaths f !! n) <-> is_Some (m_configs f !! n)) /\
  (forall n, is_Some (m_defaultEngines f !! n) <-> is_Some (m_configs f !! n)) /\
  (forall n c, m_configs f !! n = Some c -> name c = n) /\
  (forall n pref,
     m_gamePaths f !! n = Some pref ->
     pref = gamePathPreference n) /\
  (forall n pref,
     m_defaultEngines f !! n = Some pref ->
     pref = defaultEnginePreference n) /\
  (size (m_configs f) <= length (m_names f))%nat.
End GameFactory.

(** A list of names in ascending order. *)
Fixpoint ascending (names : list string) : bool :=
  match names with
  | [] => true
  | a :: rest =>
      match rest with
      | [] => true
      | b :: _ => String.leb a b && ascending rest
      end
  end.

(** ** [initializeFileSystem] *)

(** The file system objects that [initializeFileSystem] chains together,
    held by [std::unique_ptr]: [IO::DiskFileSystem{next, root,
    ensureExists}] and [IO::WritableDiskFileSystem{next, root, create}]. The
    constructors without [next] make a file system with nothing below it. *)
Inductive FileSystemChain (Path : Type) :=
| nullFileSystem
| DiskFileSystem (next : FileSystemChain Path) (root : Path)
    (ensureExists : bool)
| WritableDiskFileSystem (next : FileSystemChain Path) (root : Path)
    (create : bool).
Arguments nullFileSystem {Path}.
Arguments DiskFileSystem {Path}.
Arguments WritableDiskFileSystem {Path}.

(** [GamePathConfig]. *)
Record GamePathConfig (Path : Type) := mkGamePathConfig {
  gameConfigSearchDirs : list Path;
  userGameDir : Path
}.
Arguments mkGamePathConfig {Path}.
Arguments gameConfigSearchDirs {Path}.
Arguments userGameDir {Path}.

(** The loop of [initializeFileSystem] over the search directories, from
    the last to the first. *)
Fixpoint chainDirs {Path} (reversed : list Path) (chain : FileSystemChain Path) :
  FileSystemChain Path :=
  match reversed with
  | [] => chain
  | path :: rest =>
      chainDirs rest
        (match chain with
         | nullFileSystem => DiskFileSystem nullFileSystem path false
         | _ => DiskFileSystem chain path false
         end)
  end.

(** [initializeFileSystem(gamePathConfig)]: the new [m_configFS] and
    [m_userGameDir]. *)
Definition initializeFileSystem {Path} (gamePathConfig : GamePathConfig Path) :
  FileSystemChain Path * Path :=
  let chain :=
    chainDirs (rev (gameConfigSearchDirs gamePathConfig)) nullFileSystem in
  (match chain with
   | nullFileSystem =>
       WritableDiskFileSystem nullFileSystem (userGameDir gamePathConfig) true
   | _ => WritableDiskFileSystem chain (userGameDir gamePathConfig) true
   end,
   userGameDir gamePathConfig).

(** The roots of a chain, from the file system itself down its [next]
    links. *)
Fixpoint roots {Path} (fs : FileSystemChain Path) : list Path :=
  match fs with
  | nullFileSystem => []
  | DiskFileSystem next root _ | WritableDiskFileSystem next root _ =>
      root :: roots next
  end.

(** The file systems of a chain that can be written to, by their roots. *)
Fixpoint writableRoots {Path} (fs : FileSystemChain Path) : list Path :=
  match fs with
  | nullFileSystem => []
  | DiskFileSystem next _ _ => writableRoots next
  | WritableDiskFileSystem next root _ => root :: writableRoots next
  end.

(** ** A sample installation

    Paths are lists of components, the files are kept as a list of paths
    with their text, and a configuration is the text of its file. *)
Module GameSamples.
Definition Path := list string.
Definition FS := list (Path * string).

Definition toPath (s : string) : Path := [s].
Definition pathAdd (p q : Path) : Path := p ++ q.
Definition addExtension (p : Path) (extension : string) : Path :=
  p ++ [extension].
Definition path_eqb (p q : Path) : bool := bool_decide (p = q).
Definition asString (p : Path) : string := String.concat "/" p.

Fixpoint readAt (fs : FS) (p : Path) : option string :=
  match fs with
  | [] => None
  | (q, text) :: rest => if decide (p = q) then Some text else readAt rest p
  end.

Definition fileExists (fs : FS) (p : Path) : bool :=
  bool_decide (is_Some (readAt fs p)).
Definition openFile (fs : FS) (p : Path) : Exception FS + string :=
  match readAt fs p with
  | Some text => inr text
  | None => inl (FileSystemException "File not found")
  end.
Definition makeAbsolute (fs : FS) (p : Path) : Path := "/" :: p.
Definition findItemsRecursively (fs : FS) (dir : Path) (fileName : string) :
  list Path :=
  filter (fun p => last p = Some fileName) (map fst fs).
Definition copyFile (fs : FS) (src dst : Path) (overwrite : bool) :
  option (Exception FS) * FS :=
  match readAt fs src with
  | Some text => (None, (dst, text) :: fs)
  | None => (Some (FileSystemException "File not found"), fs)
  end.
Definition createFileAtomic (fs : FS) (p : Path) (text : string) :
  option (Exception FS) * FS :=
  (None, (p, text) :: fs).

(** A game configuration file holds the name of the game, and a profiles
    file any text but [malformed]. *)
Definition parseGameConfig (text : string) (p : Path) :
  Exception FS + GameConfig string string :=
  if bool_decide (text = "") then inl (ParserError "Expected a name")
  else inr (mkGameConfig text "" "" false false).
Definition parseProfiles (text : string) (p : Path) : Exception FS + string :=
  if bool_decide (text = "malformed") then inl (ParserError "Malformed")
  else inr text.
Definition writeProfiles (config : string) : string := config.
Definition preferenceGet (pref : Preference Path) : Path := pref_default pref.

Definition files : FS :=
  [(["Quake"; "GameConfig.cfg"], "Quake");
   (["Quake"; "CompilationProfiles.cfg"], "malformed");
   (["Broken"; "GameConfig.cfg"], "");
   (["Hexen2"; "GameConfig.cfg"], "Hexen2");
   (["Hexen2"; "CompilationProfiles.cfg"], "qbsp")].

Definition loadGameConfigs (f : GameFactory) :=
  Games.loadGameConfigs toPath pathAdd asString fileExists openFile
    makeAbsolute findItemsRecursively parseGameConfig parseProfiles
    parseProfiles f.

Definition quake : GameConfig string string :=
  mkGameConfig "Quake" "" "" false false.

Definition hexen2 : GameConfig string string :=
  mkGameConfig "Hexen2" "" "" false false.

(** The factory after [loadGameConfigs] on the sample files. *)
Definition installed : GameFactory :=
  (loadGameConfigs (newFactory files)).1.2.
End GameSamples.
End Games.

(** * [Renderer::PointHandleRenderer] (Renderer/PointHandleRenderer.cpp)

    The renderer collects the handles of a frame by color and draws them as
    circles. Colors, positions and matrices are left abstract; what is
    followed is which calls are made on the shader, on the two circles and
    on OpenGL, and in which order. *)

Module Handles.

(** The two circles: [m_handle] and [m_highlight]. *)
Inductive Circle := m_handle | m_highlight.

#[global] Instance Circle_eq_dec : EqDecision Circle.
Proof. solve_decision. Defined.

(** The opacities [doRender] draws with: [1.0f] and [0.33f]. *)
Inductive Opacity := Opaque | Translucent.

Section PointHandleRenderer.
Context {Color Position Matrix : Type}.

(** [operator<] of [Color], by which a [std::map] keeps its entries: two
    colors neither of which is less than the other are the same key. *)
Variable color_ltb : Color -> Color -> bool.
(** [mixAlpha(color, opacity)]. *)
Variable mixAlpha : Color -> Opacity -> Color.
(** The matrix of the translation to the projected position of a handle:
    [vm::translation_matrix(offset)], in which the position is nudged
    towards the camera in a 3D view. *)
Variable translation : bool -> Position -> Matrix.

(** [HandleMap], a [std::map] from [Color] to a vector of positions, as its
    entries in the order of iteration. *)
Definition HandleMap : Type := list (Color * list Position).

(** [map[color].push_back(position)]. *)
Fixpoint pushAt (color : Color) (position : Position) (map : HandleMap) :
  HandleMap :=
  match map with
  | [] => [(color, [position])]
  | (c, positions) :: rest =>
      if color_ltb color c then (color, [position]) :: map
      else if color_ltb c color then (c, positions) :: pushAt color position rest
      else (c, positions ++ [position]) :: rest
  end.

Record PointHandleRenderer := mkPointHandleRenderer {
  m_pointHandles : HandleMap;
  m_highlights : HandleMap
}.

(** The maps of a newly constructed renderer are empty. *)
Definition newRenderer : PointHandleRenderer := mkPointHandleRenderer [] [].

(** [addPoint(color, position)]. *)
Definition addPoint (color : Color) (position : Position)
  (r : PointHandleRenderer) : PointHandleRenderer :=
  mkPointHandleRenderer (pushAt color position (m_pointHandles r))
    (m_highlights r).

(** [addHighlight(color, position)]. *)
Definition addHighlight (color : Color) (position : Position)
  (r : PointHandleRenderer) : PointHandleRenderer :=
  mkPointHandleRenderer (m_pointHandles r)
    (pushAt color position (m_highlights r)).

(** [clear()]. *)
Definition clear (r : PointHandleRenderer) : PointHandleRenderer :=
  mkPointHandleRenderer [] [].

(** The calls the renderer makes, the constructors and destructors of the
    scoped objects among them. *)
Inductive Call :=
| Circle_prepare (circle : Circle)
| ReplaceTransformation_enter
| ReplaceTransformation_leave
| ActiveShader_enter
| ActiveShader_leave
| shader_set_Color (color : Color)
| MultiplyModelMatrix_enter (matrix : Matrix)
| MultiplyModelMatrix_leave
| Circle_render (circle : Circle)
| glDisable_DEPTH_TEST
| glEnable_DEPTH_TEST.

(** [doPrepareVertices(renderContext)]. *)
Definition doPrepareVertices : list Call :=
  [Circle_prepare m_handle; Circle_prepare m_highlight].

(** [renderHandles(renderState, map, circle, opacity)]. *)
Definition renderHandles (render3D : bool) (map : HandleMap) (circle : Circle)
  (opacity : Opacity) : list Call :=
  [ActiveShader_enter]
  ++ flat_map
       (fun entry =>
          shader_set_Color (mixAlpha entry.1 opacity)
          :: flat_map
               (fun position =>
                  [MultiplyModelMatrix_enter (translation render3D position);
                   Circle_render circle;
                   MultiplyModelMatrix_leave])
               entry.2)
       map
  ++ [ActiveShader_leave].

(** [doRender(renderState)]: the calls it makes, and the renderer as it
    leaves it. [render3D] is [renderState.render3D()]. *)
Definition doRender (render3D : bool) (r : PointHandleRenderer) :
  list Call * PointHandleRenderer :=
  ([ReplaceTransformation_enter]
   ++ (if render3D then
         renderHandles render3D (m_pointHandles r) m_handle Opaque
         ++ renderHandles render3D (m_highlights r) m_highlight Opaque
         ++ [glDisable_DEPTH_TEST]
         ++ renderHandles render3D (m_pointHandles r) m_handle Translucent
         ++ renderHandles render3D (m_highlights r) m_highlight Translucent
         ++ [glEnable_DEPTH_TEST]
       else
         [glDisable_DEPTH_TEST]
         ++ renderHandles render3D (m_pointHandles r) m_handle Opaque
         ++ renderHandles render3D (m_highlights r) m_highlight Opaque
         ++ [glEnable_DEPTH_TEST])
   ++ [ReplaceTransformation_leave],
   clear r).

(** A handle to add: a point handle or a highlight, with its color and
    position. *)
Record Handle := mkHandle {
  highlight : bool;
  color : Color;
  position : Position
}.

Definition add (h : Handle) (r : PointHandleRenderer) : PointHandleRenderer :=
  if highlight h then addHighlight (color h) (position h) r
  else addPoint (color h) (position h) r.

(** The handles of a frame, added in order. *)
Definition addAll (hs : list Handle) (r : PointHandleRenderer) :
  PointHandleRenderer :=
  foldl (fun r h => add h r) r hs.

(** The matrices under which a circle is rendered in a sequence of calls:
    those of the [MultiplyModelMatrix] objects made right before a
    [render] of the circle. *)
Fixpoint drawnAt (circle : Circle) (calls : list Call) : list Matrix :=
  match calls with
  | [] => []
  | MultiplyModelMatrix_enter matrix :: rest =>
      match rest with
      | Circle_render c :: _ =>
          if decide (c = circle) then matrix :: drawnAt circle rest
          else drawnAt circle rest
      | _ => drawnAt circle rest
      end
  | _ :: rest => drawnAt circle rest
  end.

(** The calls that switch the depth test among a sequence of calls. *)
Definition isDepthTest (call : Call) : bool :=
  match call with
  | glDisable_DEPTH_TEST | glEnable_DEPTH_TEST => true
  | _ => false
  end.

Definition depthTestCalls (calls : list Call) : list Call :=
  filter (fun call => isDepthTest call = true) calls.

(** The handles among [hs] that are highlights, or that are not. *)
Definition handlesOf (highlights : bool) (hs : list Handle) : list Handle :=
  filter (fun h => highlight h = highlights) hs.
End PointHandleRenderer.
End Handles.

(** * The tokenizer's own failure

    Section 4.1 of the specification lets the tokenizer fail: on an
    unterminated quoted string or a character it does not know,
    [nextToken] throws a [TokenizerError] that carries line and column, and
    section 7 calls that error fatal. For the questions above the tokenizer
    was the list of the tokens it hands out. Here it is that list together
    with the place where scanning fails, if it does, so that
    [parseFloatVector] can be followed on a text that stops being
    tokenizable. *)

Module Scanning.

(** Modelled from the spec: what a member function of the parser can throw
    once the tokenizer (IO/Tokenizer.h is not part of the sources at hand)
    is taken with its failure: one of the construct-local errors, or the
    tokenizer's fatal error with the line and column it carries. *)
Inductive Thrown :=
| ConstructLocal (e : ParserException)
| TokenizerError (line column : nat).

(** Modelled from the spec: the tokenizer over a text. [pending] are the
    tokens it can still hand out; [failure] is the place of the
    unterminated string or unknown character that follows them, if the
    text has one, and [None] if the text ends there. *)
Record Scanner := mkScanner {
  pending : list Token;
  failure : option (nat * nat)
}.

Definition Scan (A : Type) : Type := Scanner -> (Thrown + A) * Scanner.

Definition ret {A} (a : A) : Scan A := fun sc => (inr a, sc).

Definition throw {A} (e : Thrown) : Scan A := fun sc => (inl e, sc).

Definition bind {A B} (m : Scan A) (k : A -> Scan B) : Scan B :=
  fun sc =>
    match m sc with
    | (inr a, sc') => k a sc'
    | (inl e, sc') => (inl e, sc')
    end.

(** Modelled from the spec: [Tokenizer::nextToken]. It returns the next
    token and advances past it; once the tokens are used up it throws at
    the malformed text, or returns the end-of-file token if the text has
    ended. *)
Definition nextToken : Scan Token :=
  fun sc =>
    match pending sc, failure sc with
    | t :: rest, f => (inr t, mkScanner rest f)
    | [], Some (line, column) => (inl (TokenizerError line column), sc)
    | [], None => (inr eofToken, sc)
    end.

(** Modelled from the spec: [Parser::expect], as above. *)
Definition expect (typeMask : TokenType) (token : Token) : Scan Token :=
  if hasType typeMask token then ret token
  else throw (ConstructLocal (UnexpectedTokenError typeMask token)).

Section FloatVector.
Context {T : Type}.
Variable toFloat : Token -> T.
Variable zero : T.

(** The loop of [parseFloatVector], with [n = S - i] iterations left. *)
Fixpoint parseFloatVector_loop (n i : nat) (vec : list T) : Scan (list T) :=
  match n with
  | O => ret vec
  | S n' =>
      bind nextToken (fun t =>
      bind (expect QuakeMapToken.Number t) (fun t' =>
      parseFloatVector_loop n' (S i) (<[i := toFloat t']> vec)))
  end.

(** [template <size_t S, typename T> vm::vec<T, S>
    parseFloatVector(const Type o, const Type c)], statement by statement
    as in the header. *)
Definition parseFloatVector (S : nat) (o c : TokenType) : Scan (list T) :=
  bind nextToken (fun t =>
  bind (expect o t) (fun _ =>
  bind (parseFloatVector_loop S 0 (replicate S zero)) (fun vec =>
  bind nextToken (fun t =>
  bind (expect c t) (fun _ =>
  ret vec))))).
End FloatVector.

(** How a run over the plain token list reads as a run of the scanner
    whose failure is [f]. *)
Definition lift {A} (f : option (nat * nat))
  (run : (ParserException + A) * QuakeMapTokenizer) : (Thrown + A) * Scanner :=
  (match run.1 with
   | inl e => inl (ConstructLocal e)
   | inr a => inr a
   end,
   mkScanner run.2 f).

(** A vector, [( 1 2 ], after which a quoted string is not closed, on
    line 7. *)
Definition sampleUnterminated : Scanner :=
  mkScanner
    [mkToken QuakeMapToken.OParenthesis "(" 7 1;
     mkToken QuakeMapToken.Integer "1" 7 3;
     mkToken QuakeMapToken.Integer "2" 7 5]
    (Some (7%nat, 7%nat)).
End Scanning.

(** * Properties *)

(** ** Token kinds and masks *)

Module TokenKinds.
Import QuakeMapToken.

Lemma kinds_powers :
  kinds = map (fun i : nat => 2 ^ Z.of_nat i) (seq 0 12).
Proof. reflexivity. Qed.

Lemma kinds_NoDup : NoDup kinds.
Proof.
  apply (bool_decide_unpack _). vm_compute. exact I.
Qed.

(** Two kinds overlap only when they are the same kind. *)
Lemma land_kinds (k x : TokenType) :
  In k kinds -> In x kinds -> Z.land k x <> 0 <-> k = x.
Proof.
  unfold kinds; simpl; intros Hk Hx.
  repeat (destruct Hk as [<- | Hk]; [ | ]); try contradiction;
  repeat (destruct Hx as [<- | Hx]; [ | ]); try contradiction;
  vm_compute; split; congruence.
Qed.

Lemma land_mask_cons (k x : TokenType) (ks : list TokenType) :
  Z.land k (mask (x :: ks)) <> 0 <->
  Z.land k x <> 0 \/ Z.land k (mask ks) <> 0.
Proof.
  unfold mask; simpl. rewrite Z.land_lor_distr_r, Z.lor_eq_0_iff.
  destruct (Z.eq_dec (Z.land k x) 0), (Z.eq_dec (Z.land k (foldr Z.lor 0 ks)) 0);
    intuition.
Qed.

Lemma land_mask (k : TokenType) (ks : list TokenType) :
  In k kinds -> Forall (fun x => In x kinds) ks ->
  Z.land k (mask ks) <> 0 <-> In k ks.
Proof.
  intros Hk Hks. induction Hks as [ | x ks Hx _ IH].
  - simpl. rewrite Z.land_0_r. intuition.
  - rewrite land_mask_cons, IH, (land_kinds k x Hk Hx). simpl. intuition.
Qed.
End TokenKinds.

(** C8: every token kind of [QuakeMapToken] is a power of two, the twelve
    kinds are pairwise distinct, so for a kind [k] and a mask that is the
    union of the kinds [ks], the test [(k & mask) != 0] holds exactly when
    [k] is one of [ks]; and [Number] is the union of [Integer] and
    [Decimal]. *)
Theorem token_kinds_mask_test (k : TokenType) (ks : list TokenType) :
  In k QuakeMapToken.kinds ->
  Forall (fun x => In x QuakeMapToken.kinds) ks ->
  (exists i : nat, QuakeMapToken.kinds !! i = Some k /\ k = 2 ^ Z.of_nat i) /\
  NoDup QuakeMapToken.kinds /\
  (Z.land k (QuakeMapToken.mask ks) <> 0 <-> In k ks) /\
  QuakeMapToken.Number =
    QuakeMapToken.mask [QuakeMapToken.Integer; QuakeMapToken.Decimal].
Proof.
  intros Hk Hks. split; [ | split; [ | split]].
  - apply list_elem_of_In, list_elem_of_lookup in Hk as [i Hi].
    exists i. split; [exact Hi | ].
    rewrite TokenKinds.kinds_powers, list_lookup_fmap in Hi.
    destruct (seq 0 12 !! i) as [j | ] eqn:Hj; [ | discriminate].
    apply lookup_seq in Hj as [-> _]. simpl in Hi. congruence.
  - exact TokenKinds.kinds_NoDup.
  - exact (TokenKinds.land_mask k ks Hk Hks).
  - reflexivity.
Qed.

Lemma token_kinds_mask_test_witness :
  Z.land QuakeMapToken.Decimal
    (QuakeMapToken.mask [QuakeMapToken.Integer; QuakeMapToken.Decimal]) <> 0
  <-> In QuakeMapToken.Decimal [QuakeMapToken.Integer; QuakeMapToken.Decimal].
Proof.
  refine (proj1 (proj2 (proj2 (token_kinds_mask_test QuakeMapToken.Decimal
    [QuakeMapToken.Integer; QuakeMapToken.Decimal] _ _)))).
  - simpl; tauto.
  - repeat constructor; simpl; tauto.
Defined.

(** ** The tokenizer cursor *)

Lemma tokenAt_drop (k j : nat) (ts : list Token) :
  tokenAt j (drop k ts) = tokenAt (k + j) ts.
Proof.
  unfold tokenAt. revert ts. induction k as [ | k IH]; intros ts; [reflexivity | ].
  destruct ts as [ | t ts]; simpl.
  - now destruct j.
  - apply IH.
Qed.

Lemma tokenAt_app_l (k : nat) (ts rest : list Token) :
  (k < length ts)%nat -> tokenAt k (ts ++ rest) = tokenAt k ts.
Proof. intros H. unfold tokenAt. now apply app_nth1. Qed.

Lemma hasType_true (m : TokenType) (t : Token) :
  hasType m t = true <-> Z.land (tok_type t) m <> 0.
Proof.
  unfold hasType. rewrite negb_true_iff, Z.eqb_neq. reflexivity.
Qed.

(** For a token of a single kind and a mask that is a single kind, the mask
    test is equality of kinds. *)
Lemma hasType_kind (k : TokenType) (t : Token) :
  In k QuakeMapToken.kinds -> In (tok_type t) QuakeMapToken.kinds ->
  hasType k t = true <-> tok_type t = k.
Proof.
  intros Hk Ht. rewrite hasType_true. now apply TokenKinds.land_kinds.
Qed.

Lemma hasType_Number (t : Token) :
  In (tok_type t) QuakeMapToken.kinds ->
  hasType QuakeMapToken.Number t = true <->
  tok_type t = QuakeMapToken.Integer \/ tok_type t = QuakeMapToken.Decimal.
Proof.
  intros Ht. rewrite hasType_true.
  change QuakeMapToken.Number
    with (QuakeMapToken.mask [QuakeMapToken.Integer; QuakeMapToken.Decimal]).
  rewrite TokenKinds.land_mask; [simpl; intuition | exact Ht | ].
  repeat constructor; simpl; tauto.
Qed.

Lemma tokenAt_kind (k : nat) (ts : list Token) :
  Forall (fun t => In (tok_type t) QuakeMapToken.kinds) ts ->
  In (tok_type (tokenAt k ts)) QuakeMapToken.kinds.
Proof.
  intros H. unfold tokenAt. destruct (nth_in_or_default k ts eofToken) as [Hin | ->].
  - rewrite Forall_forall in H. apply H, list_elem_of_In, Hin.
  - simpl; tauto.
Qed.

(** A bounded search: either every index below [n] passes the test, or there
    is a first one that does not. *)
Lemma first_failure (p : nat -> bool) (n : nat) :
  (forall j, (j < n)%nat -> p j = true) \/
  (exists k, (k < n)%nat /\ p k = false /\ forall j, (j < k)%nat -> p j = true).
Proof.
  induction n as [ | n [IH | (k & Hk & Hpk & Hlt)]].
  - left. intros j Hj. lia.
  - destruct (p n) eqn:Hn.
    + left. intros j Hj. destruct (decide (j = n)) as [-> | ]; [exact Hn | apply IH; lia].
    + right. exists n. split; [lia | ]. split; [exact Hn | exact IH].
  - right. exists k. split; [lia | ]. split; assumption.
Qed.

(** ** [parseFloatVector] *)

Lemma expectedAt_open (S : nat) (o c : TokenType) : expectedAt S o c 0 = o.
Proof. reflexivity. Qed.

Lemma expectedAt_number (S : nat) (o c : TokenType) (k : nat) :
  (1 <= k <= S)%nat -> expectedAt S o c k = QuakeMapToken.Number.
Proof.
  intros Hk. unfold expectedAt.
  destruct (Nat.eqb_spec k 0); [lia | ].
  destruct (Nat.leb_spec k S); [reflexivity | lia].
Qed.

Lemma expectedAt_close (S : nat) (o c : TokenType) :
  expectedAt S o c (S + 1) = c.
Proof.
  unfold expectedAt.
  destruct (Nat.eqb_spec (S + 1) 0); [lia | ].
  destruct (Nat.leb_spec (S + 1) S); [lia | reflexivity].
Qed.

Section FloatVectorFacts.
Context {T : Type}.
Variable toFloat : Token -> T.
Variable zero : T.

Local Abbreviation loop := (parseFloatVector_loop toFloat).
Local Abbreviation parseFloatVector := (parseFloatVector toFloat zero).

(** The components the loop has written when all [n] tokens are numbers. *)
Lemma loop_ok (n i : nat) (vec : list T) (ts : list Token) :
  (i + n <= length vec)%nat ->
  (forall j, (j < n)%nat -> hasType QuakeMapToken.Number (tokenAt j ts) = true) ->
  loop n i vec ts =
    (inr (take i vec ++ map (fun j => toFloat (tokenAt j ts)) (seq 0 n)
            ++ drop (i + n) vec),
     drop n ts).
Proof.
  revert i vec ts. induction n as [ | n IH]; intros i vec ts Hlen Hnum.
  - simpl. unfold ret. rewrite Nat.add_0_r, take_drop, drop_0. reflexivity.
  - simpl. unfold bind at 1, nextToken at 1. unfold bind at 1, expect.
    rewrite (Hnum 0%nat) by lia. unfold ret at 1.
    rewrite IH.
    + f_equal; [ | now rewrite drop_drop]. f_equal.
      assert (Hi : (i < length vec)%nat) by lia.
      destruct (lookup_lt_is_Some_2 vec i Hi) as [x Hx].
      rewrite (take_S_r (<[i:=toFloat (tokenAt 0 ts)]> vec) i (toFloat (tokenAt 0 ts)))
        by now apply list_lookup_insert_eq.
      rewrite take_insert_ge by lia.
      rewrite drop_insert_lt by lia.
      rewrite <- app_assoc. simpl. f_equal. f_equal.
      * rewrite <- seq_shift, map_map.
        f_equal; [ | now rewrite Nat.add_succ_r].
        apply map_ext. intros j. now rewrite tokenAt_drop.
    + rewrite length_insert. lia.
    + intros j Hj. rewrite tokenAt_drop. apply Hnum. lia.
Qed.

(** The loop stops at the first token that is not a number, which it has
    taken from the tokenizer. *)
Lemma loop_fails (n i k : nat) (vec : list T) (ts : list Token) :
  (k < n)%nat ->
  (forall j, (j < k)%nat -> hasType QuakeMapToken.Number (tokenAt j ts) = true) ->
  hasType QuakeMapToken.Number (tokenAt k ts) = false ->
  loop n i vec ts =
    (inl (UnexpectedTokenError QuakeMapToken.Number (tokenAt k ts)),
     drop (S k) ts).
Proof.
  revert i k vec ts. induction n as [ | n IH]; intros i k vec ts Hk Hnum Hbad; [lia | ].
  simpl. unfold bind at 1, nextToken at 1. unfold bind at 1, expect.
  destruct k as [ | k].
  - rewrite Hbad. reflexivity.
  - rewrite (Hnum 0%nat) by lia. unfold ret at 1.
    rewrite (IH (S i) k).
    + now rewrite tokenAt_drop, drop_drop.
    + lia.
    + intros j Hj. rewrite tokenAt_drop. apply Hnum. lia.
    + now rewrite tokenAt_drop.
Qed.

(** What [parseFloatVector<S>] returns on the tokens it accepts. *)
Definition vectorAt (S : nat) (ts : list Token) : list T :=
  map (fun j => toFloat (tokenAt (1 + j) ts)) (seq 0 S).

Lemma parseFloatVector_ok (S : nat) (o c : TokenType) (ts : list Token) :
  (forall k, (k <= S + 1)%nat ->
     hasType (expectedAt S o c k) (tokenAt k ts) = true) ->
  parseFloatVector S o c ts = (inr (vectorAt S ts), drop (S + 2) ts).
Proof.
  intros Hall. unfold parseFloatVector.
  unfold bind at 1, nextToken at 1. unfold bind at 1, expect at 1.
  pose proof (Hall 0%nat ltac:(lia)) as H0. rewrite expectedAt_open in H0.
  rewrite H0. unfold ret at 1. unfold bind at 1.
  rewrite loop_ok.
  - unfold bind at 1, nextToken at 1. unfold bind at 1, expect.
    rewrite tokenAt_drop, tokenAt_drop.
    pose proof (Hall (S + 1)%nat ltac:(lia)) as Hc.
    rewrite expectedAt_close in Hc.
    replace (1 + (S + 0))%nat with (S + 1)%nat by lia. rewrite Hc.
    unfold ret. rewrite !drop_drop. f_equal; [ | f_equal; lia].
    f_equal. rewrite drop_replicate, Nat.sub_diag.
    simpl. rewrite app_nil_r. unfold vectorAt. apply map_ext.
    intros j. now rewrite tokenAt_drop.
  - rewrite length_replicate. lia.
  - intros j Hj. rewrite tokenAt_drop.
    rewrite <- (expectedAt_number S o c (1 + j)) by lia. apply Hall. lia.
Qed.

Lemma parseFloatVector_fails (S : nat) (o c : TokenType) (ts : list Token)
  (k : nat) :
  (k <= S + 1)%nat ->
  (forall j, (j < k)%nat ->
     hasType (expectedAt S o c j) (tokenAt j ts) = true) ->
  hasType (expectedAt S o c k) (tokenAt k ts) = false ->
  parseFloatVector S o c ts =
    (inl (UnexpectedTokenError (expectedAt S o c k) (tokenAt k ts)),
     drop (k + 1) ts).
Proof.
  intros Hk Hpre Hbad. unfold parseFloatVector.
  unfold bind at 1, nextToken at 1. unfold bind at 1, expect at 1.
  destruct k as [ | k].
  { rewrite expectedAt_open in *. rewrite Hbad. reflexivity. }
  pose proof (Hpre 0%nat ltac:(lia)) as H0. rewrite expectedAt_open in H0.
  rewrite H0. unfold ret at 1. unfold bind at 1.
  assert (Hnum : forall j, (j < S)%nat -> (j < k)%nat ->
            hasType QuakeMapToken.Number (tokenAt j (drop 1 ts)) = true).
  { intros j HjS Hj. rewrite tokenAt_drop.
    rewrite <- (expectedAt_number S o c (1 + j)) by lia. apply Hpre. lia. }
  destruct (decide (k < S)%nat) as [HkS | HkS].
  - (* the offending token is one of the numbers *)
    rewrite (expectedAt_number S o c (Datatypes.S k)) in * by lia.
    rewrite (loop_fails S 0 k).
    + rewrite tokenAt_drop, drop_drop. simpl. do 3 f_equal. lia.
    + exact HkS.
    + intros j Hj. apply Hnum; lia.
    + now rewrite tokenAt_drop.
  - (* the offending token is the closing one *)
    assert (k = S) as -> by lia.
    replace (Datatypes.S S) with (S + 1)%nat in * by lia.
    rewrite expectedAt_close in *.
    rewrite loop_ok.
    + unfold bind at 1, nextToken at 1. unfold bind at 1, expect.
      rewrite tokenAt_drop, tokenAt_drop.
      replace (1 + (S + 0))%nat with (S + 1)%nat by lia. rewrite Hbad.
      unfold throw. rewrite !drop_drop. do 2 f_equal. lia.
    + rewrite length_replicate. lia.
    + intros j Hj. apply Hnum; lia.
Qed.
End FloatVectorFacts.

(** C3: for every arity [S] and token stream, with [o] and [c] token kinds
    and every token of a single kind, [parseFloatVector<S>(o, c)] succeeds
    exactly when the next [S + 2] tokens are one of kind [o], then [S] of
    kind [Integer] or [Decimal], then one of kind [c]; on success exactly
    those [S + 2] tokens are consumed and the result has [S] components, the
    [i]-th being the numeric value of the [i]-th number token. *)
Theorem parseFloatVector_succeeds_iff {T : Type} (toFloat : Token -> T)
  (zero : T) (S : nat) (o c : TokenType) (ts : QuakeMapTokenizer) :
  In o QuakeMapToken.kinds -> In c QuakeMapToken.kinds ->
  Forall (fun t => In (tok_type t) QuakeMapToken.kinds) ts ->
  ((exists v, (parseFloatVector toFloat zero S o c ts).1 = inr v) <->
   (tok_type (tokenAt 0 ts) = o /\
    (forall i, (i < S)%nat ->
       tok_type (tokenAt (1 + i) ts) = QuakeMapToken.Integer \/
       tok_type (tokenAt (1 + i) ts) = QuakeMapToken.Decimal) /\
    tok_type (tokenAt (S + 1) ts) = c)) /\
  (forall v, (parseFloatVector toFloat zero S o c ts).1 = inr v ->
     (parseFloatVector toFloat zero S o c ts).2 = drop (S + 2) ts /\
     length v = S /\
     forall i, (i < S)%nat -> v !! i = Some (toFloat (tokenAt (1 + i) ts))).
Proof.
  intros Ho Hc Hts.
  pose proof (fun k => tokenAt_kind k ts Hts) as Hkind.
  (* the k-th test of the function, in terms of kinds *)
  assert (Hexp : (forall k, (k <= S + 1)%nat ->
                    hasType (expectedAt S o c k) (tokenAt k ts) = true) <->
                 (tok_type (tokenAt 0 ts) = o /\
                  (forall i, (i < S)%nat ->
                     tok_type (tokenAt (1 + i) ts) = QuakeMapToken.Integer \/
                     tok_type (tokenAt (1 + i) ts) = QuakeMapToken.Decimal) /\
                  tok_type (tokenAt (S + 1) ts) = c)).
  { split.
    - intros Hall. split; [ | split].
      + apply (hasType_kind o); auto. rewrite <- (expectedAt_open S o c). apply Hall; lia.
      + intros i Hi. apply hasType_Number; auto.
        rewrite <- (expectedAt_number S o c (1 + i)) by lia. apply Hall; lia.
      + apply (hasType_kind c); auto. rewrite <- (expectedAt_close S o c) at 1. apply Hall; lia.
    - intros (H0 & Hn & Hcl) k Hk.
      destruct (decide (k = 0%nat)) as [-> | ].
      { rewrite expectedAt_open. apply hasType_kind; auto. }
      destruct (decide (k = (S + 1)%nat)) as [-> | ].
      { rewrite expectedAt_close. apply hasType_kind; auto. }
      rewrite expectedAt_number by lia. apply hasType_Number; auto.
      replace k with (1 + (k - 1))%nat by lia. apply Hn. lia. }
  destruct (first_failure (fun k => hasType (expectedAt S o c k) (tokenAt k ts))
              (S + 2)) as [Hall | (k & Hk & Hbad & Hpre)].
  - (* every test passes *)
    assert (Hall' : forall k, (k <= S + 1)%nat ->
              hasType (expectedAt S o c k) (tokenAt k ts) = true)
      by (intros k Hk; apply Hall; lia).
    rewrite (parseFloatVector_ok toFloat zero S o c ts Hall'). simpl. split.
    + split; [intros _; now apply Hexp | intros _; eauto].
    + intros v [= <-]. split; [reflexivity | ]. unfold vectorAt. split.
      * now rewrite length_map, length_seq.
      * intros i Hi. rewrite list_lookup_fmap, lookup_seq_lt by exact Hi.
        reflexivity.
  - (* the k-th test is the first to fail *)
    rewrite (parseFloatVector_fails toFloat zero S o c ts k) by (auto; lia).
    simpl. split.
    + split; [intros [v [=]] | ]. intros Hshape.
      pose proof (proj2 Hexp Hshape k ltac:(lia)) as Hgood. congruence.
    + intros v [=].
Qed.

(** C9: when the [k]-th token that [parseFloatVector<S>(o, c)] asks for is
    the first of the wrong kind, the call throws after [k + 1] calls of
    [nextToken]: the tokenizer is left past the first [k + 1] tokens, the
    offending one included, and nothing is pushed back. *)
Theorem parseFloatVector_throw_keeps_position {T : Type}
  (toFloat : Token -> T) (zero : T) (S : nat) (o c : TokenType)
  (ts : QuakeMapTokenizer) (k : nat) :
  (k <= S + 1)%nat ->
  (forall j, (j < k)%nat -> hasType (expectedAt S o c j) (tokenAt j ts) = true) ->
  hasType (expectedAt S o c k) (tokenAt k ts) = false ->
  parseFloatVector toFloat zero S o c ts =
    (inl (UnexpectedTokenError (expectedAt S o c k) (tokenAt k ts)),
     drop (k + 1) ts) /\
  ((k < length ts)%nat ->
   ts = take (k + 1) ts ++ drop (k + 1) ts /\
   length (drop (k + 1) ts) = (length ts - (k + 1))%nat /\
   drop (k + 1) ts <> ts).
Proof.
  intros Hk Hpre Hbad. split.
  - now apply parseFloatVector_fails.
  - intros Hlen. split; [now rewrite take_drop | ].
    split; [apply length_drop | ].
    intros Heq. apply (f_equal length) in Heq. rewrite length_drop in Heq. lia.
Qed.

(** ** Running a sequence of member functions *)

Lemma bind_ok {St A B} (m : Throws St A) (k : A -> Throws St B) s a s' :
  m s = (inr a, s') -> bind m k s = k a s'.
Proof. intros H. unfold bind. now rewrite H. Qed.

Lemma bind_throw {St A B} (m : Throws St A) (k : A -> Throws St B) s e s' :
  m s = (inl e, s') -> bind m k s = (inl e, s').
Proof. intros H. unfold bind. now rewrite H. Qed.

Lemma hasType_as (m : TokenType) (t : Token) (k : TokenType) :
  tok_type t = k -> hasType m t = negb (Z.land k m =? 0).
Proof. intros <-. reflexivity. Qed.

(** Decides every mask test on a token whose kind is known. *)
Ltac kinds :=
  repeat match goal with
    | H : tok_type ?t = ?k |- context [hasType ?m ?t] =>
        rewrite (hasType_as m t k H)
    end;
  repeat match goal with
    | |- context [negb (Z.land ?a ?b =? 0)] =>
        let v := eval vm_compute in (negb (Z.land a b =? 0)) in
        change (negb (Z.land a b =? 0)) with v
    end.

Lemma isNumber_hasType (m : TokenType) (t : Token) :
  isNumber t ->
  hasType m t = negb (Z.land QuakeMapToken.Integer m =? 0) \/
  hasType m t = negb (Z.land QuakeMapToken.Decimal m =? 0).
Proof. intros [H | H]; [left | right]; now apply hasType_as. Qed.

Lemma isNumber_Number (t : Token) :
  isNumber t -> hasType QuakeMapToken.Number t = true.
Proof. intros [H | H]; now kinds. Qed.

Lemma isNumber_not_OParenthesis (t : Token) :
  isNumber t -> hasType QuakeMapToken.OParenthesis t = false.
Proof. intros [H | H]; now kinds. Qed.

Lemma kind_hasType (k : TokenType) (t : Token) :
  In k QuakeMapToken.kinds -> tok_type t = k -> hasType k t = true.
Proof.
  intros Hk Ht. apply hasType_kind; [exact Hk | now rewrite Ht | exact Ht].
Qed.

Lemma nextToken_cons (t : Token) (ts : list Token) :
  nextToken (t :: ts) = (inr t, ts).
Proof. reflexivity. Qed.

Lemma peekToken_cons (t : Token) (ts : list Token) :
  peekToken (t :: ts) = (inr t, t :: ts).
Proof. reflexivity. Qed.

Lemma expect_ok (m : TokenType) (t : Token) (ts : list Token) :
  hasType m t = true -> expect m t ts = (inr t, ts).
Proof. intros H. unfold expect. now rewrite H. Qed.

Lemma expect_throw (m : TokenType) (t : Token) (ts : list Token) :
  hasType m t = false -> expect m t ts = (inl (UnexpectedTokenError m t), ts).
Proof. intros H. unfold expect. now rewrite H. Qed.

(** Takes one token that passes its test. *)
Ltac take_token :=
  erewrite bind_ok by apply nextToken_cons;
  erewrite bind_ok by (apply expect_ok; first [ assumption | now kinds ]).

(** ** The face rules accept the faces of the grammar *)

Section GrammarAccepted.
Context {T : Type}.
Variable toFloat : Token -> T.
Variable zero : T.
Variable m_sourceMapFormat : MapFormat.
Variable trailingFields : MapFormat -> nat.
Variable primitiveFields : nat.

Lemma loop_app (ns : list Token) (i : nat) (vec : list T) (rest : list Token) :
  Forall isNumber ns -> (i + length ns <= length vec)%nat ->
  parseFloatVector_loop toFloat (length ns) i vec (ns ++ rest) =
    (inr (take i vec ++ map toFloat ns ++ drop (i + length ns) vec), rest).
Proof.
  intros Hns. revert i vec.
  induction Hns as [ | n ns Hn _ IH]; intros i vec Hlen; simpl in *.
  - unfold ret. now rewrite Nat.add_0_r, take_drop.
  - erewrite bind_ok by apply nextToken_cons.
    erewrite bind_ok by (apply expect_ok, isNumber_Number, Hn).
    rewrite IH by (rewrite length_insert; lia).
    f_equal. f_equal.
    assert (Hi : (i < length vec)%nat) by lia.
    rewrite (take_S_r (<[i:=toFloat n]> vec) i (toFloat n))
      by now apply list_lookup_insert_eq.
    rewrite take_insert_ge by lia. rewrite drop_insert_lt by lia.
    rewrite <- app_assoc. simpl. now rewrite Nat.add_succ_r.
Qed.

Lemma parseFloatVector_app (S : nat) (o c : TokenType) (g : list Token)
  (v : list T) (rest : list Token) :
  In o QuakeMapToken.kinds -> In c QuakeMapToken.kinds ->
  vectorTokens toFloat S o c g v ->
  parseFloatVector toFloat zero S o c (g ++ rest) = (inr v, rest).
Proof.
  intros Ho Hc [to tc ns Hto Htc Hlen Hns]. unfold parseFloatVector.
  simpl. rewrite <- app_assoc. subst S.
  erewrite bind_ok by apply nextToken_cons.
  erewrite bind_ok by (apply expect_ok, (kind_hasType o to Ho Hto)).
  erewrite bind_ok
    by (apply loop_app; [exact Hns | rewrite length_replicate; lia]).
  simpl.
  erewrite bind_ok by apply nextToken_cons.
  erewrite bind_ok by (apply expect_ok, (kind_hasType c tc Hc Htc)).
  unfold ret. rewrite drop_replicate, Nat.sub_diag. simpl.
  now rewrite app_nil_r.
Qed.

Lemma parseFields_app (n : nat) (fs : list Token) (v : list T)
  (rest : list Token) :
  fieldTokens toFloat n fs v ->
  parseFields toFloat n (fs ++ rest) = (inr v, rest).
Proof.
  intros [ns Hlen Hns]. subst n.
  induction Hns as [ | t ns Ht _ IH]; simpl; [reflexivity | ].
  assert (Hf : parseFloat toFloat (t :: ns ++ rest) = (inr (toFloat t), ns ++ rest)).
  { unfold parseFloat.
    erewrite bind_ok by apply nextToken_cons.
    erewrite bind_ok by (apply expect_ok, isNumber_Number, Ht).
    reflexivity. }
  erewrite bind_ok by exact Hf.
  erewrite bind_ok by exact IH. reflexivity.
Qed.

Local Ltac paren :=
  simpl; tauto.

Lemma parseFacePoints_app (ps : list Token) (points : list T * list T * list T)
  (rest : list Token) :
  pointsTokens toFloat ps points ->
  parseFacePoints toFloat zero (ps ++ rest) = (inr points, rest).
Proof.
  intros [p1 p2 p3 v1 v2 v3 H1 H2 H3]. unfold parseFacePoints.
  rewrite <- !app_assoc.
  erewrite bind_ok by (apply parseFloatVector_app; [paren | paren | exact H1]).
  erewrite bind_ok by (apply parseFloatVector_app; [paren | paren | exact H2]).
  erewrite bind_ok by (apply parseFloatVector_app; [paren | paren | exact H3]).
  reflexivity.
Qed.

Lemma parseTextureName_cons (tex : Token) (rest : list Token) :
  tok_type tex = QuakeMapToken.String ->
  parseTextureName (tex :: rest) = (inr (tok_data tex), rest).
Proof.
  intros Htex. unfold parseTextureName. take_token. reflexivity.
Qed.

Lemma parseValveTextureAxes_app (us vs : list Token) (u v : list T)
  (rest : list Token) :
  vectorTokens toFloat 4 QuakeMapToken.OBracket QuakeMapToken.CBracket us u ->
  vectorTokens toFloat 4 QuakeMapToken.OBracket QuakeMapToken.CBracket vs v ->
  parseValveTextureAxes toFloat zero (us ++ vs ++ rest) =
    (inr (ValveAxes (take 3 u) (nth 3 u zero) (take 3 v) (nth 3 v zero)), rest).
Proof.
  intros Hu Hv. unfold parseValveTextureAxes.
  erewrite bind_ok by (apply parseFloatVector_app; [paren | paren | exact Hu]).
  erewrite bind_ok by (apply parseFloatVector_app; [paren | paren | exact Hv]).
  reflexivity.
Qed.

Lemma parsePrimitiveTextureAxes_app (us vs : list Token) (u v : list T)
  (rest : list Token) :
  vectorTokens toFloat 3 QuakeMapToken.OParenthesis
    QuakeMapToken.CParenthesis us u ->
  vectorTokens toFloat 3 QuakeMapToken.OParenthesis
    QuakeMapToken.CParenthesis vs v ->
  parsePrimitiveTextureAxes toFloat zero (us ++ vs ++ rest) =
    (inr (PrimitiveAxes u v), rest).
Proof.
  intros Hu Hv. unfold parsePrimitiveTextureAxes.
  erewrite bind_ok by (apply parseFloatVector_app; [paren | paren | exact Hu]).
  erewrite bind_ok by (apply parseFloatVector_app; [paren | paren | exact Hv]).
  reflexivity.
Qed.

Lemma parseImplicitFace_app ps points tex fs fields (n : nat) rest :
  pointsTokens toFloat ps points ->
  tok_type tex = QuakeMapToken.String ->
  fieldTokens toFloat n fs fields ->
  parseImplicitFace toFloat zero n ((ps ++ tex :: fs) ++ rest) =
    (inr (mkParsedFace points (tok_data tex) ImplicitAxes fields), rest).
Proof.
  intros Hps Htex Hfs. unfold parseImplicitFace.
  rewrite <- app_assoc. simpl.
  erewrite bind_ok by (apply parseFacePoints_app; exact Hps).
  erewrite bind_ok by (apply parseTextureName_cons; exact Htex).
  erewrite bind_ok by (apply parseFields_app; exact Hfs).
  reflexivity.
Qed.

Lemma parseExplicitFace_app ps points tex us u vs v fs fields (n : nat) rest :
  pointsTokens toFloat ps points ->
  tok_type tex = QuakeMapToken.String ->
  vectorTokens toFloat 4 QuakeMapToken.OBracket QuakeMapToken.CBracket us u ->
  vectorTokens toFloat 4 QuakeMapToken.OBracket QuakeMapToken.CBracket vs v ->
  fieldTokens toFloat n fs fields ->
  parseExplicitFace toFloat zero n ((ps ++ tex :: us ++ vs ++ fs) ++ rest) =
    (inr (mkParsedFace points (tok_data tex)
            (ValveAxes (take 3 u) (nth 3 u zero) (take 3 v) (nth 3 v zero))
            fields), rest).
Proof.
  intros Hps Htex Hu Hv Hfs. unfold parseExplicitFace.
  rewrite <- app_assoc. simpl. rewrite <- !app_assoc.
  erewrite bind_ok by (apply parseFacePoints_app; exact Hps).
  erewrite bind_ok by (apply parseTextureName_cons; exact Htex).
  erewrite bind_ok by (apply parseValveTextureAxes_app; [exact Hu | exact Hv]).
  erewrite bind_ok by (apply parseFields_app; exact Hfs).
  reflexivity.
Qed.

(** The face rule of the source dialect accepts a face of that dialect
    and stops right after it. *)
Lemma parseFace_app (ft : list Token) (face : ParsedFace T) (rest : list Token) :
  faceTokens toFloat zero m_sourceMapFormat trailingFields ft face ->
  parseFace toFloat zero m_sourceMapFormat trailingFields primitiveFields
    false (ft ++ rest) = (inr face, rest).
Proof.
  intros [ps points tex fs fields Hax Hps Htex Hfs
         | ps points tex us u vs v fs fields Hax Hps Htex Hu Hv Hfs];
    unfold parseFace, parseQuakeFace, parseValveFace, parseQuake2Face,
      parseQuake2ValveFace, parseHexen2Face, parseDaikatanaFace;
    destruct m_sourceMapFormat; try discriminate Hax;
    solve [ now apply parseImplicitFace_app | now apply parseExplicitFace_app ].
Qed.

(** The rule for the face of a brush primitive accepts such a face. *)
Lemma parsePrimitiveFace_app (ft : list Token) (face : ParsedFace T)
  (rest : list Token) :
  primitiveFaceTokens toFloat primitiveFields ft face ->
  parseFace toFloat zero m_sourceMapFormat trailingFields primitiveFields
    true (ft ++ rest) = (inr face, rest).
Proof.
  intros [o ps points c us u vs v tex fs fields Ho Hps Hc Hu Hv Htex Hfs].
  unfold parseFace, parsePrimitiveFace. simpl.
  rewrite <- !app_assoc. simpl. rewrite <- !app_assoc. simpl.
  take_token.
  erewrite bind_ok by (apply parseFacePoints_app; exact Hps).
  take_token.
  erewrite bind_ok by (apply parsePrimitiveTextureAxes_app; [exact Hu | exact Hv]).
  erewrite bind_ok by (apply parseTextureName_cons; exact Htex).
  erewrite bind_ok by (apply parseFields_app; exact Hfs).
  reflexivity.
Qed.
End GrammarAccepted.

(** ** Resynchronisation *)

Lemma skipBlock_body (body rest : list Token) (d d' k : nat) :
  depthAfter d body = Some d' ->
  skipBlock (S k + d) (body ++ rest) = skipBlock (S k + d') rest.
Proof.
  revert d. induction body as [ | t body IH]; intros d Hd; simpl in *.
  - now injection Hd as ->.
  - destruct (hasType QuakeMapToken.OBrace t).
    + rewrite <- (IH (S d) Hd). f_equal. lia.
    + destruct (hasType QuakeMapToken.CBrace t); [ | now apply IH].
      destruct d as [ | d]; [discriminate | ].
      rewrite <- (IH d Hd). replace (k + S d)%nat with (S (k + d)) by lia.
      reflexivity.
Qed.

(** Skipping a block whose inside is balanced ends right after its closing
    brace. *)
Lemma skipBlock_block (ob cb : Token) (body rest : list Token) :
  tok_type ob = QuakeMapToken.OBrace -> tok_type cb = QuakeMapToken.CBrace ->
  balanced body ->
  skipBlock 0 (ob :: body ++ cb :: rest) = rest.
Proof.
  intros Hob Hcb Hbal. simpl. kinds.
  etransitivity; [exact (skipBlock_body body (cb :: rest) 0 0 0 Hbal) | ].
  simpl. now kinds.
Qed.

(** ** Blocks *)

Section Blocks.
Context {T Face : Type}.
Variable toFloat : Token -> T.
Variable toInteger : Token -> Z.
Variable zero : T.
Variable m_sourceMapFormat : MapFormat.
Variable m_targetMapFormat : MapFormat.
Variable trailingFields : MapFormat -> nat.
Variable primitiveFields : nat.
Variable resolveFace : MapFormat -> MapFormat -> ParsedFace T -> Face.
Variable duplicatePolicy : DuplicatePolicy.

Local Abbreviation State := (ParserState T Face).
Local Abbreviation resolve := (resolveFace m_sourceMapFormat m_targetMapFormat).
Local Abbreviation brushLoop :=
  (parseBrush_loop (Face := Face) toFloat zero m_sourceMapFormat
     m_targetMapFormat trailingFields primitiveFields resolveFace).
Local Abbreviation brushRule :=
  (parseBrush (Face := Face) toFloat zero m_sourceMapFormat
     m_targetMapFormat trailingFields primitiveFields resolveFace).
Local Abbreviation patchRule :=
  (parsePatch (Face := Face) toFloat toInteger zero).
Local Abbreviation blockRule :=
  (parseBlock (Face := Face) toFloat toInteger zero m_sourceMapFormat
     m_targetMapFormat trailingFields primitiveFields resolveFace).
Local Abbreviation blockParser :=
  (parseBrushOrBrushPrimitiveOrPatch (Face := Face) toFloat toInteger zero
     m_sourceMapFormat m_targetMapFormat trailingFields primitiveFields
     resolveFace).
Local Abbreviation faceRule primitive :=
  (if primitive : bool
   then primitiveFaceTokens toFloat primitiveFields
   else faceTokens toFloat zero m_sourceMapFormat trailingFields).

Lemma peekToken_app (t : Token) (ts rest : list Token) :
  peekToken ((t :: ts) ++ rest) = (inr t, (t :: ts) ++ rest).
Proof. reflexivity. Qed.

Lemma onTokenizer_eq {A} (m : Tok A) ts r ts' s (b : list (BuilderCall T Face)) :
  m ts = (r, ts') ->
  onTokenizer m (mkState ts s b) = (r, mkState ts' s b).
Proof. intros H. unfold onTokenizer. simpl. now rewrite H. Qed.

Lemma recovering_ok (m : Parse unit) (st st' : State) :
  m st = (inr tt, st') -> recovering m st = (inr tt, st').
Proof.
  intros H. unfold recovering, bind, mark, tryCatch. now rewrite H.
Qed.

Lemma recovering_throw (m : Parse unit) ts s b e ts' s' b' :
  m (mkState ts s b) = (inl e, mkState ts' s' b') ->
  recovering (T := T) (Face := Face) m (mkState ts s b) =
    (inr tt, mkState (skipBlock 0 ts) (s' ++ [error (lineOf e) e]) b').
Proof.
  intros H. unfold recovering, bind, mark, tryCatch. simpl. now rewrite H.
Qed.

(** A face of either kind starts with an opening parenthesis. *)
Lemma face_head (primitive : bool) (ft : list Token) (face : ParsedFace T) :
  faceRule primitive ft face ->
  exists t t' ft', ft = t :: t' :: ft' /\
    tok_type t = QuakeMapToken.OParenthesis /\
    (if primitive then tok_type t' = QuakeMapToken.OParenthesis
     else isNumber t').
Proof.
  assert (Hpoints : forall ps points, pointsTokens toFloat ps points ->
            exists t t' ps', ps = t :: t' :: ps' /\
              tok_type t = QuakeMapToken.OParenthesis /\ isNumber t').
  { intros ps points [p1 p2 p3 v1 v2 v3 [to tc ns Hto Htc Hlen Hns] _ _].
    destruct Hns as [ | n ns Hn _]; [discriminate | ].
    simpl. eauto 8. }
  destruct primitive.
  - intros [o ps points c us u vs v tex fs fields Ho Hps _ _ _ _ _].
    destruct (Hpoints _ _ Hps) as (t & t' & ps' & -> & Ht & _).
    simpl. eauto 8.
  - intros [ps points tex fs fields _ Hps _ _
           | ps points tex us u vs v fs fields _ Hps _ _ _ _];
      destruct (Hpoints _ _ Hps) as (t & t' & ps' & -> & Ht & Ht');
      simpl; eauto 8.
Qed.

(** The loop of a brush takes the faces of the grammar one by one and
    hands the brush over at the closing brace. *)
Lemma parseBrush_loop_accepts (primitive : bool) (line : nat)
  (fts : list (list Token)) (faces : list (ParsedFace T)) (cb : Token) :
  Forall2 (faceRule primitive) fts faces ->
  tok_type cb = QuakeMapToken.CBrace ->
  forall fuel acc rest s b,
    (length fts < fuel)%nat ->
    brushLoop fuel line primitive acc
      (mkState (concat fts ++ cb :: rest) s b) =
    (inr tt,
     mkState rest s (b ++ [onBrushComplete (acc ++ map resolve faces) line])).
Proof.
  intros Hfaces Hcb.
  induction Hfaces as [ | ft face fts faces Hface _ IH];
    intros fuel acc rest s b Hfuel; (destruct fuel as [ | fuel]; [simpl in Hfuel; lia | ]).
  - simpl concat. simpl app. simpl parseBrush_loop.
    erewrite bind_ok by (apply onTokenizer_eq, peekToken_cons).
    kinds. simpl.
    erewrite bind_ok by (apply onTokenizer_eq, nextToken_cons).
    unfold deliver. simpl. now rewrite app_nil_r.
  - destruct (face_head primitive ft face Hface) as (t & t' & ft' & -> & Ht & _).
    rewrite concat_cons, <- app_assoc. simpl parseBrush_loop.
    erewrite bind_ok by (apply onTokenizer_eq, peekToken_cons).
    kinds. simpl negb. cbv iota.
    erewrite bind_ok.
    2:{ apply onTokenizer_eq.
        destruct primitive;
          [ exact (parsePrimitiveFace_app toFloat zero m_sourceMapFormat
                     trailingFields primitiveFields (t :: t' :: ft') face
                     (concat fts ++ cb :: rest) Hface)
          | exact (parseFace_app toFloat zero m_sourceMapFormat
                     trailingFields primitiveFields (t :: t' :: ft') face
                     (concat fts ++ cb :: rest) Hface) ]. }
    rewrite IH by (simpl in Hfuel; lia).
    simpl. now rewrite <- app_assoc.
Qed.

Lemma concat_length_faces (primitive : bool) (fts : list (list Token))
  (faces : list (ParsedFace T)) :
  Forall2 (faceRule primitive) fts faces ->
  (length fts <= length (concat fts))%nat.
Proof.
  induction 1 as [ | ft face fts faces Hface _ IH]; simpl; [lia | ].
  destruct (face_head primitive ft face Hface) as (t & t' & ft' & -> & _).
  rewrite length_app. simpl. lia.
Qed.

(** The block rule, once its opening brace is taken: the cursor is back
    where it was before the lookahead, and the two tokens looked at pick
    the rule. *)
Lemma parseBlock_dispatch (ob : Token) (ts : list Token) s b :
  tok_type ob = QuakeMapToken.OBrace ->
  blockRule (mkState (ob :: ts) s b) =
    (if hasType QuakeMapToken.String (tokenAt 0 ts)
        && bool_decide (tok_data (tokenAt 0 ts) = PatchId)
     then patchRule (tok_line ob)
     else if hasType QuakeMapToken.OParenthesis (tokenAt 0 ts)
             && hasType QuakeMapToken.OParenthesis (tokenAt 1 ts)
     then brushRule (tok_line ob) true
     else brushRule (tok_line ob) false) (mkState ts s b).
Proof.
  intros Hob. unfold parseBlock.
  erewrite bind_ok by (apply onTokenizer_eq, nextToken_cons).
  erewrite bind_ok by (apply onTokenizer_eq, expect_ok; now kinds).
  unfold mark at 1. unfold bind at 1. simpl m_tokenizer.
  erewrite bind_ok by (apply onTokenizer_eq; reflexivity).
  erewrite bind_ok by (apply onTokenizer_eq; reflexivity).
  unfold bind at 1, reset at 1. simpl status. simpl builder.
  rewrite tokenAt_drop. reflexivity.
Qed.

Lemma parseBrush_eq (line : nat) (primitive : bool) ts s b :
  brushRule line primitive (mkState ts s b) =
  brushLoop (S (length ts)) line primitive [] (mkState ts s b).
Proof. reflexivity. Qed.

(** A well-formed brush block, plain or primitive, is accepted by the
    block rule: the rule stops right after the block and hands the brush
    with its faces to the builder. *)
Lemma parseBlock_brush (primitive : bool) (g : list Token)
  (faces : list (ParsedFace T)) (line : nat) rest s b :
  brushTokens toFloat zero m_sourceMapFormat trailingFields primitiveFields
    primitive g faces line ->
  blockRule (mkState (g ++ rest) s b) =
    (inr tt, mkState rest s (b ++ [onBrushComplete (map resolve faces) line])).
Proof.
  intros [ob cb fts faces' Hob Hcb Hfaces].
  rewrite <- app_comm_cons, <- app_assoc, parseBlock_dispatch by exact Hob.
  change ([cb] ++ rest) with (cb :: rest).
  pose proof (concat_length_faces primitive fts faces' Hfaces) as Hlen.
  assert (Hrun : forall prim', prim' = primitive \/ fts = [] ->
            brushRule (tok_line ob) prim'
              (mkState (concat fts ++ cb :: rest) s b) =
            (inr tt, mkState rest s
               (b ++ [onBrushComplete (map resolve faces') (tok_line ob)]))).
  { intros prim' Hprim. rewrite parseBrush_eq.
    destruct Hprim as [-> | ->].
    - now rewrite (parseBrush_loop_accepts primitive (tok_line ob) fts faces' cb)
        by (auto; rewrite length_app; lia).
    - inversion Hfaces; subst.
      now rewrite (parseBrush_loop_accepts prim' (tok_line ob) [] [] cb)
        by (auto; simpl; lia). }
  destruct Hfaces as [ | ft face fts faces' Hface Hfaces].
  - cbn [concat app] in *. unfold tokenAt. cbn [nth].
    kinds. cbn [andb].
    apply (Hrun false). now right.
  - destruct (face_head primitive ft face Hface) as (t & t' & ft' & -> & Ht & Ht').
    unfold tokenAt. cbn [concat app nth]. kinds. cbn [andb].
    destruct primitive.
    + kinds. apply (Hrun true). now left.
    + rewrite (isNumber_not_OParenthesis t' Ht'). apply (Hrun false). now left.
Qed.
End Blocks.

(** ** The sinks are only written to *)

Section SinkRules.
Context {T Face : Type}.
Implicit Types (P : BuilderCall T Face -> Prop).

Local Abbreviation Parse := (Throws (ParserState T Face)).
Local Abbreviation TT := (fun _ => True).

Lemma framed_ret {A} P (R : A -> Prop) (a : A) :
  R a -> framed P R (ret a : Parse A).
Proof.
  intros HR ts. exists (inr a), ts, [], []. split; [constructor | ].
  split; [now intros ? [= <-] | ]. intros s b. now rewrite !app_nil_r.
Qed.

Lemma framed_throw {A} P (R : A -> Prop) (e : ParserException) :
  framed P R (throw e : Parse A).
Proof.
  intros ts. exists (inl e), ts, [], []. split; [constructor | ].
  split; [intros ? [=] | ]. intros s b. now rewrite !app_nil_r.
Qed.

Lemma framed_bind {A B} P (R1 : A -> Prop) (R : B -> Prop)
  (m : Parse A) (k : A -> Parse B) :
  framed P R1 m -> (forall a, R1 a -> framed P R (k a)) ->
  framed P R (bind m k).
Proof.
  intros Hm Hk ts.
  destruct (Hm ts) as ([e | a] & ts1 & ds1 & db1 & HP1 & HR1 & Hrun1).
  - exists (inl e), ts1, ds1, db1. split; [exact HP1 | ].
    split; [intros ? [=] | ]. intros s b. unfold bind. now rewrite Hrun1.
  - destruct (Hk a (HR1 a eq_refl) ts1)
      as (r & ts2 & ds2 & db2 & HP2 & HR2 & Hrun2).
    exists r, ts2, (ds1 ++ ds2), (db1 ++ db2).
    split; [now apply Forall_app | ]. split; [exact HR2 | ].
    intros s b. unfold bind. now rewrite Hrun1, Hrun2, !app_assoc.
Qed.

Lemma framed_weaken {A} P (R R' : A -> Prop) (m : Parse A) :
  framed P R m -> (forall a, R a -> R' a) -> framed P R' m.
Proof.
  intros Hm HR ts. destruct (Hm ts) as (r & ts' & ds & db & HP & HR1 & Hrun).
  exists r, ts', ds, db. split; [exact HP | ]. split; [ | exact Hrun].
  intros a Ha. now apply HR, HR1.
Qed.

Lemma framed_onTokenizer {A} P (m : Tok A) :
  framed P TT (onTokenizer m : Parse A).
Proof.
  intros ts. destruct (m ts) as [r ts'] eqn:Hm.
  exists r, ts', [], []. split; [constructor | ]. split; [easy | ].
  intros s b. unfold onTokenizer. simpl. now rewrite Hm, !app_nil_r.
Qed.

Lemma framed_mark P : framed P TT (mark : Parse QuakeMapTokenizer).
Proof.
  intros ts. exists (inr ts), ts, [], []. split; [constructor | ].
  split; [easy | ]. intros s b. unfold mark. simpl. now rewrite !app_nil_r.
Qed.

Lemma framed_reset P (start : QuakeMapTokenizer) :
  framed P TT (reset start : Parse unit).
Proof.
  intros ts. exists (inr tt), start, [], []. split; [constructor | ].
  split; [easy | ]. intros s b. unfold reset. simpl. now rewrite !app_nil_r.
Qed.

Lemma framed_statusError P (e : ParserException) :
  framed P TT (statusError e : Parse unit).
Proof.
  intros ts. exists (inr tt), ts, [error (lineOf e) e], [].
  split; [constructor | ]. split; [easy | ].
  intros s b. unfold statusError. simpl. now rewrite !app_nil_r.
Qed.

Lemma framed_deliver P (call : BuilderCall T Face) :
  P call -> framed P TT (deliver call).
Proof.
  intros HP ts. exists (inr tt), ts, [], [call].
  split; [now repeat constructor | ]. split; [easy | ].
  intros s b. unfold deliver. simpl. now rewrite !app_nil_r.
Qed.

Lemma framed_tryCatch {A} P (R : A -> Prop) (m : Parse A)
  (h : ParserException -> Parse A) :
  framed P R m -> (forall e, framed P R (h e)) -> framed P R (tryCatch m h).
Proof.
  intros Hm Hh ts.
  destruct (Hm ts) as ([e | a] & ts1 & ds1 & db1 & HP1 & HR1 & Hrun1).
  - destruct (Hh e ts1) as (r & ts2 & ds2 & db2 & HP2 & HR2 & Hrun2).
    exists r, ts2, (ds1 ++ ds2), (db1 ++ db2).
    split; [now apply Forall_app | ]. split; [exact HR2 | ].
    intros s b. unfold tryCatch. now rewrite Hrun1, Hrun2, !app_assoc.
  - exists (inr a), ts1, ds1, db1. split; [exact HP1 | ].
    split; [exact HR1 | ]. intros s b. unfold tryCatch. now rewrite Hrun1.
Qed.

(** A loop that is started with as much fuel as the tokens call for. *)
Lemma framed_fuel {A} P (R : A -> Prop) (f : nat -> Parse A) :
  (forall n, framed P R (f n)) ->
  framed P R (fun st => f (S (length (m_tokenizer st))) st).
Proof.
  intros Hf ts.
  destruct (Hf (S (length ts)) ts) as (r & ts' & ds & db & HP & HR & Hrun).
  exists r, ts', ds, db. split; [exact HP | ]. split; [exact HR | ].
  intros s b. simpl. apply Hrun.
Qed.

Lemma framed_recovering P (m : Parse unit) :
  framed P TT m -> framed P TT (recovering m).
Proof.
  intros Hm. unfold recovering.
  eapply framed_bind; [apply framed_mark | intros start _].
  apply framed_tryCatch; [exact Hm | intros e].
  eapply framed_bind; [apply framed_statusError | intros _ _].
  eapply framed_bind; [apply framed_reset | intros _ _].
  apply framed_onTokenizer.
Qed.

(** *** Functions that throw before they have written anything *)

Lemma silent_onTokenizer {A} (m : Tok A) : silent (onTokenizer m : Parse A).
Proof.
  intros [ts s b]. unfold onTokenizer. simpl. now destruct (m ts).
Qed.

Lemma silent_mark : silent (mark : Parse QuakeMapTokenizer).
Proof. now intros st. Qed.

Lemma silent_reset (start : QuakeMapTokenizer) :
  silent (reset start : Parse unit).
Proof. now intros st. Qed.

Lemma throwsQuietly_bind {A B} (m : Parse A) (k : A -> Parse B) :
  silent m -> (forall a, throwsQuietly (k a)) -> throwsQuietly (bind m k).
Proof.
  intros Hm Hk st e st'. unfold bind. specialize (Hm st).
  destruct (m st) as [[e1 | a] st1]; simpl in Hm.
  - now intros [= <- <-].
  - intros Hrun. destruct (Hk a st1 e st' Hrun) as [-> ->]. exact Hm.
Qed.

Lemma throwsQuietly_silent {A} (m : Parse A) : silent m -> throwsQuietly m.
Proof. intros Hm st e st' Hrun. specialize (Hm st). now rewrite Hrun in Hm. Qed.

Lemma throwsQuietly_deliver (call : BuilderCall T Face) :
  throwsQuietly (deliver call).
Proof. intros st e st'. unfold deliver. intros [=]. Qed.

Lemma throwsQuietly_ret {A} (a : A) : throwsQuietly (ret a : Parse A).
Proof. intros st e st'. unfold ret. intros [=]. Qed.
End SinkRules.

Section ParserSinks.
Context {T Face : Type}.
Variable toFloat : Token -> T.
Variable toInteger : Token -> Z.
Variable zero : T.
Variable m_sourceMapFormat : MapFormat.
Variable m_targetMapFormat : MapFormat.
Variable trailingFields : MapFormat -> nat.
Variable primitiveFields : nat.
Variable resolveFace : MapFormat -> MapFormat -> ParsedFace T -> Face.
Variable duplicatePolicy : DuplicatePolicy.

Local Abbreviation TT := (fun _ => True).
Local Abbreviation brushLoop :=
  (parseBrush_loop (Face := Face) toFloat zero m_sourceMapFormat
     m_targetMapFormat trailingFields primitiveFields resolveFace).
Local Abbreviation brushRule :=
  (parseBrush (Face := Face) toFloat zero m_sourceMapFormat
     m_targetMapFormat trailingFields primitiveFields resolveFace).
Local Abbreviation patchRule :=
  (parsePatch (Face := Face) toFloat toInteger zero).
Local Abbreviation blockRule :=
  (parseBlock (Face := Face) toFloat toInteger zero m_sourceMapFormat
     m_targetMapFormat trailingFields primitiveFields resolveFace).
Local Abbreviation blockParser :=
  (parseBrushOrBrushPrimitiveOrPatch (Face := Face) toFloat toInteger zero
     m_sourceMapFormat m_targetMapFormat trailingFields primitiveFields
     resolveFace).
Local Abbreviation propertyRule :=
  (parseEntityProperty (T := T) (Face := Face) duplicatePolicy).
Local Abbreviation entityLoop :=
  (parseEntity_loop (Face := Face) toFloat toInteger zero m_sourceMapFormat
     m_targetMapFormat trailingFields primitiveFields resolveFace
     duplicatePolicy).
Local Abbreviation entityRule :=
  (parseEntity (Face := Face) toFloat toInteger zero m_sourceMapFormat
     m_targetMapFormat trailingFields primitiveFields resolveFace
     duplicatePolicy).
Local Abbreviation entitiesLoop :=
  (parseEntities_loop (Face := Face) toFloat toInteger zero m_sourceMapFormat
     m_targetMapFormat trailingFields primitiveFields resolveFace
     duplicatePolicy).
Local Abbreviation entitiesRule :=
  (parseEntities (Face := Face) toFloat toInteger zero m_sourceMapFormat
     m_targetMapFormat trailingFields primitiveFields resolveFace
     duplicatePolicy).

(** Chains the rules of [framed] along a sequence of calls. *)
Local Ltac framed_leaf :=
  first
    [ apply framed_onTokenizer
    | apply framed_mark
    | apply framed_reset
    | apply framed_statusError
    | apply framed_ret; exact I
    | apply framed_throw ].

Local Ltac framed_step :=
  first [ framed_leaf | eapply framed_bind; [ framed_leaf | intros ? _ ] ].

Section Writes.
(** What the builder may be told. *)
Variable P : BuilderCall T Face -> Prop.
Hypothesis P_brush : forall faces line, P (onBrushComplete faces line).
Hypothesis P_patch : forall patch line, P (onPatchComplete patch line).

Lemma framed_parseBrush_loop (fuel line : nat) (primitive : bool)
  (faces : list Face) :
  framed P TT (brushLoop fuel line primitive faces).
Proof.
  revert faces. induction fuel as [ | fuel IH]; intros faces; simpl.
  - now apply framed_ret.
  - eapply framed_bind; [apply framed_onTokenizer | intros t _].
    destruct (hasType QuakeMapToken.OParenthesis t).
    + eapply framed_bind; [apply framed_onTokenizer | intros face _].
      apply IH.
    + destruct (hasType QuakeMapToken.CBrace t).
      * eapply framed_bind; [apply framed_onTokenizer | intros _ _].
        apply framed_deliver, P_brush.
      * repeat framed_step.
Qed.

Lemma framed_parseBrush (line : nat) (primitive : bool) :
  framed P TT (brushRule line primitive).
Proof.
  apply (framed_fuel P TT (fun n => brushLoop n line primitive [])).
  intros n. apply framed_parseBrush_loop.
Qed.

Lemma framed_parsePatch (line : nat) : framed P TT (patchRule line).
Proof.
  unfold parsePatch.
  eapply framed_bind; [apply framed_onTokenizer | intros patch _].
  apply framed_deliver, P_patch.
Qed.

Lemma framed_parseBlock : framed P TT blockRule.
Proof.
  unfold parseBlock. repeat framed_step.
  destruct (_ && _); [apply framed_parsePatch | ].
  destruct (_ && _); apply framed_parseBrush.
Qed.

Lemma framed_blockParser : framed P TT blockParser.
Proof. apply framed_recovering, framed_parseBlock. Qed.

(** What is known of the properties and keys accumulated so far. *)
Variable Inv : list EntityProperty -> EntityPropertyKeys -> Prop.
Hypothesis Inv_empty : Inv [] ∅.
Hypothesis Inv_step : forall properties keys, Inv properties keys ->
  framed P (fun pk => Inv pk.1 pk.2) (propertyRule properties keys).
Hypothesis P_entity : forall properties keys line,
  Inv properties keys -> P (onEntityComplete properties line).

Lemma framed_parseEntity_loop (fuel line : nat)
  (properties : list EntityProperty) (keys : EntityPropertyKeys) :
  Inv properties keys ->
  framed P TT (entityLoop fuel line properties keys).
Proof.
  revert properties keys.
  induction fuel as [ | fuel IH]; intros properties keys HInv; simpl.
  - now apply framed_ret.
  - eapply framed_bind; [apply framed_onTokenizer | intros t _].
    destruct (hasType QuakeMapToken.String t).
    { eapply framed_bind; [apply Inv_step, HInv | intros pk Hpk].
      apply IH, Hpk. }
    destruct (hasType QuakeMapToken.OBrace t).
    { eapply framed_bind; [apply framed_blockParser | intros _ _].
      apply IH, HInv. }
    destruct (hasType QuakeMapToken.CBrace t).
    { eapply framed_bind; [apply framed_onTokenizer | intros _ _].
      eapply framed_deliver, P_entity, HInv. }
    repeat framed_step.
Qed.

Lemma framed_parseEntity : framed P TT entityRule.
Proof.
  unfold parseEntity. apply framed_recovering.
  repeat framed_step.
  apply (framed_fuel P TT (fun n => entityLoop n _ [] ∅)).
  intros n. apply framed_parseEntity_loop, Inv_empty.
Qed.

Lemma framed_parseEntities_loop (fuel : nat) :
  framed P TT (entitiesLoop fuel).
Proof.
  induction fuel as [ | fuel IH]; simpl.
  - now apply framed_ret.
  - eapply framed_bind; [apply framed_onTokenizer | intros t _].
    destruct (hasType QuakeMapToken.Eof t); [now apply framed_ret | ].
    destruct (hasType QuakeMapToken.OBrace t).
    + eapply framed_bind; [apply framed_parseEntity | intros _ _].
      apply IH.
    + repeat framed_step.
Qed.

Lemma framed_parseEntities : framed P TT entitiesRule.
Proof.
  apply (framed_fuel P TT entitiesLoop). apply framed_parseEntities_loop.
Qed.
End Writes.

(** *** A block that throws has written nothing *)

Lemma throwsQuietly_parseBrush_loop (fuel line : nat) (primitive : bool)
  (faces : list Face) :
  throwsQuietly (brushLoop fuel line primitive faces).
Proof.
  revert faces. induction fuel as [ | fuel IH]; intros faces; simpl.
  - apply throwsQuietly_ret.
  - apply throwsQuietly_bind; [apply silent_onTokenizer | intros t].
    destruct (hasType QuakeMapToken.OParenthesis t).
    + apply throwsQuietly_bind; [apply silent_onTokenizer | intros face].
      apply IH.
    + destruct (hasType QuakeMapToken.CBrace t).
      * apply throwsQuietly_bind; [apply silent_onTokenizer | intros _].
        apply throwsQuietly_deliver.
      * apply throwsQuietly_bind; [apply silent_onTokenizer | intros _].
        apply throwsQuietly_ret.
Qed.

Lemma throwsQuietly_parseBlock : throwsQuietly blockRule.
Proof.
  unfold parseBlock.
  apply throwsQuietly_bind; [apply silent_onTokenizer | intros t].
  apply throwsQuietly_bind; [apply silent_onTokenizer | intros brace].
  apply throwsQuietly_bind; [apply silent_mark | intros start].
  apply throwsQuietly_bind; [apply silent_onTokenizer | intros t1].
  apply throwsQuietly_bind; [apply silent_onTokenizer | intros t2].
  apply throwsQuietly_bind; [apply silent_reset | intros _].
  destruct (_ && _).
  - unfold parsePatch.
    apply throwsQuietly_bind; [apply silent_onTokenizer | intros patch].
    apply throwsQuietly_deliver.
  - destruct (_ && _); intros st e st'; unfold parseBrushPrimitive, parseBrush;
      apply throwsQuietly_parseBrush_loop.
Qed.

(** What a block rule does is the same whatever the sinks hold: if it
    throws with empty sinks, it throws the same exception with any sinks
    and leaves them as they are. *)
Lemma parseBlock_throws_anywhere (ts : list Token) (e : ParserException) s b :
  (blockRule (mkState ts [] [])).1 = inl e ->
  exists ts', blockRule (mkState ts s b) = (inl e, mkState ts' s b).
Proof.
  intros Hthrow.
  destruct (framed_parseBlock TT (fun _ _ => I) (fun _ _ => I) ts)
    as (r & ts' & ds & db & _ & _ & Hrun).
  rewrite Hrun in Hthrow. simpl in Hthrow. subst r.
  destruct (throwsQuietly_parseBlock _ _ _ (Hrun s b)) as [Hs Hb].
  simpl in Hs, Hb. exists ts'. rewrite Hrun.
  rewrite <- (app_nil_r s) in Hs at 2. apply app_inv_head in Hs.
  rewrite <- (app_nil_r b) in Hb at 2. apply app_inv_head in Hb.
  subst. now rewrite !app_nil_r.
Qed.
End ParserSinks.

(** ** Entities *)

Section Entities.
Context {T Face : Type}.
Variable toFloat : Token -> T.
Variable toInteger : Token -> Z.
Variable zero : T.
Variable m_sourceMapFormat : MapFormat.
Variable m_targetMapFormat : MapFormat.
Variable trailingFields : MapFormat -> nat.
Variable primitiveFields : nat.
Variable resolveFace : MapFormat -> MapFormat -> ParsedFace T -> Face.
Variable duplicatePolicy : DuplicatePolicy.

Local Abbreviation resolve := (resolveFace m_sourceMapFormat m_targetMapFormat).
Local Abbreviation blockRule :=
  (parseBlock (Face := Face) toFloat toInteger zero m_sourceMapFormat
     m_targetMapFormat trailingFields primitiveFields resolveFace).
Local Abbreviation blockParser :=
  (parseBrushOrBrushPrimitiveOrPatch (Face := Face) toFloat toInteger zero
     m_sourceMapFormat m_targetMapFormat trailingFields primitiveFields
     resolveFace).
Local Abbreviation propertyRule :=
  (parseEntityProperty (T := T) (Face := Face) duplicatePolicy).
Local Abbreviation entityLoop :=
  (parseEntity_loop (Face := Face) toFloat toInteger zero m_sourceMapFormat
     m_targetMapFormat trailingFields primitiveFields resolveFace
     duplicatePolicy).
Local Abbreviation entityRule :=
  (parseEntity (Face := Face) toFloat toInteger zero m_sourceMapFormat
     m_targetMapFormat trailingFields primitiveFields resolveFace
     duplicatePolicy).
Local Abbreviation entitiesLoop :=
  (parseEntities_loop (Face := Face) toFloat toInteger zero m_sourceMapFormat
     m_targetMapFormat trailingFields primitiveFields resolveFace
     duplicatePolicy).
Local Abbreviation entitiesRule :=
  (parseEntities (Face := Face) toFloat toInteger zero m_sourceMapFormat
     m_targetMapFormat trailingFields primitiveFields resolveFace
     duplicatePolicy).
Local Abbreviation wellFormedBrush :=
  (brushTokens toFloat zero m_sourceMapFormat trailingFields primitiveFields).

(** The wrapper lets no exception out. *)
Lemma recovering_returns (m : Parse unit) (st : ParserState T Face) :
  (recovering m st).1 = inr tt.
Proof.
  unfold recovering, bind, mark, tryCatch.
  destruct (m st) as [[e | []] st']; reflexivity.
Qed.

Lemma blockParser_brush (primitive : bool) (g : list Token)
  (faces : list (ParsedFace T)) (line : nat) rest s b :
  wellFormedBrush primitive g faces line ->
  blockParser (mkState (g ++ rest) s b) =
    (inr tt, mkState rest s (b ++ [onBrushComplete (map resolve faces) line])).
Proof.
  intros Hg. apply recovering_ok. eapply parseBlock_brush, Hg.
Qed.

Lemma blockParser_malformed (ob cb : Token) (body rest : list Token)
  (e : ParserException) s b :
  tok_type ob = QuakeMapToken.OBrace -> tok_type cb = QuakeMapToken.CBrace ->
  balanced body ->
  (blockRule (mkState ((ob :: body ++ [cb]) ++ rest) [] [])).1 = inl e ->
  blockParser (mkState ((ob :: body ++ [cb]) ++ rest) s b) =
    (inr tt, mkState rest (s ++ [error (lineOf e) e]) b).
Proof.
  intros Hob Hcb Hbal Hthrow.
  destruct (parseBlock_throws_anywhere toFloat toInteger zero
              m_sourceMapFormat m_targetMapFormat trailingFields
              primitiveFields resolveFace _ e s b Hthrow) as [ts' Hrun].
  unfold parseBrushOrBrushPrimitiveOrPatch.
  rewrite (recovering_throw _ _ _ _ _ _ _ _ Hrun). do 3 f_equal.
  rewrite <- app_comm_cons, <- app_assoc. now apply skipBlock_block.
Qed.

(** One round of the loop of an entity, by the kind of the next token. *)
Lemma entityLoop_property (fuel line : nat) properties keys
  (k v : Token) ts s b :
  tok_type k = QuakeMapToken.String -> tok_type v = QuakeMapToken.String ->
  tok_data k ∉ keys ->
  entityLoop (S fuel) line properties keys (mkState (k :: v :: ts) s b) =
  entityLoop fuel line (properties ++ [(tok_data k, tok_data v)])
    ({[tok_data k]} ∪ keys) (mkState ts s b).
Proof.
  intros Hk Hv Hfresh. cbn [parseEntity_loop].
  erewrite bind_ok by (apply onTokenizer_eq, peekToken_cons).
  kinds. cbv iota. unfold parseEntityProperty.
  erewrite bind_ok.
  2:{ erewrite bind_ok by (apply onTokenizer_eq, nextToken_cons).
      erewrite bind_ok by (apply onTokenizer_eq, expect_ok; now kinds).
      erewrite bind_ok by (apply onTokenizer_eq, nextToken_cons).
      erewrite bind_ok by (apply onTokenizer_eq, expect_ok; now kinds).
      destruct (decide (tok_data k ∈ keys)); [contradiction | reflexivity]. }
  reflexivity.
Qed.

Lemma entityLoop_block (fuel line : nat) properties keys ts s b st' :
  tok_type (tokenAt 0 ts) = QuakeMapToken.OBrace ->
  blockParser (mkState ts s b) = (inr tt, st') ->
  entityLoop (S fuel) line properties keys (mkState ts s b) =
  entityLoop fuel line properties keys st'.
Proof.
  intros Ht Hblock. cbn [parseEntity_loop].
  erewrite bind_ok by (apply onTokenizer_eq; reflexivity).
  kinds. cbv iota. erewrite bind_ok by exact Hblock. reflexivity.
Qed.

Lemma brush_head (primitive : bool) (g : list Token)
  (faces : list (ParsedFace T)) (line : nat) (rest : list Token) :
  brushTokens toFloat zero m_sourceMapFormat trailingFields primitiveFields
    primitive g faces line ->
  tok_type (tokenAt 0 (g ++ rest)) = QuakeMapToken.OBrace /\
  (1 <= length g)%nat.
Proof. intros [ob cb fts fs Hob _ _]. simpl. split; [exact Hob | lia]. Qed.

Lemma entityLoop_close (fuel line : nat) properties keys (t : Token) ts s b :
  tok_type t = QuakeMapToken.CBrace ->
  entityLoop (S fuel) line properties keys (mkState (t :: ts) s b) =
    (inr tt, mkState ts s (b ++ [onEntityComplete properties line])).
Proof.
  intros Ht. cbn [parseEntity_loop].
  erewrite bind_ok by (apply onTokenizer_eq, peekToken_cons).
  kinds. cbv iota.
  erewrite bind_ok by (apply onTokenizer_eq, nextToken_cons). reflexivity.
Qed.

(** The properties of the grammar, with pairwise distinct keys, are
    accumulated in the order of the text. *)
Lemma entityLoop_properties (line : nat) (ptoks : list Token)
  (props : list EntityProperty) :
  propertyTokens ptoks props ->
  forall fuel properties keys tail s b,
    NoDup (properties ++ props).*1 ->
    (forall x, x ∈ keys -> x ∈ properties.*1) ->
    exists keys',
      entityLoop (length props + fuel) line properties keys
        (mkState (ptoks ++ tail) s b) =
      entityLoop fuel line (properties ++ props) keys' (mkState tail s b).
Proof.
  induction 1 as [ | k v ptoks props Hk Hv _ IH];
    intros fuel properties keys tail s b Hnodup Hkeys.
  - exists keys. simpl. now rewrite app_nil_r.
  - assert (Hfresh : tok_data k ∉ keys).
    { intros Hin. apply Hkeys in Hin.
      rewrite fmap_app, fmap_cons in Hnodup. simpl in Hnodup.
      apply NoDup_app in Hnodup as (_ & Hdisj & _).
      apply (Hdisj _ Hin). now left. }
    simpl length. simpl app. cbn [Nat.add].
    rewrite entityLoop_property by assumption.
    destruct (IH fuel (properties ++ [(tok_data k, tok_data v)])
                ({[tok_data k]} ∪ keys) tail s b) as [keys' Hrun].
    + now rewrite <- app_assoc.
    + intros x Hx. rewrite fmap_app. apply elem_of_app.
      apply elem_of_union in Hx as [Hx | Hx].
      * right. apply elem_of_singleton in Hx as ->. now left.
      * left. now apply Hkeys.
    + exists keys'. rewrite Hrun. now rewrite <- app_assoc.
Qed.

Lemma parseEntity_run (ob : Token) ts s b st' :
  tok_type ob = QuakeMapToken.OBrace ->
  entityLoop (S (length ts)) (tok_line ob) [] ∅ (mkState ts s b) = (inr tt, st') ->
  entityRule (mkState (ob :: ts) s b) = (inr tt, st').
Proof.
  intros Hob Hloop. unfold parseEntity. apply recovering_ok.
  erewrite bind_ok by (apply onTokenizer_eq, nextToken_cons).
  erewrite bind_ok by (apply onTokenizer_eq, expect_ok; now kinds).
  exact Hloop.
Qed.

(** A file that is one entity: the top level enters it and then meets the
    end of the input. *)
Lemma parseEntities_one (ob : Token) ts s b s' b' :
  tok_type ob = QuakeMapToken.OBrace ->
  entityRule (mkState (ob :: ts) s b) = (inr tt, mkState [] s' b') ->
  entitiesRule (mkState (ob :: ts) s b) = (inr tt, mkState [] s' b').
Proof.
  intros Hob Hentity. unfold parseEntities.
  cbn [m_tokenizer length parseEntities_loop].
  erewrite bind_ok by (apply onTokenizer_eq, peekToken_cons).
  kinds. cbv iota. erewrite bind_ok by exact Hentity.
  destruct (length ts); reflexivity.
Qed.
End Entities.

(** ** One malformed block does not stop the file *)

Section Isolation.
Context {T Face : Type}.
Variable toFloat : Token -> T.
Variable toInteger : Token -> Z.
Variable zero : T.
Variable m_sourceMapFormat : MapFormat.
Variable m_targetMapFormat : MapFormat.
Variable trailingFields : MapFormat -> nat.
Variable primitiveFields : nat.
Variable resolveFace : MapFormat -> MapFormat -> ParsedFace T -> Face.
Variable duplicatePolicy : DuplicatePolicy.

Local Abbreviation resolve := (resolveFace m_sourceMapFormat m_targetMapFormat).
Local Abbreviation blockRule :=
  (parseBlock (Face := Face) toFloat toInteger zero m_sourceMapFormat
     m_targetMapFormat trailingFields primitiveFields resolveFace).
Local Abbreviation blockParser :=
  (parseBrushOrBrushPrimitiveOrPatch (Face := Face) toFloat toInteger zero
     m_sourceMapFormat m_targetMapFormat trailingFields primitiveFields
     resolveFace).
Local Abbreviation entitiesRule :=
  (parseEntities (Face := Face) toFloat toInteger zero m_sourceMapFormat
     m_targetMapFormat trailingFields primitiveFields resolveFace
     duplicatePolicy).
Local Abbreviation wellFormedBrush :=
  (brushTokens toFloat zero m_sourceMapFormat trailingFields primitiveFields).

End Isolation.

(** ** Determinism and the keys of an entity *)

Section WholeParse.
Context {T Face : Type}.
Variable toFloat : Token -> T.
Variable toInteger : Token -> Z.
Variable zero : T.
Variable m_sourceMapFormat : MapFormat.
Variable m_targetMapFormat : MapFormat.
Variable trailingFields : MapFormat -> nat.
Variable primitiveFields : nat.
Variable resolveFace : MapFormat -> MapFormat -> ParsedFace T -> Face.
Variable duplicatePolicy : DuplicatePolicy.

Local Abbreviation TT := (fun _ => True).
Local Abbreviation propertyRule :=
  (parseEntityProperty (T := T) (Face := Face) duplicatePolicy).
Local Abbreviation entitiesRule :=
  (parseEntities (Face := Face) toFloat toInteger zero m_sourceMapFormat
     m_targetMapFormat trailingFields primitiveFields resolveFace
     duplicatePolicy).

(** The rule for one property, by what it may return. *)
Lemma framed_parseEntityProperty (P : BuilderCall T Face -> Prop)
  (R : list EntityProperty * EntityPropertyKeys -> Prop)
  (properties : list EntityProperty) (keys : EntityPropertyKeys) :
  (forall k : string, k ∈ keys -> R (properties, keys)) ->
  (forall k v : string, k ∈ keys ->
     R (map (fun kv : EntityProperty =>
               if decide (kv.1 = k) then (k, v) else kv) properties, keys)) ->
  (forall k v : string, k ∉ keys ->
     R (properties ++ [(k, v)], {[k]} ∪ keys)) ->
  framed P R (propertyRule properties keys).
Proof.
  intros Hfirst Hlast Hfresh. unfold parseEntityProperty.
  eapply framed_bind; [apply framed_onTokenizer | intros t _].
  eapply framed_bind; [apply framed_onTokenizer | intros k _].
  eapply framed_bind; [apply framed_onTokenizer | intros t' _].
  eapply framed_bind; [apply framed_onTokenizer | intros v _].
  destruct (decide (tok_data k ∈ keys)) as [Hin | Hout].
  - destruct duplicatePolicy.
    + apply framed_ret. eapply Hfirst, Hin.
    + apply framed_ret. apply Hlast, Hin.
    + apply framed_throw.
  - apply framed_ret. apply Hfresh, Hout.
Qed.

Lemma keysRecorded_step (P : BuilderCall T Face -> Prop)
  (properties : list EntityProperty) (keys : EntityPropertyKeys) :
  keysRecorded properties keys ->
  framed P (fun pk => keysRecorded pk.1 pk.2) (propertyRule properties keys).
Proof.
  intros [Hnodup Hkeys]. apply framed_parseEntityProperty.
  - intros _ _. now split.
  - intros k v _. simpl.
    assert (Hfst : (map (fun kv : EntityProperty =>
               if decide (kv.1 = k) then (k, v) else kv) properties).*1
            = properties.*1).
    { clear. induction properties as [ | [k' v'] ps IH]; [reflexivity | ].
      rewrite map_cons, !fmap_cons, IH. f_equal. simpl.
      now destruct (decide (k' = k)). }
    unfold keysRecorded. simpl. rewrite Hfst. now split.
  - intros k v Hfresh. unfold keysRecorded. simpl. rewrite fmap_app. simpl. split.
    + apply NoDup_app. split; [exact Hnodup | ]. split.
      * intros x Hx Hx'. apply list_elem_of_singleton in Hx' as ->.
        now apply Hfresh, Hkeys.
      * apply NoDup_singleton.
    + intros x. rewrite elem_of_union, elem_of_singleton, elem_of_app,
        list_elem_of_singleton, Hkeys. tauto.
Qed.

(** The parse only adds to the status sink and to the builder's record:
    its result, the tokens it leaves, the diagnostics [ds] and the
    constructs [db] it adds are the same whatever the two sinks held
    before. *)
Lemma parse_appends_to_the_sinks (text : list Token)
  (s1 s2 : list StatusCall) (b1 b2 : list (BuilderCall T Face)) :
  exists r rest ds db,
    entitiesRule (mkState text s1 b1) =
      (r, mkState rest (s1 ++ ds) (b1 ++ db)) /\
    entitiesRule (mkState text s2 b2) =
      (r, mkState rest (s2 ++ ds) (b2 ++ db)).
Proof.
  destruct (framed_parseEntities toFloat toInteger zero m_sourceMapFormat
              m_targetMapFormat trailingFields primitiveFields resolveFace
              duplicatePolicy TT (fun _ _ => I) (fun _ _ => I)
              (fun _ _ => True) I) with (ts := text)
    as (r & rest & ds & db & _ & _ & Hrun).
  - intros properties keys _. now apply framed_parseEntityProperty.
  - easy.
  - exists r, rest, ds, db. split; apply Hrun.
Qed.

(** C6: one step of [parseEntityProperty] keeps the keys of the
    accumulated properties pairwise distinct, with [keys] the set of them,
    under each policy for a repeated key; and in every entity the parse of
    a file hands to the builder, no two properties share a key. Keys are
    compared as strings, so keys that differ in case are distinct. *)
Theorem entity_keys_are_unique (properties : list EntityProperty)
  (keys : EntityPropertyKeys) (st : ParserState T Face) :
  keysRecorded properties keys ->
  (forall pk st', propertyRule properties keys st = (inr pk, st') ->
     keysRecorded pk.1 pk.2) /\
  (forall text s,
     Forall uniqueKeys (builder (entitiesRule (mkState text s [])).2)).
Proof.
  intros Hinv. split.
  - intros pk st' Hrun. destruct st as [ts s b].
    destruct (keysRecorded_step TT properties keys Hinv ts)
      as (r & ts' & ds & db & _ & HR & Hrun').
    rewrite Hrun' in Hrun. injection Hrun as -> _. now apply HR.
  - intros text s.
    destruct (framed_parseEntities toFloat toInteger zero m_sourceMapFormat
                m_targetMapFormat trailingFields primitiveFields resolveFace
                duplicatePolicy uniqueKeys (fun _ _ => I) (fun _ _ => I)
                keysRecorded) with (ts := text)
      as (r & rest & ds & db & Hdb & _ & Hrun).
    + split; [constructor | ]. intros x. rewrite fmap_nil. set_solver.
    + intros props ks. apply keysRecorded_step.
    + intros props ks line [Hnodup _]. exact Hnodup.
    + rewrite Hrun. simpl. exact Hdb.
Qed.
End WholeParse.

(** ** Telling a brush primitive from a plain brush *)

Lemma bind_inr {St A B} (m : Throws St A) (k : A -> Throws St B) s b s' :
  bind m k s = (inr b, s') ->
  exists a s1, m s = (inr a, s1) /\ k a s1 = (inr b, s').
Proof.
  unfold bind. destruct (m s) as [[e | a] s1]; [discriminate | eauto].
Qed.

Section Dispatch.
Context {T Face : Type}.
Variable toFloat : Token -> T.
Variable toInteger : Token -> Z.
Variable zero : T.
Variable m_sourceMapFormat : MapFormat.
Variable m_targetMapFormat : MapFormat.
Variable trailingFields : MapFormat -> nat.
Variable primitiveFields : nat.
Variable resolveFace : MapFormat -> MapFormat -> ParsedFace T -> Face.

Local Abbreviation TT := (fun _ => True).
Local Abbreviation resolve := (resolveFace m_sourceMapFormat m_targetMapFormat).
Local Abbreviation faceRule :=
  (parseFace toFloat zero m_sourceMapFormat trailingFields primitiveFields).
Local Abbreviation brushLoop :=
  (parseBrush_loop (Face := Face) toFloat zero m_sourceMapFormat
     m_targetMapFormat trailingFields primitiveFields resolveFace).
Local Abbreviation brushRule :=
  (parseBrush (Face := Face) toFloat zero m_sourceMapFormat
     m_targetMapFormat trailingFields primitiveFields resolveFace).
Local Abbreviation blockRule :=
  (parseBlock (Face := Face) toFloat toInteger zero m_sourceMapFormat
     m_targetMapFormat trailingFields primitiveFields resolveFace).
Local Abbreviation primitiveBrush :=
  (brushTokens toFloat zero m_sourceMapFormat trailingFields primitiveFields
     true).

(** Whatever the rule for brush primitives returns carries the two axes
    of a primitive. *)
Lemma parseFace_primitive (ts ts' : list Token) (face : ParsedFace T) :
  faceRule true ts = (inr face, ts') -> isPrimitiveFace face.
Proof.
  unfold parseFace, parsePrimitiveFace. intros Hrun.
  do 5 (apply bind_inr in Hrun as (? & ? & _ & Hrun)).
  apply bind_inr in Hrun as (axes & ? & Haxes & Hrun).
  do 2 (apply bind_inr in Hrun as (? & ? & _ & Hrun)).
  injection Hrun as <- _.
  unfold parsePrimitiveTextureAxes in Haxes.
  do 2 (apply bind_inr in Haxes as (? & ? & _ & Haxes)).
  injection Haxes as <- _. unfold isPrimitiveFace. simpl. eauto.
Qed.

Lemma framed_onTokenizer_result {A} (P : BuilderCall T Face -> Prop)
  (R : A -> Prop) (m : Tok A) :
  (forall ts a ts', m ts = (inr a, ts') -> R a) ->
  framed P R (onTokenizer m).
Proof.
  intros HR ts. destruct (m ts) as [r ts'] eqn:Hm.
  exists r, ts', [], []. split; [constructor | ].
  split; [intros a ->; eapply HR, Hm | ].
  intros s b. unfold onTokenizer. simpl. now rewrite Hm, !app_nil_r.
Qed.

(** The loop of a brush primitive only ever hands over faces read by the
    rule for brush primitives. *)
Lemma framed_primitive_loop (fuel line : nat) (parsed : list (ParsedFace T)) :
  Forall isPrimitiveFace parsed ->
  framed (primitiveBrushCall resolve) TT
    (brushLoop fuel line true (map resolve parsed)).
Proof.
  revert parsed. induction fuel as [ | fuel IH]; intros parsed Hparsed; simpl.
  - now apply framed_ret.
  - eapply framed_bind; [apply framed_onTokenizer | intros t _].
    destruct (hasType QuakeMapToken.OParenthesis t).
    + eapply framed_bind.
      * apply (framed_onTokenizer_result _ isPrimitiveFace).
        intros ts a ts'. apply parseFace_primitive.
      * intros face Hface. cbv beta.
        replace (map resolve parsed ++ [resolve face])
          with (map resolve (parsed ++ [face])) by now rewrite map_app.
        apply IH. apply Forall_app. split; [exact Hparsed | now constructor].
    + destruct (hasType QuakeMapToken.CBrace t).
      * eapply framed_bind; [apply framed_onTokenizer | intros _ _].
        apply framed_deliver. simpl. eauto.
      * eapply framed_bind; [apply framed_onTokenizer | intros _ _].
        now apply framed_ret.
Qed.

End Dispatch.

(** ** Patches *)

Section Patches.
Context {T Face : Type}.
Variable toFloat : Token -> T.
Variable toInteger : Token -> Z.
Variable zero : T.
Variable m_sourceMapFormat : MapFormat.
Variable m_targetMapFormat : MapFormat.
Variable trailingFields : MapFormat -> nat.
Variable primitiveFields : nat.
Variable resolveFace : MapFormat -> MapFormat -> ParsedFace T -> Face.

Local Abbreviation controlPoint :=
  (vectorTokens toFloat 5 QuakeMapToken.OParenthesis QuakeMapToken.CParenthesis).
Local Abbreviation patchRule :=
  (parsePatch (Face := Face) toFloat toInteger zero).
Local Abbreviation blockRule :=
  (parseBlock (Face := Face) toFloat toInteger zero m_sourceMapFormat
     m_targetMapFormat trailingFields primitiveFields resolveFace).
Local Abbreviation blockParser :=
  (parseBrushOrBrushPrimitiveOrPatch (Face := Face) toFloat toInteger zero
     m_sourceMapFormat m_targetMapFormat trailingFields primitiveFields
     resolveFace).

Lemma parseControlPoint_app (line : nat) (rows columns : Z)
  (g : list Token) (v : list T) (rest : list Token) :
  controlPoint g v ->
  parseControlPoint toFloat zero line rows columns (g ++ rest) = (inr v, rest).
Proof.
  intros Hg. unfold parseControlPoint.
  assert (Hhead : tok_type (tokenAt 0 (g ++ rest)) = QuakeMapToken.OParenthesis)
    by now destruct Hg.
  erewrite bind_ok by reflexivity.
  kinds. cbv iota.
  apply parseFloatVector_app; [simpl; tauto | simpl; tauto | exact Hg].
Qed.

Lemma parseControlPointRow_app (line : nat) (rows columns : Z)
  (row : list (list Token)) (points : list (list T)) (rest : list Token) :
  Forall2 controlPoint row points ->
  parseControlPointRow toFloat zero line rows columns (length row)
    (concat row ++ rest) = (inr points, rest).
Proof.
  induction 1 as [ | g v row points Hg _ IH]; [reflexivity | ].
  cbn [length parseControlPointRow]. rewrite concat_cons, <- app_assoc.
  erewrite bind_ok by (apply parseControlPoint_app, Hg).
  erewrite bind_ok by exact IH. reflexivity.
Qed.

Lemma parseControlPointRows_app (line : nat) (rows columns : Z) (n : nat)
  (rowToks : list (list (list Token))) (grid : list (list (list T)))
  (rest : list Token) :
  gridTokens toFloat rowToks grid ->
  Forall (fun row => length row = n) rowToks ->
  parseControlPointRows toFloat zero line rows columns (length rowToks) n
    (concat (concat rowToks) ++ rest) = (inr grid, rest).
Proof.
  intros Hgrid. induction Hgrid as [ | row points rowToks grid Hrow _ IH];
    intros Hlen; [reflexivity | ].
  apply Forall_cons in Hlen as [<- Hlen].
  cbn [length parseControlPointRows].
  rewrite concat_cons, concat_app, <- app_assoc.
  erewrite bind_ok by (apply parseControlPointRow_app, Hrow).
  erewrite bind_ok by (apply IH, Hlen). reflexivity.
Qed.

(** C5: a patch block that declares a grid of [rows] by [columns]. When
    both counts are odd and at least 3 and the block holds [rows] rows of
    [columns] control points, the points are read row after row and the
    patch, with the grid as declared, is handed to the builder. When a
    count is even or below 3 the rule throws [MalformedPatchGridError]
    before any control point is read: no patch is handed over (the grid
    is not clamped), and the block parser reports the error and resumes
    after the block as for any other error. *)
Theorem patch_grid_is_validated (ob kw ob2 tex tr tc : Token)
  (rows columns : Z) (s : list StatusCall) (b : list (BuilderCall T Face)) :
  tok_type ob = QuakeMapToken.OBrace ->
  tok_type kw = QuakeMapToken.String -> tok_data kw = PatchId ->
  tok_type ob2 = QuakeMapToken.OBrace ->
  tok_type tex = QuakeMapToken.String ->
  tok_type tr = QuakeMapToken.Integer -> toInteger tr = rows ->
  tok_type tc = QuakeMapToken.Integer -> toInteger tc = columns ->
  (3 <= rows /\ Z.odd rows = true /\ 3 <= columns /\ Z.odd columns = true ->
   forall rowToks grid (cb2 cb : Token) rest,
     gridTokens toFloat rowToks grid ->
     length rowToks = Z.to_nat rows ->
     Forall (fun row => length row = Z.to_nat columns) rowToks ->
     tok_type cb2 = QuakeMapToken.CBrace ->
     tok_type cb = QuakeMapToken.CBrace ->
     blockParser
       (mkState (ob :: kw :: ob2 :: tex :: tr :: tc ::
                 concat (concat rowToks) ++ cb2 :: cb :: rest) s b) =
     (inr tt,
      mkState rest s
        (b ++ [onPatchComplete (mkPatch (tok_data tex) rows columns grid)
                 (tok_line ob)]))) /\
  (rows < 3 \/ Z.even rows = true \/ columns < 3 \/ Z.even columns = true ->
   forall tail,
     blockRule (mkState (ob :: kw :: ob2 :: tex :: tr :: tc :: tail) s b) =
     (inl (MalformedPatchGridError (tok_line tr) rows columns),
      mkState tail s b) /\
     blockParser (mkState (ob :: kw :: ob2 :: tex :: tr :: tc :: tail) s b) =
     (inr tt,
      mkState (skipBlock 0 (ob :: kw :: ob2 :: tex :: tr :: tc :: tail))
        (s ++ [error (tok_line tr)
                 (MalformedPatchGridError (tok_line tr) rows columns)]) b)).
Proof.
  intros Hob Hkw Hid Hob2 Htex Htr Hrows Htc Hcolumns.
  (* the block is handed to the patch rule *)
  assert (Hdispatch : forall tail,
    blockRule (mkState (ob :: kw :: ob2 :: tex :: tr :: tc :: tail) s b) =
    patchRule (tok_line ob)
      (mkState (kw :: ob2 :: tex :: tr :: tc :: tail) s b)).
  { intros tail. rewrite parseBlock_dispatch by exact Hob.
    unfold tokenAt. cbn [nth]. kinds. rewrite Hid.
    now rewrite bool_decide_eq_true_2. }
  split.
  - intros (Hr3 & Hrodd & Hc3 & Hcodd) rowToks grid cb2 cb rest
      Hgrid Hlen Hrowlen Hcb2 Hcb.
    apply recovering_ok. rewrite Hdispatch. unfold parsePatch.
    erewrite bind_ok.
    2:{ apply onTokenizer_eq.
        take_token. take_token.
        erewrite bind_ok by (apply parseTextureName_cons, Htex).
        erewrite bind_ok by apply peekToken_cons.
        erewrite bind_ok
          by (unfold parseInteger; take_token; rewrite Hrows; reflexivity).
        erewrite bind_ok
          by (unfold parseInteger; take_token; rewrite Hcolumns; reflexivity).
        unfold validGridCount. rewrite Hrodd, Hcodd.
        rewrite (proj2 (Z.leb_le 3 rows) Hr3), (proj2 (Z.leb_le 3 columns) Hc3).
        cbn [andb]. rewrite <- Hlen.
        erewrite bind_ok by (apply parseControlPointRows_app; eassumption).
        erewrite bind_ok by apply peekToken_cons.
        kinds. cbv iota. take_token. take_token. reflexivity. }
    reflexivity.
  - intros Hinvalid tail.
    assert (Hthrow :
      blockRule (mkState (ob :: kw :: ob2 :: tex :: tr :: tc :: tail) s b) =
      (inl (MalformedPatchGridError (tok_line tr) rows columns),
       mkState tail s b)).
    { rewrite Hdispatch. unfold parsePatch.
      erewrite bind_throw; [reflexivity | ]. apply onTokenizer_eq.
      take_token. take_token.
      erewrite bind_ok by (apply parseTextureName_cons, Htex).
      erewrite bind_ok by apply peekToken_cons.
      erewrite bind_ok
        by (unfold parseInteger; take_token; rewrite Hrows; reflexivity).
      erewrite bind_ok
        by (unfold parseInteger; take_token; rewrite Hcolumns; reflexivity).
      replace (validGridCount rows && validGridCount columns) with false;
        [reflexivity | ].
      symmetry. apply andb_false_iff. unfold validGridCount.
      rewrite !andb_false_iff, !Z.leb_gt, <- !Z.negb_even, !negb_false_iff.
      tauto. }
    split; [exact Hthrow | ].
    unfold parseBrushOrBrushPrimitiveOrPatch.
    now rewrite (recovering_throw _ _ _ _ _ _ _ _ Hthrow).
Qed.
End Patches.

(** ** Examples *)

Module SampleFacts.
Import QuakeMapToken Samples.

(** The spec's example scenario: one entity with one property and one
    brush with one face. *)
Example scenario_parse :
  parse Standard Standard FirstWriteWins scenario =
    (inr tt,
     mkState [] []
       [onBrushComplete
          [mkParsedFace ([0; 0; 0], [0; 1; 0], [1; 0; 0]) "tex" ImplicitAxes
             [0; 0; 0; 1; 1]] 2;
        onEntityComplete [("classname", "worldspawn")] 1]).
Proof. reflexivity. Qed.

(** Keys are compared as strings: two keys that differ in case are both
    kept. *)
Example keys_case_sensitive :
  parse Standard Standard FirstWriteWins
    [obrace 1; str 1 "Key"; str 1 "a"; str 2 "key"; str 2 "b"; cbrace 3] =
    (inr tt,
     mkState [] [] [onEntityComplete [("Key", "a"); ("key", "b")] 1]).
Proof. reflexivity. Qed.

(** A repeated key under the three policies. *)
Example repeated_key :
  let text :=
    [obrace 1; str 1 "k"; str 1 "a"; str 2 "k"; str 2 "b"; cbrace 3] in
  builder (parse Standard Standard FirstWriteWins text).2 =
    [onEntityComplete [("k", "a")] 1] /\
  builder (parse Standard Standard LastWriteWins text).2 =
    [onEntityComplete [("k", "b")] 1] /\
  (parse Standard Standard RejectDuplicate text).2 =
    mkState [] [error 2 (DuplicateKeyError 2 "k")] [].
Proof. repeat split. Qed.

Lemma point_tokens (line : nat) (x y z : string) :
  vectorTokens toFloat 3 OParenthesis CParenthesis (point line x y z)
    [digits x 0; digits y 0; digits z 0].
Proof.
  apply (vectorTokens_intro toFloat 3 OParenthesis CParenthesis
           (oparen line) (cparen line) [int line x; int line y; int line z]);
    try reflexivity.
  repeat constructor.
Qed.

Lemma standardFace_tokens (line : nat) (tex : string) :
  faceTokens toFloat 0 Standard trailingFields (standardFace line tex)
    (mkParsedFace ([0; 0; 0], [0; 1; 0], [1; 0; 0]) tex ImplicitAxes
       [0; 0; 0; 1; 1]).
Proof.
  apply (faceTokens_implicit toFloat 0 Standard trailingFields
           (point line "0" "0" "0" ++ point line "0" "1" "0"
            ++ point line "1" "0" "0")
           ([0; 0; 0], [0; 1; 0], [1; 0; 0]) (str line tex)
           [int line "0"; int line "0"; int line "0"; int line "1";
            int line "1"] [0; 0; 0; 1; 1]).
  - reflexivity.
  - apply (pointsTokens_intro toFloat); apply point_tokens.
  - reflexivity.
  - apply (fieldTokens_intro toFloat 5
             [int line "0"; int line "0"; int line "0"; int line "1";
              int line "1"]); [reflexivity | ].
    repeat constructor.
Qed.

(** A brush of the Standard dialect with one face. *)
Lemma standardBrush_tokens (line : nat) (tex : string) :
  brushTokens toFloat 0 Standard trailingFields 3 false
    (obrace line :: standardFace line tex ++ [cbrace line])
    [mkParsedFace ([0; 0; 0], [0; 1; 0], [1; 0; 0]) tex ImplicitAxes
       [0; 0; 0; 1; 1]] line.
Proof.
  apply (brushTokens_intro toFloat 0 Standard trailingFields 3 false
           (obrace line) (cbrace line) [standardFace line tex]);
    try reflexivity.
  repeat constructor. apply standardFace_tokens.
Qed.

Lemma primitiveFace_tokens (line : nat) (tex : string) :
  primitiveFaceTokens toFloat 3 (primitiveFace line tex)
    (mkParsedFace ([0; 0; 0], [0; 1; 0], [1; 0; 0]) tex
       (PrimitiveAxes [1; 0; 0] [0; 1; 0]) [0; 0; 0]).
Proof.
  apply (primitiveFaceTokens_intro toFloat 3 (oparen line)
           (point line "0" "0" "0" ++ point line "0" "1" "0"
            ++ point line "1" "0" "0")
           ([0; 0; 0], [0; 1; 0], [1; 0; 0]) (cparen line)
           (point line "1" "0" "0") [1; 0; 0]
           (point line "0" "1" "0") [0; 1; 0] (str line tex)
           [int line "0"; int line "0"; int line "0"] [0; 0; 0]).
  - reflexivity.
  - apply (pointsTokens_intro toFloat); apply point_tokens.
  - reflexivity.
  - apply point_tokens.
  - apply point_tokens.
  - reflexivity.
  - apply (fieldTokens_intro toFloat 3
             [int line "0"; int line "0"; int line "0"]); [reflexivity | ].
    repeat constructor.
Qed.

(** A brush primitive with one face. *)
Lemma primitiveBrush_tokens (line : nat) (tex : string) :
  brushTokens toFloat 0 Standard trailingFields 3 true
    (obrace line :: primitiveFace line tex ++ [cbrace line])
    [mkParsedFace ([0; 0; 0], [0; 1; 0], [1; 0; 0]) tex
       (PrimitiveAxes [1; 0; 0] [0; 1; 0]) [0; 0; 0]] line.
Proof.
  apply (brushTokens_intro toFloat 0 Standard trailingFields 3 true
           (obrace line) (cbrace line) [primitiveFace line tex]);
    try reflexivity.
  apply List.Forall2_cons; [apply primitiveFace_tokens | apply List.Forall2_nil].
Qed.

Lemma controlPoint_tokens (line : nat) :
  vectorTokens toFloat 5 OParenthesis CParenthesis (controlPoint line)
    [0; 0; 0; 0; 0].
Proof.
  apply (vectorTokens_intro toFloat 5 OParenthesis CParenthesis
           (oparen line) (cparen line)
           [int line "0"; int line "0"; int line "0"; int line "0";
            int line "0"]);
    try reflexivity.
  repeat constructor.
Qed.
End SampleFacts.

(** ** The theorems at concrete inputs *)

Lemma parseFloatVector_succeeds_iff_witness :
  (parseFloatVector Samples.toFloat 0 3 QuakeMapToken.OParenthesis
     QuakeMapToken.CParenthesis (Samples.point 1 "1" "2" "3")).2 = [] /\
  length [1; 2; 3] = 3%nat.
Proof.
  destruct (parseFloatVector_succeeds_iff Samples.toFloat 0 3
              QuakeMapToken.OParenthesis QuakeMapToken.CParenthesis
              (Samples.point 1 "1" "2" "3")) as [_ Hresult].
  - simpl; tauto.
  - simpl; tauto.
  - repeat constructor; simpl; tauto.
  - destruct (Hresult [1; 2; 3] eq_refl) as (Hrest & Hlen & _).
    split; [exact Hrest | exact Hlen].
Defined.

Lemma parseFloatVector_throw_keeps_position_witness :
  parseFloatVector Samples.toFloat 0 3 QuakeMapToken.OParenthesis
    QuakeMapToken.CParenthesis
    [Samples.oparen 1; Samples.int 1 "1"; Samples.str 1 "x";
     Samples.int 1 "3"; Samples.cparen 1] =
  (inl (UnexpectedTokenError QuakeMapToken.Number (Samples.str 1 "x")),
   [Samples.int 1 "3"; Samples.cparen 1]).
Proof.
  refine (proj1 (parseFloatVector_throw_keeps_position Samples.toFloat 0 3
    QuakeMapToken.OParenthesis QuakeMapToken.CParenthesis
    [Samples.oparen 1; Samples.int 1 "1"; Samples.str 1 "x";
     Samples.int 1 "3"; Samples.cparen 1] 2 _ _ _)).
  - lia.
  - intros [ | [ | j]] Hj; [reflexivity | reflexivity | lia].
  - reflexivity.
Defined.




Lemma patch_grid_is_validated_witness :
  (* a grid of 3 by 3 *)
  parseBrushOrBrushPrimitiveOrPatch Samples.toFloat Samples.toInteger 0
    Standard Standard Samples.trailingFields 3 Samples.resolveFace
    (mkState
       (Samples.patchHead "3" "3"
        ++ concat (concat (replicate 3 (replicate 3 (Samples.controlPoint 3))))
        ++ [Samples.cbrace 4; Samples.cbrace 5]) [] []) =
  (inr tt,
   mkState [] []
     [onPatchComplete
        (mkPatch "tex" 3 3 (replicate 3 (replicate 3 [0; 0; 0; 0; 0]))) 1]) /\
  (* a grid of 3 by 2 *)
  parseBrushOrBrushPrimitiveOrPatch Samples.toFloat Samples.toInteger 0
    Standard Standard Samples.trailingFields 3 Samples.resolveFace
    (mkState
       (Samples.patchHead "3" "2"
        ++ concat (replicate 6 (Samples.controlPoint 3))
        ++ [Samples.cbrace 4; Samples.cbrace 5]) [] []) =
  (inr tt,
   mkState [] [error 2 (MalformedPatchGridError 2 3 2)]
     ([] : list (BuilderCall Z (ParsedFace Z)))).
Proof.
  split.
  - refine (proj1 (patch_grid_is_validated Samples.toFloat Samples.toInteger 0
      Standard Standard Samples.trailingFields 3 Samples.resolveFace
      (Samples.obrace 1) (Samples.str 1 PatchId) (Samples.obrace 1)
      (Samples.str 2 "tex") (Samples.int 2 "3") (Samples.int 2 "3") 3 3 [] []
      eq_refl eq_refl eq_refl eq_refl eq_refl eq_refl eq_refl eq_refl eq_refl)
      _ (replicate 3 (replicate 3 (Samples.controlPoint 3)))
      (replicate 3 (replicate 3 [0; 0; 0; 0; 0]))
      (Samples.cbrace 4) (Samples.cbrace 5) [] _ _ _ eq_refl eq_refl).
    + repeat split; lia.
    + repeat constructor; apply SampleFacts.controlPoint_tokens.
    + reflexivity.
    + repeat constructor.
  - refine (proj2 (proj2 (patch_grid_is_validated Samples.toFloat
      Samples.toInteger 0 Standard Standard Samples.trailingFields 3
      Samples.resolveFace
      (Samples.obrace 1) (Samples.str 1 PatchId) (Samples.obrace 1)
      (Samples.str 2 "tex") (Samples.int 2 "3") (Samples.int 2 "2") 3 2 [] []
      eq_refl eq_refl eq_refl eq_refl eq_refl eq_refl eq_refl eq_refl eq_refl)
      _ (concat (replicate 6 (Samples.controlPoint 3))
         ++ [Samples.cbrace 4; Samples.cbrace 5]))).
    right. right. right. reflexivity.
Defined.

Lemma entity_keys_are_unique_witness :
  keysRecorded [("classname", "worldspawn"); ("wad", "base.wad")]
    ({["wad"]} ∪ {["classname"]}).
Proof.
  refine (proj1 (entity_keys_are_unique Samples.toFloat Samples.toInteger 0
    Standard Standard Samples.trailingFields 3 Samples.resolveFace
    FirstWriteWins [("classname", "worldspawn")] {["classname"]}
    (mkState [Samples.str 2 "wad"; Samples.str 2 "base.wad"] [] []) _)
    ([("classname", "worldspawn"); ("wad", "base.wad")],
     {["wad"]} ∪ {["classname"]})
    (mkState [] [] []) _).
  - split; [repeat constructor; set_solver | ].
    intros x. simpl. now rewrite elem_of_singleton, list_elem_of_singleton.
  - unfold parseEntityProperty.
    erewrite bind_ok by (apply onTokenizer_eq, nextToken_cons).
    erewrite bind_ok by (apply onTokenizer_eq, expect_ok; reflexivity).
    erewrite bind_ok by (apply onTokenizer_eq, nextToken_cons).
    erewrite bind_ok by (apply onTokenizer_eq, expect_ok; reflexivity).
    destruct (decide _) as [Hin | Hout]; [ | reflexivity].
    exfalso. simpl in Hin. set_solver.
Defined.

(** * [Model::NodeCollection] *)

Module NodesFacts.
Import Nodes.

Lemma std_remove_live (v : list NodePtr) (e : nat) (x : NodePtr) :
  (e <= length v)%nat ->
  ((std_remove v e x).2 <= length (std_remove v e x).1)%nat /\
  take (std_remove v e x).2 (std_remove v e x).1 =
    filter (fun y => y <> x) (take e v).
Proof.
  intros He. unfold std_remove. simpl.
  pose proof (length_filter (fun y => y <> x) (take e v)) as Hlen.
  rewrite length_take in Hlen. split.
  - rewrite length_app, length_drop. lia.
  - apply take_app_length.
Qed.

Lemma in_take (n : nat) (v : list NodePtr) (x : NodePtr) :
  x ∈ take n v -> x ∈ v.
Proof.
  intros Hx. rewrite <- (take_drop n v). apply elem_of_app. now left.
Qed.

Lemma in_drop (n : nat) (v : list NodePtr) (x : NodePtr) :
  x ∈ drop n v -> x ∈ v.
Proof.
  intros Hx. rewrite <- (take_drop n v). apply elem_of_app. now right.
Qed.

Section WithKinds.
Variable kindOf : NodePtr -> NodeKind.

(** What one round of the loop does to one of the six vectors. *)
Lemma removeStep_rangeOf (vec : Vector) (cur : NodePtr) (r : Removal) :
  rangeOf vec (removeStep kindOf cur r) =
  if holds vec (kindOf cur)
  then std_remove (rangeOf vec r).1 (rangeOf vec r).2 cur
  else rangeOf vec r.
Proof.
  unfold removeStep. destruct vec, (kindOf cur); reflexivity.
Qed.

Lemma without_nil (K : NodeKind -> bool) (v : list NodePtr) :
  without kindOf K [] v = v.
Proof.
  unfold without. induction v as [ | y v IH]; [reflexivity | ].
  rewrite filter_cons_True, IH; [reflexivity | ].
  intros [Hin _]. inversion Hin.
Qed.

Lemma without_cons (K : NodeKind -> bool) (cur : NodePtr)
  (range v : list NodePtr) :
  without kindOf K (cur :: range) v =
  without kindOf K range
    (if K (kindOf cur) then filter (fun y => y <> cur) v else v).
Proof.
  unfold without. destruct (K (kindOf cur)) eqn:HK.
  - rewrite list_filter_filter. apply list_filter_iff. intros y.
    rewrite elem_of_cons. split.
    + intros Hy. split; [intros [Hin HKy]; apply Hy; auto | ].
      intros ->. apply Hy. auto.
    + intros [Hrange Hne] [[-> | Hin] HKy]; [now apply Hne | apply Hrange; auto].
  - apply list_filter_iff. intros y. rewrite elem_of_cons. split.
    + intros Hy [Hin HKy]. apply Hy. auto.
    + intros Hy [[-> | Hin] HKy]; [congruence | apply Hy; auto].
Qed.

(** The rounds for nodes none of which is null leave, in the live part of
    each vector, what was there without those nodes. *)
Lemma removeEach_live (values : list NodePtr) (r : Removal) :
  Forall (fun n => n <> 0%N) values ->
  (forall vec, ((rangeOf vec r).2 <= length (rangeOf vec r).1))%nat ->
  exists r', removeEach kindOf values r = Done r' /\
    forall vec,
      take (rangeOf vec r').2 (rangeOf vec r').1 =
      without kindOf (holds vec) values
        (take (rangeOf vec r).2 (rangeOf vec r).1).
Proof.
  intros Hvalues. revert r.
  induction Hvalues as [ | cur values Hcur _ IH]; intros r Hends.
  - exists r. split; [reflexivity | ]. intros vec. now rewrite without_nil.
  - simpl. destruct (N.eqb_spec cur 0) as [-> | _]; [contradiction | ].
    destruct (IH (removeStep kindOf cur r)) as (r' & Hrun & Hlive).
    + intros vec. rewrite removeStep_rangeOf.
      destruct (holds vec (kindOf cur)); [ | apply Hends].
      apply std_remove_live, Hends.
    + exists r'. split; [exact Hrun | ]. intros vec.
      rewrite Hlive, without_cons, removeStep_rangeOf.
      destruct (holds vec (kindOf cur)); [ | reflexivity].
      f_equal. apply std_remove_live, Hends.
Qed.

Lemma removeEach_null (values : list NodePtr) (r : Removal) :
  ~ Forall (fun n => n <> 0%N) values ->
  removeEach kindOf values r = NullDereference.
Proof.
  revert r. induction values as [ | cur values IH]; intros r Hnull.
  - exfalso. apply Hnull. constructor.
  - simpl. destruct (N.eqb_spec cur 0) as [-> | Hcur]; [reflexivity | ].
    apply IH. intros Hvalues. apply Hnull. now constructor.
Qed.

Lemma removeLoop_S (range : Range) (count i : nat) (r : Removal) :
  removeLoop kindOf range (S count) i r =
  match deref range r i with
  | None => Done r
  | Some cur =>
      if (cur =? 0)%N then NullDereference
      else removeLoop kindOf range count (S i) (removeStep kindOf cur r)
  end.
Proof. reflexivity. Qed.

(** The loop is the rounds for the nodes it reads. *)
Lemma removeLoop_nodesRead (range : Range) (count i : nat) (r : Removal) :
  removeLoop kindOf range count i r =
  removeEach kindOf (nodesRead kindOf range count i r) r.
Proof.
  revert i r. induction count as [ | count IH]; intros i r; [reflexivity | ].
  simpl. destruct (deref range r i) as [cur | ]; [ | reflexivity].
  simpl. destruct (N.eqb_spec cur 0) as [-> | _]; [reflexivity | apply IH].
Qed.

(** From a vector of the caller the loop reads the vector. *)
Lemma removeLoop_separate (vector : list NodePtr) (count i : nat)
  (r : Removal) :
  count = length (drop i vector) ->
  removeLoop kindOf (Separate vector) count i r =
  removeEach kindOf (drop i vector) r.
Proof.
  revert i r. induction count as [ | count IH]; intros i r Hcount.
  - symmetry in Hcount. apply length_zero_iff_nil in Hcount.
    now rewrite Hcount.
  - destruct (vector !! i) as [cur | ] eqn:Hcur.
    + rewrite (drop_S vector cur i Hcur) in Hcount |- *.
      simpl. rewrite Hcur.
      destruct (N.eqb_spec cur 0) as [-> | _]; [reflexivity | ].
      apply IH. simpl in Hcount. lia.
    + apply lookup_ge_None in Hcur. rewrite drop_ge in Hcount by exact Hcur.
      discriminate.
Qed.

Lemma begin_ends (c : NodeCollection) (vec : Vector) :
  ((rangeOf vec (begin c)).2 <= length (rangeOf vec (begin c)).1)%nat /\
  take (rangeOf vec (begin c)).2 (rangeOf vec (begin c)).1 = vectorOf vec c.
Proof. destruct vec; simpl; split; try lia; apply firstn_all. Qed.

(** What the loop leaves when the nodes it reads are known. *)
Lemma doRemoveNodes_done (range : Range) (c : NodeCollection)
  (values : list NodePtr) :
  removeLoop kindOf range (rangeSize range c) 0 (begin c) =
    removeEach kindOf values (begin c) ->
  Forall (fun n => n <> 0%N) values ->
  exists c', doRemoveNodes kindOf c range = Done c' /\
    forall vec,
      vectorOf vec c' = without kindOf (holds vec) values (vectorOf vec c).
Proof.
  intros Hloop Hvalues. unfold doRemoveNodes. rewrite Hloop.
  destruct (removeEach_live values (begin c) Hvalues)
    as (r' & -> & Hlive); [intros vec; apply begin_ends | ].
  eexists. split; [reflexivity | ]. intros vec.
  specialize (Hlive vec). rewrite (proj2 (begin_ends c vec)) in Hlive.
  destruct vec; exact Hlive.
Qed.

Lemma removeNodes_done (vector : list NodePtr) (c : NodeCollection) :
  Forall (fun n => n <> 0%N) vector ->
  exists c', removeNodes kindOf (Separate vector) c = Done c' /\
    forall vec,
      vectorOf vec c' = without kindOf (holds vec) vector (vectorOf vec c).
Proof.
  intros Hvector. apply doRemoveNodes_done; [ | exact Hvector].
  now apply (removeLoop_separate vector (length vector) 0).
Qed.

Lemma removeNodes_null (vector : list NodePtr) (c : NodeCollection) :
  ~ Forall (fun n => n <> 0%N) vector ->
  removeNodes kindOf (Separate vector) c = NullDereference.
Proof.
  intros Hnull. unfold removeNodes, doRemoveNodes. simpl.
  rewrite (removeLoop_separate vector (length vector) 0) by reflexivity.
  simpl. now rewrite removeEach_null.
Qed.

(** One round keeps the size of [m_nodes] and brings no new node into it. *)
Lemma removeStep_nodes (cur : NodePtr) (r : Removal) :
  (nodeEnd r <= length (nodes r))%nat ->
  (nodeEnd (removeStep kindOf cur r) <=
   length (nodes (removeStep kindOf cur r)))%nat /\
  length (nodes (removeStep kindOf cur r)) = length (nodes r) /\
  forall x, x ∈ nodes (removeStep kindOf cur r) -> x ∈ nodes r.
Proof.
  intros Hend.
  pose proof (removeStep_rangeOf AllNodes cur r) as Hstep. simpl in Hstep.
  destruct (negb (bool_decide (kindOf cur = WorldNode))).
  - injection Hstep as -> ->. unfold std_remove. simpl.
    pose proof (length_filter (fun y => y <> cur) (take (nodeEnd r) (nodes r)))
      as Hlen.
    rewrite length_take in Hlen.
    rewrite length_app, length_drop. repeat split; try lia.
    intros x Hx. apply elem_of_app in Hx as [Hx | Hx].
    + apply list_elem_of_filter in Hx as [_ Hx].
      eapply in_take, Hx.
    + eapply in_drop, Hx.
  - injection Hstep as -> ->. repeat split; [exact Hend | trivial].
Qed.

(** From the collection's own vector the loop reads nodes of the
    collection only. *)
Lemma nodesRead_own (v0 : list NodePtr) (count i : nat) (r : Removal) :
  (nodeEnd r <= length (nodes r))%nat ->
  (forall x, x ∈ nodes r -> x ∈ v0) ->
  forall x, x ∈ nodesRead kindOf OwnNodes count i r -> x ∈ v0.
Proof.
  revert i r. induction count as [ | count IH]; intros i r Hend Hin x Hx.
  - inversion Hx.
  - simpl in Hx. destruct (nodes r !! i) as [cur | ] eqn:Hcur;
      [ | inversion Hx].
    apply elem_of_cons in Hx as [-> | Hx].
    + apply Hin. eapply list_elem_of_lookup_2, Hcur.
    + destruct (cur =? 0)%N; [inversion Hx | ].
      destruct (removeStep_nodes cur r Hend) as (Hend' & _ & Hsub).
      apply (IH (S i) (removeStep kindOf cur r)); auto.
Qed.

Lemma removeNodes_own_done (c : NodeCollection) :
  Forall (fun n => n <> 0%N) (m_nodes c) ->
  exists c',
    removeNodes kindOf OwnNodes c = Done c' /\
    forall vec,
      vectorOf vec c' =
      without kindOf (holds vec)
        (nodesRead kindOf OwnNodes (length (m_nodes c)) 0 (begin c))
        (vectorOf vec c).
Proof.
  intros Hnodes. apply doRemoveNodes_done; [apply removeLoop_nodesRead | ].
  apply Forall_forall. intros x Hx.
  rewrite Forall_forall in Hnodes. apply Hnodes.
  eapply (nodesRead_own (m_nodes c)), Hx; simpl; auto.
Qed.

(** X1: the erase-remove loop of [doRemoveNodes]. When [removeNodes] is
    given a vector of the caller that holds no null pointer, it returns and
    each of the six vectors is what it was without the nodes of that vector
    that it takes ([m_nodes]: every node but a world node; the other
    vectors: the nodes of their class), the nodes that stay keeping their
    order; a null pointer in the vector is dereferenced. When it is given
    the collection's own [m_nodes], the loop reads from the vector it is
    shifting: what is removed are the nodes it reads, which are nodes of
    the collection, the first one among them, but need not be all of
    them. *)
Theorem removeNodes_removes_exactly_the_range (c : NodeCollection) :
  (forall vector,
     Forall (fun n => n <> 0%N) vector ->
     exists c', removeNodes kindOf (Separate vector) c = Done c' /\
       forall vec,
         vectorOf vec c' =
         without kindOf (holds vec) vector (vectorOf vec c)) /\
  (forall vector,
     ~ Forall (fun n => n <> 0%N) vector ->
     removeNodes kindOf (Separate vector) c = NullDereference) /\
  (Forall (fun n => n <> 0%N) (m_nodes c) ->
   exists read c',
     removeNodes kindOf OwnNodes c = Done c' /\
     read = nodesRead kindOf OwnNodes (length (m_nodes c)) 0 (begin c) /\
     (forall n, n ∈ read -> n ∈ m_nodes c) /\
     (forall n rest, m_nodes c = n :: rest -> exists read', read = n :: read') /\
     forall vec,
       vectorOf vec c' = without kindOf (holds vec) read (vectorOf vec c)).
Proof.
  split; [intros vector; apply removeNodes_done | ].
  split; [intros vector; apply removeNodes_null | ].
  intros Hnodes. destruct (removeNodes_own_done c Hnodes) as (c' & Hrun & Hvec).
  eexists _, c'. split; [exact Hrun | ]. split; [reflexivity | ].
  split; [ | split; [ | exact Hvec]].
  - intros n Hn. eapply (nodesRead_own (m_nodes c)), Hn; simpl; auto.
  - intros n rest Hc. rewrite Hc. simpl. rewrite Hc. simpl. eauto.
Qed.

(** *** The invariant *)

Lemma collection_eq (c c' : NodeCollection) :
  (forall vec, vectorOf vec c = vectorOf vec c') -> c = c'.
Proof.
  intros H. destruct c, c'.
  pose proof (H AllNodes). pose proof (H Layers). pose proof (H Groups).
  pose proof (H Entities). pose proof (H Brushes). pose proof (H Patches).
  simpl in *. congruence.
Qed.

Lemma filter_all (P : NodePtr -> Prop) `{!forall x, Decision (P x)}
  (v : list NodePtr) :
  Forall P v -> filter P v = v.
Proof.
  induction 1 as [ | x v Hx _ IH]; [reflexivity | ].
  now rewrite filter_cons_True, IH.
Qed.

(** The invariant, vector by vector. *)
Lemma consistent_vectors (c : NodeCollection) :
  consistent kindOf c <->
  Forall (fun n => n <> 0%N) (m_nodes c) /\
  forall vec,
    vectorOf vec c = filter (fun n => holds vec (kindOf n) = true) (m_nodes c).
Proof.
  unfold consistent. split.
  - intros (Hall & Hl & Hg & He & Hb & Hp). split.
    + eapply Forall_impl; [exact Hall | ]. now intros n [Hn _].
    + intros vec. destruct vec; simpl.
      * symmetry. apply filter_all. eapply Forall_impl; [exact Hall | ].
        intros n [_ Hn]. simpl. now rewrite negb_true_iff, bool_decide_eq_false.
      * rewrite Hl at 1. apply list_filter_iff.
        intros n. now rewrite bool_decide_eq_true.
      * rewrite Hg at 1. apply list_filter_iff.
        intros n. now rewrite bool_decide_eq_true.
      * rewrite He at 1. apply list_filter_iff.
        intros n. now rewrite bool_decide_eq_true.
      * rewrite Hb at 1. apply list_filter_iff.
        intros n. now rewrite bool_decide_eq_true.
      * rewrite Hp at 1. apply list_filter_iff.
        intros n. now rewrite bool_decide_eq_true.
  - intros [Hnull Hvec]. split.
    + apply Forall_forall. intros n Hn. split.
      * rewrite Forall_forall in Hnull. now apply Hnull.
      * pose proof (Hvec AllNodes) as Hall. simpl in Hall.
        rewrite Hall in Hn. apply list_elem_of_filter in Hn as [Hn _].
        now rewrite negb_true_iff, bool_decide_eq_false in Hn.
    + repeat split.
      * etrans; [exact (Hvec Layers) | ]. apply list_filter_iff.
        intros n. simpl. now rewrite bool_decide_eq_true.
      * etrans; [exact (Hvec Groups) | ]. apply list_filter_iff.
        intros n. simpl. now rewrite bool_decide_eq_true.
      * etrans; [exact (Hvec Entities) | ]. apply list_filter_iff.
        intros n. simpl. now rewrite bool_decide_eq_true.
      * etrans; [exact (Hvec Brushes) | ]. apply list_filter_iff.
        intros n. simpl. now rewrite bool_decide_eq_true.
      * etrans; [exact (Hvec Patches) | ]. apply list_filter_iff.
        intros n. simpl. now rewrite bool_decide_eq_true.
Qed.

(** What [addNode] does to each vector. *)
Lemma addNode_done (node : NodePtr) (c : NodeCollection) :
  node <> 0%N ->
  exists c', addNode kindOf node c = Done c' /\
    forall vec,
      vectorOf vec c' =
      vectorOf vec c ++ filter (fun n => holds vec (kindOf n) = true) [node].
Proof.
  intros Hnode. unfold addNode.
  destruct (N.eqb_spec node 0) as [-> | _]; [contradiction | ].
  eexists. split; [reflexivity | ]. intros vec.
  rewrite filter_cons, filter_nil.
  destruct (decide (holds vec (kindOf node) = true)) as [Hk | Hk];
    destruct vec, (kindOf node); simpl in *;
    rewrite ?app_nil_r; congruence.
Qed.

Lemma addNode_null (c : NodeCollection) :
  addNode kindOf 0%N c = EnsureFailed "node is null".
Proof. reflexivity. Qed.

Lemma addNodes_done (range : list NodePtr) (c : NodeCollection) :
  Forall (fun n => n <> 0%N) range ->
  exists c', addNodes kindOf range c = Done c' /\
    forall vec,
      vectorOf vec c' =
      vectorOf vec c ++ filter (fun n => holds vec (kindOf n) = true) range.
Proof.
  intros Hrange. revert c.
  induction Hrange as [ | node range Hnode _ IH]; intros c.
  - exists c. split; [reflexivity | ]. intros vec. now rewrite filter_nil, app_nil_r.
  - destruct (addNode_done node c Hnode) as (c1 & Hadd & Hvec1).
    destruct (IH c1) as (c' & Hrest & Hvec).
    exists c'. simpl. rewrite Hadd. split; [exact Hrest | ].
    intros vec. rewrite Hvec, Hvec1, <- app_assoc, <- filter_app. reflexivity.
Qed.

Lemma addNodes_null (range : list NodePtr) (c : NodeCollection) :
  ~ Forall (fun n => n <> 0%N) range ->
  addNodes kindOf range c = EnsureFailed "node is null".
Proof.
  revert c. induction range as [ | node range IH]; intros c Hnull.
  - exfalso. apply Hnull. constructor.
  - simpl. destruct (decide (node = 0%N)) as [-> | Hnode]; [reflexivity | ].
    destruct (addNode_done node c Hnode) as (c1 & -> & _).
    apply IH. intros Hrange. apply Hnull. now constructor.
Qed.

Lemma consistent_added (range : list NodePtr) (c c' : NodeCollection) :
  consistent kindOf c ->
  Forall (fun n => n <> 0%N) range ->
  (forall vec,
     vectorOf vec c' =
     vectorOf vec c ++ filter (fun n => holds vec (kindOf n) = true) range) ->
  consistent kindOf c'.
Proof.
  rewrite !consistent_vectors. intros [Hnull Hvec] Hrange Hadd.
  pose proof (Hadd AllNodes) as Hnodes. simpl in Hnodes. split.
  - rewrite Hnodes. apply Forall_app. split; [exact Hnull | ].
    apply Forall_forall. intros n Hn. apply list_elem_of_filter in Hn as [_ Hn].
    rewrite Forall_forall in Hrange. now apply Hrange.
  - intros vec. rewrite Hadd, Hnodes, filter_app, <- Hvec. f_equal.
    rewrite list_filter_filter. apply list_filter_iff. intros n.
    destruct vec, (kindOf n); simpl; rewrite ?bool_decide_eq_true; 
      intuition congruence.
Qed.

Lemma consistent_removed (range : list NodePtr) (c c' : NodeCollection) :
  consistent kindOf c ->
  (forall vec,
     vectorOf vec c' = without kindOf (holds vec) range (vectorOf vec c)) ->
  consistent kindOf c'.
Proof.
  rewrite !consistent_vectors. intros [Hnull Hvec] Hrem.
  pose proof (Hrem AllNodes) as Hnodes. simpl in Hnodes. split.
  - rewrite Hnodes. apply Forall_forall. intros n Hn.
    apply list_elem_of_filter in Hn as [_ Hn].
    rewrite Forall_forall in Hnull. now apply Hnull.
  - intros vec. rewrite Hrem, Hnodes, Hvec. unfold without.
    rewrite !list_filter_filter. apply list_filter_iff. intros n.
    destruct vec, (kindOf n); simpl; rewrite ?bool_decide_eq_true;
      intuition congruence.
Qed.

Lemma consistent_empty : consistent kindOf emptyCollection.
Proof. unfold consistent. simpl. repeat split; constructor. Qed.

Lemma addNodes_inv (range : list NodePtr) (c c' : NodeCollection) :
  addNodes kindOf range c = Done c' ->
  Forall (fun n => n <> 0%N) range.
Proof.
  intros Hadd. destruct (decide (Forall (fun n => n <> 0%N) range)) as [H | H];
    [exact H | ].
  rewrite addNodes_null in Hadd by exact H. discriminate.
Qed.

Lemma removeNodes_inv (vector : list NodePtr) (c c' : NodeCollection) :
  removeNodes kindOf (Separate vector) c = Done c' ->
  Forall (fun n => n <> 0%N) vector.
Proof.
  intros Hrem. destruct (decide (Forall (fun n => n <> 0%N) vector)) as [H | H];
    [exact H | ].
  rewrite removeNodes_null in Hrem by exact H. discriminate.
Qed.

Lemma removeNode_removeNodes (node : NodePtr) (c : NodeCollection) :
  node <> 0%N ->
  removeNode kindOf node c = removeNodes kindOf (Separate [node]) c.
Proof.
  intros Hnode. unfold removeNode.
  now destruct (N.eqb_spec node 0) as [-> | _].
Qed.

Lemma removeNode_null (c : NodeCollection) :
  removeNode kindOf 0%N c = EnsureFailed "node is null".
Proof. reflexivity. Qed.

Lemma built_consistent (c : NodeCollection) :
  built kindOf c -> consistent kindOf c.
Proof.
  induction 1 as [ | node c c' _ IH Hadd | range c c' _ IH Hadd
                   | node c c' _ IH Hrem | range c c' _ IH Hrem | c _ _].
  - apply consistent_empty.
  - destruct (decide (node = 0%N)) as [-> | Hnode];
      [rewrite addNode_null in Hadd; discriminate | ].
    destruct (addNode_done node c Hnode) as (c1 & Hadd1 & Hvec).
    rewrite Hadd in Hadd1. injection Hadd1 as <-.
    apply (consistent_added [node] c c' IH); [ | exact Hvec].
    now constructor.
  - pose proof (addNodes_inv _ _ _ Hadd) as Hrange.
    destruct (addNodes_done range c Hrange) as (c1 & Hadd1 & Hvec).
    rewrite Hadd in Hadd1. injection Hadd1 as <-.
    now apply (consistent_added range c c' IH).
  - destruct (decide (node = 0%N)) as [-> | Hnode];
      [rewrite removeNode_null in Hrem; discriminate | ].
    rewrite removeNode_removeNodes in Hrem by exact Hnode.
    destruct (removeNodes_done [node] c) as (c1 & Hrem1 & Hvec);
      [now constructor | ].
    rewrite Hrem in Hrem1. injection Hrem1 as <-.
    now apply (consistent_removed [node] c c' IH).
  - destruct range as [vector | ].
    + pose proof (removeNodes_inv _ _ _ Hrem) as Hvector.
      destruct (removeNodes_done vector c Hvector) as (c1 & Hrem1 & Hvec).
      rewrite Hrem in Hrem1. injection Hrem1 as <-.
      now apply (consistent_removed vector c c' IH).
    + destruct (removeNodes_own_done c) as (c1 & Hrem1 & Hvec).
      { apply consistent_vectors in IH as [Hnull _]. exact Hnull. }
      rewrite Hrem in Hrem1. injection Hrem1 as <-.
      now apply (consistent_removed _ c c' IH Hvec).
  - apply consistent_empty.
Qed.

(** X2: the invariant of the collection. Whatever sequence of [addNode],
    [addNodes], [removeNode], [removeNodes] and [clear] calls made it from a
    default constructed collection, the collection holds no null pointer and
    no world node, and the vector of each class is [m_nodes] restricted to
    the nodes of that class, in the order of [m_nodes]. *)
Theorem class_vectors_mirror_the_nodes (c : NodeCollection) :
  built kindOf c -> consistent kindOf c.
Proof. apply built_consistent. Qed.

(** X3: [addNodes]. When the range holds no null pointer the call returns
    and has appended to [m_nodes] the nodes of the range that are no world
    nodes, and to each class vector the nodes of its class, in the order of
    the range; nothing that was there is moved or dropped. When the range
    holds a null pointer, the [ensure] of [addNode] fails. *)
Theorem addNodes_appends_by_class (range : list NodePtr) (c : NodeCollection) :
  (Forall (fun n => n <> 0%N) range ->
   exists c', addNodes kindOf range c = Done c' /\
     forall vec,
       vectorOf vec c' =
       vectorOf vec c ++ filter (fun n => holds vec (kindOf n) = true) range) /\
  (~ Forall (fun n => n <> 0%N) range ->
   addNodes kindOf range c = EnsureFailed "node is null").
Proof.
  split; [apply addNodes_done | apply addNodes_null].
Qed.

Lemma filter_none (P : NodePtr -> Prop) `{!forall x, Decision (P x)}
  (v : list NodePtr) :
  Forall (fun x => ~ P x) v -> filter P v = [].
Proof.
  induction 1 as [ | x v Hx _ IH]; [reflexivity | ].
  now rewrite filter_cons_False.
Qed.

(** X4: adding and removing are inverse. For a collection made by the public
    operations and a range of non-null nodes none of which the collection
    holds, [addNodes] followed by [removeNodes] of the same range gives the
    collection back, all six vectors as they were. *)
Theorem addNodes_then_removeNodes (range : list NodePtr) (c : NodeCollection) :
  built kindOf c ->
  Forall (fun n => n <> 0%N) range ->
  Forall (fun n => n ∉ m_nodes c) range ->
  exists c', addNodes kindOf range c = Done c' /\
    removeNodes kindOf (Separate range) c' = Done c.
Proof.
  intros Hbuilt Hrange Hfresh.
  apply built_consistent, consistent_vectors in Hbuilt as [_ Hvec].
  destruct (addNodes_done range c Hrange) as (c' & Hadd & Hadded).
  exists c'. split; [exact Hadd | ].
  destruct (removeNodes_done range c' Hrange) as (c'' & -> & Hremoved).
  f_equal. apply collection_eq. intros vec.
  rewrite Hremoved, Hadded. unfold without. rewrite filter_app.
  rewrite filter_all, filter_none; [apply app_nil_r | | ].
  - apply Forall_forall. intros n Hn. apply list_elem_of_filter in Hn.
    tauto.
  - apply Forall_forall. intros n Hn [Hin _].
    rewrite Hvec in Hn. apply list_elem_of_filter in Hn as [_ Hn].
    rewrite Forall_forall in Hfresh. now apply (Hfresh n).
Qed.

(** One round for a node other than the first node of [m_nodes] leaves
    that node in front, when it is not behind the front as well. *)
Lemma removeStep_keeps_first (b cur : NodePtr) (r : Removal) :
  cur <> b ->
  nodes r !! 0%nat = Some b ->
  (1 <= nodeEnd r <= length (nodes r))%nat ->
  b ∉ drop 1 (nodes r) ->
  nodes (removeStep kindOf cur r) !! 0%nat = Some b /\
  (1 <= nodeEnd (removeStep kindOf cur r) <=
   length (nodes (removeStep kindOf cur r)))%nat /\
  b ∉ drop 1 (nodes (removeStep kindOf cur r)).
Proof.
  intros Hcur Hfirst Hend Hbehind.
  destruct (removeStep_nodes cur r ltac:(lia)) as (Hend' & _ & _).
  pose proof (removeStep_rangeOf AllNodes cur r) as Hstep. simpl in Hstep.
  destruct (negb (bool_decide (kindOf cur = WorldNode))).
  - destruct (nodes r) as [ | b' tl] eqn:Hnodes; [discriminate | ].
    injection Hfirst as ->. simpl in Hbehind.
    destruct (nodeEnd r) as [ | e] eqn:He; [lia | ].
    injection Hstep as Hn He'. unfold std_remove in Hn, He'. simpl in Hn, He'.
    rewrite filter_cons_True in Hn, He' by congruence.
    simpl in Hn, He'. rewrite Hn, He' in *. simpl in Hend' |- *.
    rewrite drop_0 in *.
    split; [reflexivity | ]. split; [lia | ].
    intros Hin. apply elem_of_app in Hin as [Hin | Hin].
    + apply list_elem_of_filter in Hin as [_ Hin].
      apply Hbehind. eapply in_take, Hin.
    + apply Hbehind. eapply in_drop, Hin.
  - injection Hstep as -> ->. auto.
Qed.

(** Once the loop on the collection's own vector is past the first
    element, it does not read the node in front again, and leaves it
    there. *)
Lemma removeLoop_keeps_first (b : NodePtr) (count i : nat) (r : Removal) :
  (1 <= i)%nat ->
  (forall x, x ∈ nodes r -> x <> 0%N) ->
  nodes r !! 0%nat = Some b ->
  (1 <= nodeEnd r <= length (nodes r))%nat ->
  b ∉ drop 1 (nodes r) ->
  exists r', removeLoop kindOf OwnNodes count i r = Done r' /\
    nodes r' !! 0%nat = Some b /\ (1 <= nodeEnd r')%nat.
Proof.
  revert i r. induction count as [ | count IH];
    intros i r Hi Hnull Hfirst Hend Hbehind.
  - exists r. split; [reflexivity | ]. split; [exact Hfirst | lia].
  - simpl. destruct (nodes r !! i) as [cur | ] eqn:Hcur.
    + assert (Hin : cur ∈ nodes r) by (eapply list_elem_of_lookup_2, Hcur).
      destruct (N.eqb_spec cur 0) as [-> | _]; [now destruct (Hnull _ Hin) | ].
      assert (Hne : cur <> b).
      { intros ->. apply Hbehind.
        apply (list_elem_of_lookup_2 _ (i - 1)). rewrite lookup_drop.
        now replace (1 + (i - 1))%nat with i by lia. }
      destruct (removeStep_keeps_first b cur r Hne Hfirst Hend Hbehind)
        as (Hfirst' & Hend' & Hbehind').
      destruct (removeStep_nodes cur r ltac:(lia)) as (_ & _ & Hsub).
      apply (IH (S i)); auto; lia.
    + exists r. split; [reflexivity | ]. split; [exact Hfirst | lia].
Qed.

(** X5: [removeNodes] takes a vector of the caller as a set: two vectors
    that hold the same nodes, in whatever order and however often, have the
    same outcome on every collection (and both dereference a null pointer
    if one does). The collection's own vector does not stand in for a copy
    of it: on a collection of three or more distinct nodes, removing a copy
    of [m_nodes] empties the collection, while removing [m_nodes] itself
    leaves the second node in front. *)
Theorem removeNodes_takes_a_set (c : NodeCollection) :
  (forall vector vector',
     (forall n, n ∈ vector <-> n ∈ vector') ->
     removeNodes kindOf (Separate vector) c =
     removeNodes kindOf (Separate vector') c) /\
  (forall a b d rest,
     built kindOf c ->
     NoDup (m_nodes c) ->
     m_nodes c = a :: b :: d :: rest ->
     removeNodes kindOf (Separate (m_nodes c)) c = Done emptyCollection /\
     exists c', removeNodes kindOf OwnNodes c = Done c' /\
       m_nodes c' !! 0%nat = Some b).
Proof.
  split.
  - intros vector vector' Hsame.
    destruct (decide (Forall (fun n => n <> 0%N) vector)) as [Hvector | Hnull].
    + assert (Hvector' : Forall (fun n => n <> 0%N) vector').
      { rewrite Forall_forall in Hvector |- *. intros n Hn.
        now apply Hvector, Hsame. }
      destruct (removeNodes_done vector c Hvector) as (c1 & -> & H1).
      destruct (removeNodes_done vector' c Hvector') as (c2 & -> & H2).
      f_equal. apply collection_eq. intros vec. rewrite H1, H2.
      apply list_filter_iff. intros n. now rewrite Hsame.
    + assert (Hnull' : ~ Forall (fun n => n <> 0%N) vector').
      { intros Hvector'. apply Hnull.
        rewrite Forall_forall in Hvector' |- *. intros n Hn.
        now apply Hvector', Hsame. }
      now rewrite !removeNodes_null.
  - intros a b d rest Hbuilt Hnodup Hc.
    apply built_consistent in Hbuilt.
    pose proof Hbuilt as [Hall _].
    apply consistent_vectors in Hbuilt as [Hnull Hvec].
    split.
    + destruct (removeNodes_done (m_nodes c) c Hnull) as (c1 & -> & H1).
      f_equal. apply collection_eq. intros vec. rewrite H1. unfold without.
      rewrite filter_none; [now destruct vec | ].
      apply Forall_forall. intros n Hn Hkeep. apply Hkeep.
      rewrite Hvec in Hn. apply list_elem_of_filter in Hn. tauto.
    + rewrite Hc in Hall, Hnull, Hnodup.
      apply Forall_cons in Hall as [[Ha Hworld] _].
      apply NoDup_cons in Hnodup as [Hfresh Hnodup].
      apply NoDup_cons in Hnodup as [Hb _].
      unfold removeNodes, doRemoveNodes.
      assert (Hsize : rangeSize OwnNodes c = S (S (S (length rest))))
        by (simpl; now rewrite Hc).
      assert (Hderef : deref OwnNodes (begin c) 0 = Some a)
        by (simpl; now rewrite Hc).
      rewrite Hsize, removeLoop_S, Hderef.
      destruct (N.eqb_spec a 0) as [-> | _]; [contradiction | ].
      pose proof (removeStep_rangeOf AllNodes a (begin c)) as Hstep.
      simpl in Hstep.
      rewrite (bool_decide_eq_false_2 _ Hworld) in Hstep. simpl in Hstep.
      injection Hstep as Hn He. unfold std_remove in Hn, He.
      rewrite firstn_all, Hc in Hn, He.
      rewrite filter_cons_False in Hn, He by tauto.
      rewrite filter_all in Hn, He.
      2:{ apply Forall_forall. intros x Hx ->. now apply Hfresh. }
      2:{ apply Forall_forall. intros x Hx ->. now apply Hfresh. }
      simpl in Hn, He.
      destruct (removeLoop_keeps_first b (S (S (length rest))) 1
                  (removeStep kindOf a (begin c)))
        as (r' & -> & Hfirst & Hend).
      * lia.
      * intros x Hx. rewrite Hn in Hx. rewrite Forall_forall in Hnull.
        apply Hnull. apply elem_of_cons in Hx as [-> | Hx];
          [right; left | ].
        apply elem_of_cons in Hx as [-> | Hx]; [right; right; left | ].
        apply elem_of_app in Hx as [Hx | Hx]; [now do 3 right | ].
        right; right. eapply in_drop, Hx.
      * now rewrite Hn.
      * rewrite Hn, He. simpl. rewrite length_app, length_drop. simpl. lia.
      * rewrite Hn. simpl. intros Hin. apply Hb.
        apply elem_of_cons in Hin as [-> | Hin]; [left | ].
        apply elem_of_app in Hin as [Hin | Hin]; [now right | ].
        eapply in_drop, Hin.
      * eexists. split; [reflexivity | ]. simpl. unfold erase_from.
        now rewrite lookup_take_lt by lia.
Qed.

(** X6: removals compose. For vectors of the caller, removing one and then
    a second one is removing the two, one after the other, in one call. *)
Theorem removeNodes_twice (vector vector' : list NodePtr)
  (c c' : NodeCollection) :
  removeNodes kindOf (Separate vector) c = Done c' ->
  removeNodes kindOf (Separate vector') c' =
  removeNodes kindOf (Separate (vector ++ vector')) c.
Proof.
  intros Hrem. pose proof (removeNodes_inv _ _ _ Hrem) as Hvector.
  destruct (removeNodes_done vector c Hvector) as (c1 & Hrem1 & H1).
  rewrite Hrem in Hrem1. injection Hrem1 as <-.
  destruct (decide (Forall (fun n => n <> 0%N) vector')) as [Hvector' | Hnull].
  - destruct (removeNodes_done vector' c' Hvector') as (c2 & -> & H2).
    destruct (removeNodes_done (vector ++ vector') c) as (c3 & -> & H3).
    { now apply Forall_app. }
    f_equal. apply collection_eq. intros vec. rewrite H2, H1, H3.
    unfold without. rewrite list_filter_filter.
    apply list_filter_iff. intros n. rewrite elem_of_app. tauto.
  - rewrite !removeNodes_null; trivial.
    intros H. now apply Forall_app in H.
Qed.

Lemma length_filter_all (P : NodePtr -> Prop) `{!forall x, Decision (P x)}
  (v : list NodePtr) :
  length (filter P v) = length v <-> Forall P v.
Proof.
  split.
  - induction v as [ | x v IH]; intros Hlen; [constructor | ].
    rewrite filter_cons in Hlen. pose proof (length_filter P v) as Hle.
    destruct (decide (P x)) as [Hx | Hx]; simpl in Hlen.
    + constructor; [exact Hx | ]. apply IH. congruence.
    + lia.
  - intros Hall. now rewrite filter_all.
Qed.

(** X7: the [hasOnly...] queries. On a collection made by the public
    operations, [hasOnlyLayers] (and likewise for groups, entities, brushes
    and patches) answers true exactly when the collection is not empty and
    every node it holds is of that class; so at most one of the five
    queries answers true. *)
Theorem hasOnly_means_every_node (vec : Vector) (c : NodeCollection) :
  built kindOf c ->
  (hasOnly vec c = true <->
   m_nodes c <> [] /\
   Forall (fun n => holds vec (kindOf n) = true) (m_nodes c)) /\
  (forall vec', vec <> AllNodes -> vec' <> AllNodes ->
     hasOnly vec c = true -> hasOnly vec' c = true -> vec = vec').
Proof.
  intros Hbuilt.
  apply built_consistent, consistent_vectors in Hbuilt as [_ Hvec].
  assert (Hchar : forall v, hasOnly v c = true <->
            m_nodes c <> [] /\
            Forall (fun n => holds v (kindOf n) = true) (m_nodes c)).
  { intros v. rewrite <- length_filter_all, <- Hvec.
    destruct v; simpl;
      unfold hasOnlyLayers, hasOnlyGroups, hasOnlyEntities, hasOnlyBrushes,
        hasOnlyPatches, empty, nodeCount, layerCount, groupCount, entityCount,
        brushCount, patchCount;
      rewrite ?andb_true_iff, ?negb_true_iff, ?bool_decide_eq_false,
        ?Nat.eqb_eq; intuition congruence. }
  split; [apply Hchar | ].
  intros vec' Hv Hv' H1 H2.
  apply Hchar in H1 as [Hne H1]. apply Hchar in H2 as [_ H2].
  destruct (m_nodes c) as [ | n rest]; [contradiction | ].
  apply Forall_cons in H1 as [H1 _]. apply Forall_cons in H2 as [H2 _].
  destruct vec, vec', (kindOf n); simpl in *; congruence.
Qed.

Lemma length_by_class (v : list NodePtr) :
  Forall (fun n => holds AllNodes (kindOf n) = true) v ->
  length v =
  (length (filter (fun n => holds Layers (kindOf n) = true) v) +
   length (filter (fun n => holds Groups (kindOf n) = true) v) +
   length (filter (fun n => holds Entities (kindOf n) = true) v) +
   length (filter (fun n => holds Brushes (kindOf n) = true) v) +
   length (filter (fun n => holds Patches (kindOf n) = true) v))%nat.
Proof.
  induction 1 as [ | n v Hn _ IH]; [reflexivity | ].
  rewrite !filter_cons. simpl length at 1. rewrite IH.
  destruct (kindOf n); simpl in *; try discriminate; lia.
Qed.

(** X8: the counts. On a collection made by the public operations,
    [nodeCount] is the sum of the five class counts, and a [has...] query
    answers true exactly when the collection holds a node of that class. *)
Theorem nodeCount_is_the_sum_of_the_class_counts (c : NodeCollection) :
  built kindOf c ->
  nodeCount c =
    (layerCount c + groupCount c + entityCount c + brushCount c +
     patchCount c)%nat /\
  (forall vec,
     has vec c = true <->
     exists n, n ∈ m_nodes c /\ holds vec (kindOf n) = true).
Proof.
  intros Hbuilt.
  apply built_consistent, consistent_vectors in Hbuilt as [_ Hvec].
  split.
  - unfold nodeCount, layerCount, groupCount, entityCount, brushCount,
      patchCount.
    pose proof (Hvec Layers) as Hl. pose proof (Hvec Groups) as Hg.
    pose proof (Hvec Entities) as He. pose proof (Hvec Brushes) as Hb.
    pose proof (Hvec Patches) as Hp. simpl vectorOf in *.
    rewrite Hl, Hg, He, Hb, Hp. apply length_by_class.
    pose proof (Hvec AllNodes) as Ha. simpl vectorOf in Ha.
    apply Forall_forall. intros n Hn. rewrite Ha in Hn.
    now apply list_elem_of_filter in Hn as [Hn _].
  - intros vec.
    assert (Hhas : has vec c = true <-> vectorOf vec c <> []).
    { destruct vec; simpl;
        unfold empty, hasLayers, hasGroups, hasEntities, hasBrushes,
          hasPatches;
        now rewrite negb_true_iff, bool_decide_eq_false. }
    rewrite Hhas, Hvec. split.
    + intros Hne.
      destruct (filter _ (m_nodes c)) as [ | n rest] eqn:Hf; [contradiction | ].
      assert (Hin : n ∈ filter (fun n => holds vec (kindOf n) = true) (m_nodes c))
        by (rewrite Hf; left).
      apply list_elem_of_filter in Hin as [Hk Hin]. now exists n.
    + intros (n & Hn & Hk) Hf.
      assert (Hin : n ∈ filter (fun n => holds vec (kindOf n) = true) (m_nodes c)).
      { apply list_elem_of_filter. now split. }
      rewrite Hf in Hin. inversion Hin.
Qed.
End WithKinds.

(** *** The sample scene *)

Lemma sample_built : built sampleKind sampleCollection.
Proof.
  apply (built_addNodes sampleKind [9%N; 10%N; 16%N] emptyCollection).
  - constructor.
  - reflexivity.
Qed.

Lemma removeNodes_removes_exactly_the_range_witness :
  (exists c',
     removeNodes sampleKind (Separate [10%N; 9%N]) sampleCollection = Done c' /\
     forall vec,
       vectorOf vec c' =
       without sampleKind (holds vec) [10%N; 9%N]
         (vectorOf vec sampleCollection)) /\
  (exists c',
     removeNodes sampleKind OwnNodes sampleCollection = Done c' /\
     Done c' = Done sampleLeftover).
Proof.
  destruct (removeNodes_removes_exactly_the_range sampleKind sampleCollection)
    as (Hseparate & _ & Hown).
  split.
  - apply Hseparate. repeat constructor; discriminate.
  - destruct Hown as (read & c' & Hrun & _).
    + repeat constructor; discriminate.
    + exists c'. split; [exact Hrun | ]. rewrite <- Hrun. reflexivity.
Defined.

Lemma class_vectors_mirror_the_nodes_witness :
  consistent sampleKind sampleCollection.
Proof.
  apply class_vectors_mirror_the_nodes. exact sample_built.
Defined.

Lemma addNodes_appends_by_class_witness :
  exists c', addNodes sampleKind [22%N; 6%N; 23%N] sampleCollection = Done c' /\
    forall vec,
      vectorOf vec c' =
      vectorOf vec sampleCollection ++
      filter (fun n => holds vec (sampleKind n) = true) [22%N; 6%N; 23%N].
Proof.
  apply (proj1 (addNodes_appends_by_class sampleKind [22%N; 6%N; 23%N]
                  sampleCollection)).
  repeat constructor; discriminate.
Defined.

Lemma addNodes_then_removeNodes_witness :
  exists c', addNodes sampleKind [22%N; 23%N] sampleCollection = Done c' /\
    removeNodes sampleKind (Separate [22%N; 23%N]) c' = Done sampleCollection.
Proof.
  apply addNodes_then_removeNodes.
  - exact sample_built.
  - repeat constructor; discriminate.
  - apply (bool_decide_unpack _). vm_compute. exact I.
Defined.

Lemma removeNodes_takes_a_set_witness :
  removeNodes sampleKind (Separate [10%N; 9%N]) sampleCollection =
    removeNodes sampleKind (Separate [9%N; 10%N; 9%N]) sampleCollection /\
  removeNodes sampleKind (Separate (m_nodes sampleCollection))
    sampleCollection = Done emptyCollection /\
  exists c', removeNodes sampleKind OwnNodes sampleCollection = Done c' /\
    m_nodes c' !! 0%nat = Some 10%N.
Proof.
  destruct (removeNodes_takes_a_set sampleKind sampleCollection)
    as [Hset Hown].
  split.
  - apply Hset. intros n. rewrite !elem_of_cons, !elem_of_nil. tauto.
  - apply (Hown 9%N 10%N 16%N []).
    + exact sample_built.
    + apply (bool_decide_unpack _). vm_compute. exact I.
    + reflexivity.
Defined.

Lemma removeNodes_twice_witness :
  removeNodes sampleKind (Separate [9%N])
    (mkNodeCollection [9%N; 16%N] [] [] [9%N] [16%N] []) =
  removeNodes sampleKind (Separate [10%N; 9%N]) sampleCollection.
Proof.
  apply (removeNodes_twice sampleKind [10%N] [9%N]). reflexivity.
Defined.

Lemma hasOnly_means_every_node_witness :
  (hasOnly Brushes sampleCollection = true <->
   m_nodes sampleCollection <> [] /\
   Forall (fun n => holds Brushes (sampleKind n) = true)
     (m_nodes sampleCollection)) /\
  (forall vec', Brushes <> AllNodes -> vec' <> AllNodes ->
     hasOnly Brushes sampleCollection = true ->
     hasOnly vec' sampleCollection = true -> Brushes = vec').
Proof.
  apply hasOnly_means_every_node. exact sample_built.
Defined.

Lemma nodeCount_is_the_sum_of_the_class_counts_witness :
  nodeCount sampleCollection =
    (layerCount sampleCollection + groupCount sampleCollection +
     entityCount sampleCollection + brushCount sampleCollection +
     patchCount sampleCollection)%nat /\
  (forall vec,
     has vec sampleCollection = true <->
     exists n, n ∈ m_nodes sampleCollection /\
               holds vec (sampleKind n) = true).
Proof.
  apply nodeCount_is_the_sum_of_the_class_counts. exact sample_built.
Defined.
End NodesFacts.

(** * More on [parseFloatVector] *)

Module FloatVectorMore.

(** Every call ends in one of two ways. *)
Lemma parseFloatVector_cases {T : Type} (toFloat : Token -> T) (zero : T)
  (S : nat) (o c : TokenType) (ts : QuakeMapTokenizer) :
  ((forall k, (k <= S + 1)%nat ->
      hasType (expectedAt S o c k) (tokenAt k ts) = true) /\
   parseFloatVector toFloat zero S o c ts =
     (inr (vectorAt toFloat S ts), drop (S + 2) ts)) \/
  (exists k, (k <= S + 1)%nat /\
     (forall j, (j < k)%nat ->
        hasType (expectedAt S o c j) (tokenAt j ts) = true) /\
     hasType (expectedAt S o c k) (tokenAt k ts) = false /\
     parseFloatVector toFloat zero S o c ts =
       (inl (UnexpectedTokenError (expectedAt S o c k) (tokenAt k ts)),
        drop (k + 1) ts)).
Proof.
  destruct (first_failure (fun k => hasType (expectedAt S o c k) (tokenAt k ts))
              (S + 2)) as [Hall | (k & Hk & Hbad & Hpre)].
  - left. assert (Hall' : forall k, (k <= S + 1)%nat ->
              hasType (expectedAt S o c k) (tokenAt k ts) = true)
      by (intros k Hk; apply Hall; lia).
    split; [exact Hall' | now apply parseFloatVector_ok].
  - right. exists k. split; [lia | ]. split; [exact Hpre | ].
    split; [exact Hbad | ]. apply parseFloatVector_fails; [lia | exact Hpre | exact Hbad].
Qed.

Lemma expectedAt_cases (S : nat) (o c : TokenType) (k : nat) :
  expectedAt S o c k = o \/ expectedAt S o c k = QuakeMapToken.Number \/
  expectedAt S o c k = c.
Proof.
  unfold expectedAt. destruct (k =? 0)%nat; [now left | ].
  destruct (k <=? S)%nat; [right; now left | right; now right].
Qed.

(** ** With the tokenizer's failure *)

Lemma nextToken_available (ts : list Token) (f : option (nat * nat)) :
  (0 < length ts)%nat \/ f = None ->
  Scanning.nextToken (Scanning.mkScanner ts f) =
    (inr (tokenAt 0 ts), Scanning.mkScanner (drop 1 ts) f).
Proof.
  intros Hnext. destruct ts as [ | t ts]; [ | reflexivity].
  destruct Hnext as [Hlen | ->]; [simpl in Hlen; lia | reflexivity].
Qed.

Lemma nextToken_aborts (line column : nat) :
  Scanning.nextToken (Scanning.mkScanner [] (Some (line, column))) =
    (inl (Scanning.TokenizerError line column),
     Scanning.mkScanner [] (Some (line, column))).
Proof. reflexivity. Qed.

Section ScanningFacts.
Context {T : Type}.
Variable toFloat : Token -> T.
Variable zero : T.

(** As long as the loop does not ask for a token past the pending ones of
    a text that is malformed there, it runs as over the plain token list. *)
Lemma loop_lift (n : nat) :
  forall (i : nat) (vec : list T) (ts : list Token) (f : option (nat * nat)),
  f = None \/ (n <= length ts)%nat \/
  (exists k, (k < length ts)%nat /\ (k < n)%nat /\
     hasType QuakeMapToken.Number (tokenAt k ts) = false) ->
  Scanning.parseFloatVector_loop toFloat n i vec (Scanning.mkScanner ts f) =
    Scanning.lift f (parseFloatVector_loop toFloat n i vec ts).
Proof.
  induction n as [ | n IH]; intros i vec ts f Hcan; [reflexivity | ].
  cbn [Scanning.parseFloatVector_loop parseFloatVector_loop].
  unfold Scanning.bind at 1. rewrite nextToken_available.
  2:{ destruct Hcan as [-> | [Hlen | (k & Hk & _)]];
        [now right | left; lia | left; lia]. }
  unfold bind at 1, nextToken at 1.
  unfold Scanning.bind at 1, Scanning.expect. unfold bind at 1, expect.
  destruct (hasType QuakeMapToken.Number (tokenAt 0 ts)) eqn:Hnum;
    [ | reflexivity].
  unfold Scanning.ret at 1, ret at 1. apply IH.
  destruct Hcan as [-> | [Hlen | (k & Hk & Hkn & Hbad)]]; [now left | | ].
  - right. left. rewrite length_drop. lia.
  - destruct k as [ | k]; [congruence | ].
    right. right. exists k. rewrite length_drop, tokenAt_drop.
    split; [lia | ]. split; [lia | exact Hbad].
Qed.

(** The loop asks for a token past the pending ones of a malformed text. *)
Lemma loop_aborts (n : nat) :
  forall (i : nat) (vec : list T) (ts : list Token) (line column : nat),
  (length ts < n)%nat ->
  (forall j, (j < length ts)%nat ->
     hasType QuakeMapToken.Number (tokenAt j ts) = true) ->
  Scanning.parseFloatVector_loop toFloat n i vec
    (Scanning.mkScanner ts (Some (line, column))) =
    (inl (Scanning.TokenizerError line column),
     Scanning.mkScanner [] (Some (line, column))).
Proof.
  induction n as [ | n IH]; intros i vec ts line column Hlen Hnum; [lia | ].
  cbn [Scanning.parseFloatVector_loop]. unfold Scanning.bind at 1.
  destruct ts as [ | t ts]; [reflexivity | ].
  rewrite nextToken_available by (left; simpl; lia).
  unfold Scanning.bind at 1, Scanning.expect.
  rewrite (Hnum 0%nat) by (simpl; lia). unfold Scanning.ret at 1.
  apply IH.
  - simpl in Hlen |- *. rewrite drop_0. lia.
  - intros j Hj. simpl in Hj. rewrite drop_0 in Hj.
    rewrite tokenAt_drop. apply Hnum. simpl. lia.
Qed.

(** Where the loop stands when it has returned. *)
Lemma loop_returned (n : nat) (ts rest : list Token) (v : list T) :
  parseFloatVector_loop toFloat n 0 (replicate n zero) ts = (inr v, rest) ->
  rest = drop n ts /\
  forall j, (j < n)%nat ->
    hasType QuakeMapToken.Number (tokenAt j ts) = true.
Proof.
  intros Hrun.
  destruct (first_failure
              (fun j => hasType QuakeMapToken.Number (tokenAt j ts)) n)
    as [Hall | (k & Hk & Hbad & Hpre)].
  - rewrite loop_ok in Hrun by (rewrite ?length_replicate; auto).
    split; [congruence | exact Hall].
  - rewrite (loop_fails toFloat n 0 k) in Hrun by auto. discriminate.
Qed.

(** The same for the whole function: unless it asks for a token the
    malformed text does not give, it runs as over the plain token list. *)
Lemma parseFloatVector_lift (S : nat) (o c : TokenType) (ts : list Token)
  (f : option (nat * nat)) :
  f = None \/ (S + 2 <= length ts)%nat \/
  (exists k, (k < length ts)%nat /\ (k <= S + 1)%nat /\
     hasType (expectedAt S o c k) (tokenAt k ts) = false) ->
  Scanning.parseFloatVector toFloat zero S o c (Scanning.mkScanner ts f) =
    Scanning.lift f (parseFloatVector toFloat zero S o c ts).
Proof.
  intros Hcan. unfold Scanning.parseFloatVector, parseFloatVector.
  unfold Scanning.bind at 1. rewrite nextToken_available.
  2:{ destruct Hcan as [-> | [Hlen | (k & Hk & _)]];
        [now right | left; lia | left; lia]. }
  unfold bind at 1, nextToken at 1.
  unfold Scanning.bind at 1, Scanning.expect at 1. unfold bind at 1, expect at 1.
  destruct (hasType o (tokenAt 0 ts)) eqn:Hopen; [ | reflexivity].
  unfold Scanning.ret at 1, ret at 1.
  unfold Scanning.bind at 1. unfold bind at 1.
  rewrite loop_lift.
  2:{ destruct Hcan as [-> | [Hlen | (k & Hk & HkS & Hbad)]]; [now left | | ].
      - right. left. rewrite length_drop. lia.
      - destruct k as [ | k];
          [rewrite expectedAt_open in Hbad; congruence | ].
        destruct (decide (k < S)%nat) as [Hnum | Hclose].
        + right. right. exists k. rewrite length_drop, tokenAt_drop.
          rewrite expectedAt_number in Hbad by lia.
          split; [lia | ]. split; [lia | exact Hbad].
        + right. left. rewrite length_drop. lia. }
  destruct (parseFloatVector_loop toFloat S 0 (replicate S zero) (drop 1 ts))
    as [[e | vec] rest] eqn:Hloop; [reflexivity | ].
  apply loop_returned in Hloop as [-> Hnums].
  unfold Scanning.lift at 1. cbn [fst snd].
  unfold Scanning.bind at 1. rewrite nextToken_available.
  2:{ destruct Hcan as [-> | [Hlen | (k & Hk & HkS & Hbad)]]; [now right | | ].
      - left. rewrite !length_drop. lia.
      - left. rewrite !length_drop.
        destruct k as [ | k];
          [rewrite expectedAt_open in Hbad; congruence | ].
        destruct (decide (k < S)%nat) as [Hnum | Hclose]; [ | lia].
        rewrite expectedAt_number in Hbad by lia.
        specialize (Hnums k Hnum). rewrite tokenAt_drop in Hnums.
        simpl in Hnums. congruence. }
  unfold bind at 1, nextToken at 1.
  unfold Scanning.bind at 1, Scanning.expect. unfold bind at 1, expect.
  destruct (hasType c (tokenAt 0 (drop S (drop 1 ts)))); reflexivity.
Qed.

(** The malformed text begins before the vector is complete. *)
Lemma parseFloatVector_aborts (S : nat) (o c : TokenType) (ts : list Token)
  (line column : nat) :
  (length ts <= S + 1)%nat ->
  (forall j, (j < length ts)%nat ->
     hasType (expectedAt S o c j) (tokenAt j ts) = true) ->
  Scanning.parseFloatVector toFloat zero S o c
    (Scanning.mkScanner ts (Some (line, column))) =
    (inl (Scanning.TokenizerError line column),
     Scanning.mkScanner [] (Some (line, column))).
Proof.
  intros Hlen Hpass. unfold Scanning.parseFloatVector.
  unfold Scanning.bind at 1.
  destruct ts as [ | t ts]; [reflexivity | ].
  rewrite nextToken_available by (left; simpl; lia).
  unfold Scanning.bind at 1, Scanning.expect at 1.
  pose proof (Hpass 0%nat ltac:(simpl; lia)) as Hopen.
  rewrite expectedAt_open in Hopen. rewrite Hopen.
  unfold Scanning.ret at 1. unfold Scanning.bind at 1.
  simpl in Hlen. simpl drop. rewrite drop_0.
  assert (Hnum : forall j, (j < length ts)%nat ->
            hasType QuakeMapToken.Number (tokenAt j ts) = true).
  { intros j Hj. rewrite <- (expectedAt_number S o c (1 + j)) by lia.
    apply (Hpass (1 + j)%nat). simpl. lia. }
  destruct (decide (length ts < S)%nat) as [Hshort | Hfull].
  - now rewrite loop_aborts.
  - assert (Hts : length ts = S) by lia.
    rewrite loop_lift by (right; left; lia).
    rewrite loop_ok by (rewrite ?length_replicate; intros; auto; try apply Hnum; lia).
    unfold Scanning.lift. cbn [fst snd].
    rewrite (drop_ge ts S) by lia. reflexivity.
Qed.
End ScanningFacts.

(** X9: the ways a call of [parseFloatVector<S>(o, c)] can end, for any two
    masks, on a tokenizer that may fail: [ts] are the tokens it still hands
    out and [f] is the place where the text is malformed after them, if it
    is. The call ends in one of three ways. It returns a vector of [S]
    components and has taken exactly [S + 2] tokens. Or it throws the error
    of [expect]: the mask in the error is the one of the first test that
    fails, [o], [Number] or [c], the token in it is one the mask rejects, it
    is a token the tokenizer has handed out (one of [ts], or the end-of-file
    token of a text that has ended), and it is the last of the between 1 and
    [S + 2] tokens taken. Or it throws the
    tokenizer's fatal error, with the line and column of the malformed text:
    that happens when fewer than [S + 2] tokens precede the malformed text
    and each of them passes its test, and all of them have been taken. On a
    text that is not malformed the call runs as over the plain list of its
    tokens. *)
Theorem parseFloatVector_returns_reports_or_aborts {T : Type}
  (toFloat : Token -> T) (zero : T) (S : nat) (o c : TokenType)
  (ts : list Token) (f : option (nat * nat)) :
  ((exists v,
      Scanning.parseFloatVector toFloat zero S o c (Scanning.mkScanner ts f) =
        (inr v, Scanning.mkScanner (drop (S + 2) ts) f) /\
      length v = S /\ ((S + 2 <= length ts)%nat \/ f = None)) \/
   (exists k expected,
      Scanning.parseFloatVector toFloat zero S o c (Scanning.mkScanner ts f) =
        (inl (Scanning.ConstructLocal
                (UnexpectedTokenError expected (tokenAt k ts))),
         Scanning.mkScanner (drop (k + 1) ts) f) /\
      (k <= S + 1)%nat /\ ((k < length ts)%nat \/ f = None) /\
      expected = expectedAt S o c k /\
      (expected = o \/ expected = QuakeMapToken.Number \/ expected = c) /\
      hasType expected (tokenAt k ts) = false /\
      forall j, (j < k)%nat ->
        hasType (expectedAt S o c j) (tokenAt j ts) = true) \/
   (exists line column,
      f = Some (line, column) /\
      Scanning.parseFloatVector toFloat zero S o c (Scanning.mkScanner ts f) =
        (inl (Scanning.TokenizerError line column), Scanning.mkScanner [] f) /\
      (length ts <= S + 1)%nat /\
      forall j, (j < length ts)%nat ->
        hasType (expectedAt S o c j) (tokenAt j ts) = true)) /\
  Scanning.parseFloatVector toFloat zero S o c (Scanning.mkScanner ts None) =
    Scanning.lift None (parseFloatVector toFloat zero S o c ts).
Proof.
  split; [ | apply parseFloatVector_lift; now left].
  destruct (parseFloatVector_cases toFloat zero S o c ts)
    as [[Hall Hok] | (k & Hk & Hpre & Hbad & Hfail)].
  - (* every test passes on the tokens and on the end of file after them *)
    destruct f as [[line column] | ].
    + destruct (decide (S + 2 <= length ts)%nat) as [Hfull | Hshort].
      * left. exists (vectorAt toFloat S ts).
        rewrite parseFloatVector_lift by (right; now left). rewrite Hok.
        split; [reflexivity | ]. split; [ | now left].
        unfold vectorAt. now rewrite length_map, length_seq.
      * right. right. exists line, column. split; [reflexivity | ].
        split; [apply parseFloatVector_aborts; [lia | intros j Hj; apply Hall; lia] | ].
        split; [lia | intros j Hj; apply Hall; lia].
    + left. exists (vectorAt toFloat S ts).
      rewrite parseFloatVector_lift by now left. rewrite Hok.
      split; [reflexivity | ]. split; [ | now right].
      unfold vectorAt. now rewrite length_map, length_seq.
  - (* the [k]-th test fails *)
    destruct f as [[line column] | ].
    + destruct (decide (k < length ts)%nat) as [Hin | Hout].
      * right. left. exists k, (expectedAt S o c k).
        rewrite parseFloatVector_lift
          by (right; right; exists k; repeat split; assumption).
        rewrite Hfail. split; [reflexivity | ]. split; [exact Hk | ].
        split; [now left | ]. split; [reflexivity | ].
        split; [apply expectedAt_cases | ]. split; [exact Hbad | exact Hpre].
      * right. right. exists line, column. split; [reflexivity | ].
        split; [apply parseFloatVector_aborts; [lia | intros j Hj; apply Hpre; lia] | ].
        split; [lia | intros j Hj; apply Hpre; lia].
    + right. left. exists k, (expectedAt S o c k).
      rewrite parseFloatVector_lift by now left.
      rewrite Hfail. split; [reflexivity | ]. split; [exact Hk | ].
      split; [now right | ]. split; [reflexivity | ].
      split; [apply expectedAt_cases | ]. split; [exact Hbad | exact Hpre].
Qed.

(** A vector cut short by a string that is not closed: after [( 1 2] the
    call for a vector of three components throws the tokenizer's error. *)
Example parseFloatVector_on_an_unterminated_string :
  Scanning.parseFloatVector Samples.toFloat 0 3 QuakeMapToken.OParenthesis
    QuakeMapToken.CParenthesis Scanning.sampleUnterminated =
  (inl (Scanning.TokenizerError 7 7),
   Scanning.mkScanner [] (Some (7%nat, 7%nat))).
Proof. reflexivity. Qed.

Lemma tokenAt_past (k : nat) (ts : list Token) :
  (length ts <= k)%nat -> tokenAt k ts = eofToken.
Proof. intros Hk. unfold tokenAt. now apply nth_overflow. Qed.

Lemma Number_rejects_eof : hasType QuakeMapToken.Number eofToken = false.
Proof. reflexivity. Qed.

(** X10: input that ends too early. When the tokenizer has fewer than
    [S + 2] tokens left and neither [o] nor [c] accepts the end-of-file
    token, [parseFloatVector<S>(o, c)] throws; the token it reports is one
    of the pending tokens or the end-of-file token, and on an exhausted
    tokenizer it is the end-of-file token, reported against [o]. *)
Theorem parseFloatVector_on_truncated_input {T : Type}
  (toFloat : Token -> T) (zero : T) (S : nat) (o c : TokenType)
  (ts : QuakeMapTokenizer) :
  (length ts < S + 2)%nat ->
  hasType o eofToken = false ->
  hasType c eofToken = false ->
  (exists expected found,
     (parseFloatVector toFloat zero S o c ts).1 =
       inl (UnexpectedTokenError expected found) /\
     (found ∈ ts \/ found = eofToken)) /\
  (ts = [] ->
   parseFloatVector toFloat zero S o c ts =
     (inl (UnexpectedTokenError o eofToken), [])).
Proof.
  intros Hlen Ho Hc.
  assert (Heof : forall k, (k <= S + 1)%nat ->
            hasType (expectedAt S o c k) eofToken = false).
  { intros k Hk. destruct (expectedAt_cases S o c k) as [-> | [-> | ->]];
      [exact Ho | exact Number_rejects_eof | exact Hc]. }
  split.
  - destruct (parseFloatVector_cases toFloat zero S o c ts)
      as [[Hall _] | (k & Hk & _ & _ & ->)].
    + specialize (Hall (length ts) ltac:(lia)).
      rewrite tokenAt_past, Heof in Hall by lia. discriminate.
    + exists (expectedAt S o c k), (tokenAt k ts). split; [reflexivity | ].
      destruct (decide (k < length ts)%nat) as [Hin | Hout].
      * left. apply list_elem_of_In. now apply nth_In.
      * right. apply tokenAt_past. lia.
  - intros ->. rewrite (parseFloatVector_fails toFloat zero S o c [] 0).
    + reflexivity.
    + lia.
    + intros j Hj. lia.
    + exact Ho.
Qed.

(** X11: no component is left unwritten. The value a default constructed
    [vm::vec] holds never shows in what [parseFloatVector] returns, nor
    in where it leaves the tokenizer: two runs that differ in that value
    only end the same. *)
Theorem parseFloatVector_writes_every_component {T : Type}
  (toFloat : Token -> T) (zero zero' : T) (S : nat) (o c : TokenType)
  (ts : QuakeMapTokenizer) :
  parseFloatVector toFloat zero S o c ts =
  parseFloatVector toFloat zero' S o c ts.
Proof.
  destruct (parseFloatVector_cases toFloat zero S o c ts)
    as [[Hall ->] | (k & Hk & Hpre & Hbad & ->)].
  - now rewrite parseFloatVector_ok.
  - now rewrite (parseFloatVector_fails toFloat zero' S o c ts k).
Qed.

Lemma tokenAt_prefix (k n : nat) (ts rest : list Token) :
  (k < n)%nat -> (n <= length ts)%nat ->
  tokenAt k (take n ts ++ rest) = tokenAt k ts.
Proof.
  intros Hk Hn. unfold tokenAt.
  rewrite app_nth1 by (rewrite length_take; lia).
  rewrite <- (take_drop n ts) at 2.
  now rewrite app_nth1 by (rewrite length_take; lia).
Qed.

(** X12: no lookahead. What [parseFloatVector<S>] returns or throws is
    settled by the next [S + 2] tokens: whatever follows them, the result
    is the same, and after a return the tokenizer stands right behind
    them. *)
Theorem parseFloatVector_reads_its_own_tokens_only {T : Type}
  (toFloat : Token -> T) (zero : T) (S : nat) (o c : TokenType)
  (ts rest : QuakeMapTokenizer) :
  (S + 2 <= length ts)%nat ->
  (parseFloatVector toFloat zero S o c (take (S + 2) ts ++ rest)).1 =
  (parseFloatVector toFloat zero S o c ts).1 /\
  (forall v, (parseFloatVector toFloat zero S o c ts).1 = inr v ->
     (parseFloatVector toFloat zero S o c (take (S + 2) ts ++ rest)).2 = rest).
Proof.
  intros Hlen.
  assert (Hsame : forall k, (k <= S + 1)%nat ->
            tokenAt k (take (S + 2) ts ++ rest) = tokenAt k ts)
    by (intros k Hk; apply tokenAt_prefix; lia).
  destruct (parseFloatVector_cases toFloat zero S o c ts)
    as [[Hall ->] | (k & Hk & Hpre & Hbad & ->)].
  - rewrite parseFloatVector_ok
      by (intros k Hk; rewrite Hsame by exact Hk; now apply Hall).
    simpl. split.
    + f_equal. unfold vectorAt. apply map_ext_in. intros j Hj.
      apply in_seq in Hj. rewrite Hsame by lia. reflexivity.
    + intros _ _. rewrite drop_app_length'; [reflexivity | ].
      rewrite length_take. lia.
  - rewrite (parseFloatVector_fails toFloat zero S o c _ k).
    + simpl. split; [now rewrite Hsame by exact Hk | intros v [=]].
    + exact Hk.
    + intros j Hj. rewrite Hsame by lia. now apply Hpre.
    + now rewrite Hsame by exact Hk.
Qed.

Lemma parseFloatVector_on_truncated_input_witness :
  exists expected found,
    (parseFloatVector Samples.toFloat 0 3 QuakeMapToken.OParenthesis
       QuakeMapToken.CParenthesis
       [Samples.oparen 1; Samples.int 1 "1"; Samples.int 1 "2"]).1 =
      inl (UnexpectedTokenError expected found) /\
    (found ∈ [Samples.oparen 1; Samples.int 1 "1"; Samples.int 1 "2"] \/
     found = eofToken).
Proof.
  apply (proj1 (parseFloatVector_on_truncated_input Samples.toFloat 0 3
                  QuakeMapToken.OParenthesis QuakeMapToken.CParenthesis
                  [Samples.oparen 1; Samples.int 1 "1"; Samples.int 1 "2"]
                  ltac:(simpl; lia) eq_refl eq_refl)).
Defined.

Lemma parseFloatVector_reads_its_own_tokens_only_witness :
  (parseFloatVector Samples.toFloat 0 3 QuakeMapToken.OParenthesis
     QuakeMapToken.CParenthesis
     (take 5 (Samples.point 1 "1" "2" "3" ++ [Samples.str 1 "tex"])
      ++ [Samples.cbrace 2])).1 =
  (parseFloatVector Samples.toFloat 0 3 QuakeMapToken.OParenthesis
     QuakeMapToken.CParenthesis
     (Samples.point 1 "1" "2" "3" ++ [Samples.str 1 "tex"])).1.
Proof.
  apply (proj1 (parseFloatVector_reads_its_own_tokens_only Samples.toFloat 0 3
                  QuakeMapToken.OParenthesis QuakeMapToken.CParenthesis
                  (Samples.point 1 "1" "2" "3" ++ [Samples.str 1 "tex"])
                  [Samples.cbrace 2] ltac:(simpl; lia))).
Defined.
End FloatVectorMore.

(** * [RenderBatch] *)

Module BatchFacts.
Import Batch.

Lemma targetsOf_cons (ty : StaticType) (q : Request) (qs : list Request) :
  targetsOf ty (q :: qs) =
  (if decide (staticType q = ty) then [target q] else []) ++ targetsOf ty qs.
Proof.
  unfold targetsOf. rewrite filter_cons.
  now destruct (decide (staticType q = ty)).
Qed.

Lemma oneShotsOf_cons (q : Request) (qs : list Request) :
  oneShotsOf (q :: qs) =
  (if oneShot q then [target q] else []) ++ oneShotsOf qs.
Proof.
  unfold oneShotsOf. rewrite filter_cons.
  destruct (decide (oneShot q = true)) as [-> | Hq]; [reflexivity | ].
  now destruct (oneShot q).
Qed.

Lemma request_done (q : Request) (b : RenderBatch) :
  target q <> 0%N ->
  exists b', request q b = Done b' /\ filled [q] b b'.
Proof.
  intros Hq. destruct q as [one ty t]. simpl in Hq.
  unfold request, add_Renderable, add_DirectRenderable, add_IndexedRenderable,
    addOneShot_Renderable, addOneShot_DirectRenderable,
    addOneShot_IndexedRenderable, newWrapper, doAdd, filled. simpl.
  destruct (N.eqb_spec t 0) as [-> | _]; [contradiction | ].
  destruct one, ty; simpl; eexists; (split; [reflexivity | ]); simpl;
    rewrite ?app_nil_r; repeat split.
Qed.

Lemma request_null (q : Request) (b : RenderBatch) :
  target q = 0%N -> request q b = EnsureFailed (nullMessage q).
Proof.
  destruct q as [one ty t]. simpl. intros ->.
  destruct one, ty; reflexivity.
Qed.

Lemma filled_nil (b : RenderBatch) : filled [] b b.
Proof. unfold filled. simpl. now rewrite !app_nil_r. Qed.

Lemma filled_cons (q : Request) (qs : list Request) (b b1 b' : RenderBatch) :
  filled [q] b b1 -> filled qs b1 b' -> filled (q :: qs) b b'.
Proof.
  unfold filled. intros (Hb1 & Hd1 & Hi1 & Ho1) (Hb & Hd & Hi & Ho).
  rewrite Hb, Hd, Hi, Ho, Hb1, Hd1, Hi1, Ho1.
  rewrite !length_app, <- !app_assoc.
  rewrite (targetsOf_cons AsIndexedRenderable q qs),
    (targetsOf_cons AsDirectRenderable q qs), (oneShotsOf_cons q qs).
  rewrite (targetsOf_cons AsIndexedRenderable q []),
    (targetsOf_cons AsDirectRenderable q []), (oneShotsOf_cons q []).
  unfold targetsOf, oneShotsOf. simpl. rewrite !app_nil_r.
  destruct (staticType q); simpl; rewrite ?Nat.add_0_r, ?Nat.add_1_r;
    repeat split; reflexivity.
Qed.

Lemma requests_done (qs : list Request) (b : RenderBatch) :
  Forall (fun q => target q <> 0%N) qs ->
  exists b', requests qs b = Done b' /\ filled qs b b'.
Proof.
  intros Hqs. revert b. induction Hqs as [ | q qs Hq _ IH]; intros b.
  - exists b. split; [reflexivity | apply filled_nil].
  - destruct (request_done q b Hq) as (b1 & Hreq & H1).
    destruct (IH b1) as (b' & Hrest & Hfilled).
    exists b'. simpl. rewrite Hreq. simpl. split; [exact Hrest | ].
    now apply (filled_cons q qs b b1 b').
Qed.

(** The first null argument stops the sequence. *)
Lemma requests_null (qs : list Request) (q : Request) (rest : list Request)
  (b : RenderBatch) :
  Forall (fun q => target q <> 0%N) qs ->
  target q = 0%N ->
  requests (qs ++ q :: rest) b = EnsureFailed (nullMessage q).
Proof.
  intros Hqs Hq. revert b. induction Hqs as [ | q' qs Hq' _ IH]; intros b.
  - simpl. now rewrite request_null.
  - simpl. destruct (request_done q' b Hq') as (b1 & -> & _). simpl. apply IH.
Qed.

Lemma render_entries (serial : nat) (qs : list Request) :
  flat_map call_render (entriesFrom serial qs) =
  map Renderable_render (map target qs).
Proof.
  revert serial. induction qs as [ | q qs IH]; intros serial; [reflexivity | ].
  simpl. destruct (staticType q); simpl; now rewrite IH.
Qed.

Lemma prepare_wrappers (serial : nat) (ws : list Address) :
  flat_map call_prepareVerticesAndIndices (wrappersFrom serial ws) =
  map prepareVerticesAndIndices ws.
Proof.
  revert serial. induction ws as [ | w ws IH]; intros serial; [reflexivity | ].
  simpl. now rewrite IH.
Qed.

Lemma first_null (qs : list Request) :
  ~ Forall (fun q => target q <> 0%N) qs ->
  exists pre q rest,
    qs = pre ++ q :: rest /\ Forall (fun q => target q <> 0%N) pre /\
    target q = 0%N.
Proof.
  induction qs as [ | q qs IH]; intros Hnull.
  - exfalso. apply Hnull. constructor.
  - destruct (decide (target q = 0%N)) as [Hq | Hq].
    + exists [], q, qs. repeat split; [constructor | exact Hq].
    + destruct IH as (pre & q' & rest & -> & Hpre & Hq').
      { intros Hqs. apply Hnull. now constructor. }
      exists (q :: pre), q', rest. repeat split; [now constructor | exact Hq'].
Qed.

Lemma requests_inv (qs : list Request) (b b' : RenderBatch) :
  requests qs b = Done b' ->
  Forall (fun q => target q <> 0%N) qs /\ filled qs b b'.
Proof.
  intros Hdone.
  destruct (decide (Forall (fun q => target q <> 0%N) qs)) as [Hqs | Hnull].
  - split; [exact Hqs | ].
    destruct (requests_done qs b Hqs) as (b1 & Hb1 & Hfilled). congruence.
  - destruct (first_null qs Hnull) as (pre & q & rest & -> & Hpre & Hq).
    rewrite requests_null in Hdone by assumption. discriminate.
Qed.

(** X13: what [render] does with the renderables of a frame. After any
    sequence of [add] and [addOneShot] calls on a new batch, [render] first
    prepares the renderables given as [DirectRenderable], in the order they
    were given, then those given as [IndexedRenderable], and only then
    renders: every renderable once for each time it was given, in the order
    of the calls. The wrapper of an indexed renderable does not show: both
    calls reach the wrappee. A renderable given as plain [Renderable] is
    not prepared. *)
Theorem render_prepares_all_then_renders_in_order (qs : list Request)
  (b : RenderBatch) :
  requests qs emptyBatch = Done b ->
  render b =
    map prepareVertices (targetsOf AsDirectRenderable qs)
    ++ map prepareVerticesAndIndices (targetsOf AsIndexedRenderable qs)
    ++ map Renderable_render (map target qs).
Proof.
  intros Hdone. apply requests_inv in Hdone as [_ (Hb & Hd & Hi & _)].
  unfold render, prepareRenderables, renderRenderables.
  rewrite Hb, Hd, Hi. simpl.
  now rewrite prepare_wrappers, render_entries, <- app_assoc.
Qed.

(** X14: null arguments. A sequence of [add] and [addOneShot] calls goes
    through exactly when no argument is null. Otherwise the first null
    argument fails an [ensure], and the calls after it are not made: the
    [ensure] of the wrapper's constructor, with the message for the wrappee,
    when the argument is given as [IndexedRenderable], and the one of
    [doAdd] otherwise. *)
Theorem null_renderable_fails_ensure (qs : list Request) (b : RenderBatch) :
  ((exists b', requests qs b = Done b') <->
   Forall (fun q => target q <> 0%N) qs) /\
  (forall pre q rest,
     qs = pre ++ q :: rest ->
     Forall (fun q => target q <> 0%N) pre ->
     target q = 0%N ->
     requests qs b =
       EnsureFailed
         (match staticType q with
          | AsIndexedRenderable => "wrappee is null"
          | _ => "renderable is null"
          end)).
Proof.
  split.
  - split.
    + intros [b' Hdone]. now apply requests_inv in Hdone.
    + intros Hqs. destruct (requests_done qs b Hqs) as (b' & Hdone & _).
      now exists b'.
  - intros pre q rest -> Hpre Hq. now apply requests_null.
Qed.

Lemma wrappersFrom_serial (serial s : nat) (w : Address) (ws : list Address) :
  Wrapper s w ∈ wrappersFrom serial ws -> (serial <= s)%nat.
Proof.
  revert serial. induction ws as [ | w' ws IH]; intros serial Hin; simpl in Hin.
  - inversion Hin.
  - apply elem_of_cons in Hin as [[= -> _] | Hin]; [lia | ].
    apply IH in Hin. lia.
Qed.

Lemma wrappersFrom_NoDup (serial : nat) (ws : list Address) :
  NoDup (wrappersFrom serial ws).
Proof.
  revert serial. induction ws as [ | w ws IH]; intros serial; simpl.
  - constructor.
  - constructor; [ | apply IH].
    intros Hin. apply wrappersFrom_serial in Hin. lia.
Qed.

Lemma wrappers_of_entries (serial : nat) (qs : list Request) :
  filter (fun p => isWrapper p = true) (entriesFrom serial qs) =
  wrappersFrom serial (targetsOf AsIndexedRenderable qs).
Proof.
  revert serial. induction qs as [ | q qs IH]; intros serial; [reflexivity | ].
  rewrite targetsOf_cons. simpl.
  destruct (staticType q) eqn:Hty; simpl.
  - rewrite filter_cons_False by (simpl; discriminate). apply IH.
  - rewrite filter_cons_False by (simpl; discriminate). apply IH.
  - rewrite filter_cons_True by reflexivity. now rewrite IH.
Qed.

Lemma wrappersFrom_not_given (serial : nat) (ws : list Address)
  (a : Address) :
  Given a ∉ wrappersFrom serial ws.
Proof.
  revert serial. induction ws as [ | w ws IH]; intros serial Hin;
    simpl in Hin; [inversion Hin | ].
  apply elem_of_cons in Hin as [[=] | Hin]. now apply IH in Hin.
Qed.

(** Deleting objects none of which was deleted before, each once. *)
Lemma vec_clear_and_delete_once (v deleted : list RenderablePtr) :
  NoDup v ->
  (forall p, p ∈ v -> p ∉ deleted) ->
  vec_clear_and_delete v deleted = Destroyed (deleted ++ v).
Proof.
  intros Hv. revert deleted.
  induction Hv as [ | p v Hp _ IH]; intros deleted Hfresh; simpl.
  - now rewrite app_nil_r.
  - rewrite bool_decide_eq_false_2 by (apply Hfresh; left).
    rewrite IH, <- app_assoc; [reflexivity | ].
    intros q Hq Hin. apply elem_of_app in Hin as [Hin | Hin].
    + apply (Hfresh q); [now right | exact Hin].
    + apply list_elem_of_singleton in Hin as ->. contradiction.
Qed.

(** Deleting stops at the first object that was deleted before. *)
Lemma vec_clear_and_delete_again (pre rest deleted : list RenderablePtr)
  (p : RenderablePtr) :
  NoDup pre ->
  (forall q, q ∈ pre -> q ∉ deleted) ->
  p ∈ deleted ++ pre ->
  vec_clear_and_delete (pre ++ p :: rest) deleted =
    DoubleDelete (deleted ++ pre) p.
Proof.
  intros Hpre. revert deleted.
  induction Hpre as [ | q pre Hq _ IH]; intros deleted Hfresh Hp; simpl.
  - rewrite app_nil_r in *. now rewrite bool_decide_eq_true_2.
  - rewrite bool_decide_eq_false_2 by (apply Hfresh; left).
    rewrite IH, <- app_assoc; [reflexivity | | ].
    + intros q' Hq' Hin. apply elem_of_app in Hin as [Hin | Hin].
      * apply (Hfresh q'); [now right | exact Hin].
      * apply list_elem_of_singleton in Hin as ->. contradiction.
    + now rewrite <- app_assoc.
Qed.

(** X15: what the destructor deletes. After any sequence of [add] and
    [addOneShot] calls on a new batch, the wrappers of the batch are exactly
    the wrappers in [m_batch], each held once. When no renderable was given
    to [addOneShot] twice, the destructor deletes the renderables given to
    [addOneShot], in the order given, and then the wrappers, every object
    once; a renderable of the caller is deleted if and only if it was given
    to [addOneShot]. When a renderable was given to [addOneShot] twice, the
    destructor deletes it a second time: it gets as far as the one-shot
    renderables before the repetition, and no wrapper is deleted. *)
Theorem destructor_deletes_oneshots_and_wrappers (qs : list Request)
  (b : RenderBatch) :
  requests qs emptyBatch = Done b ->
  m_indexedRenderables b = filter (fun p => isWrapper p = true) (m_batch b) /\
  NoDup (m_indexedRenderables b) /\
  (NoDup (oneShotsOf qs) ->
   destroy b =
     Destroyed
       (map Given (oneShotsOf qs)
        ++ wrappersFrom 0 (targetsOf AsIndexedRenderable qs)) /\
   forall a,
     Given a ∈ map Given (oneShotsOf qs)
               ++ wrappersFrom 0 (targetsOf AsIndexedRenderable qs) <->
     a ∈ oneShotsOf qs) /\
  (forall pre a rest,
     oneShotsOf qs = pre ++ a :: rest ->
     NoDup pre -> a ∈ pre ->
     destroy b = DoubleDelete (map Given pre) (Given a)).
Proof.
  intros Hdone. apply requests_inv in Hdone as [_ (Hb & _ & Hi & Ho)].
  simpl in Hb, Hi, Ho.
  split; [now rewrite Hb, Hi, wrappers_of_entries | ].
  split; [rewrite Hi; apply wrappersFrom_NoDup | ].
  assert (Hinj : forall l : list Address, NoDup l -> NoDup (map Given l)).
  { intros l Hl. induction Hl as [ | x l Hx _ IH]; [constructor | ].
    simpl. constructor; [ | exact IH].
    intros Hin. apply list_elem_of_fmap in Hin as (y & [= <-] & Hy).
    contradiction. }
  split.
  - intros Hnodup. split.
    + unfold destroy. rewrite Ho, Hi.
      rewrite vec_clear_and_delete_once;
        [ | now apply Hinj | intros p _ Hin; inversion Hin].
      simpl. apply vec_clear_and_delete_once; [apply wrappersFrom_NoDup | ].
      intros p Hp Hin. apply list_elem_of_fmap in Hin as (a & -> & _).
      now apply wrappersFrom_not_given in Hp.
    + intros a. rewrite elem_of_app, list_elem_of_fmap. split.
      * intros [(a' & [= ->] & Ha) | Hin]; [exact Ha | ].
        now apply wrappersFrom_not_given in Hin.
      * intros Ha. left. now exists a.
  - intros pre a rest Hsplit Hpre Ha. unfold destroy.
    rewrite Ho, Hsplit, map_app. simpl.
    rewrite vec_clear_and_delete_again; [reflexivity | now apply Hinj | | ].
    + intros q _ Hin. inversion Hin.
    + simpl. apply list_elem_of_fmap. now exists a.
Qed.

Lemma render_prepares_all_then_renders_in_order_witness :
  render
    (mkRenderBatch
       [Given 10%N; Given 20%N; Wrapper 0 30%N; Wrapper 1 40%N]
       [20%N] [Wrapper 0 30%N; Wrapper 1 40%N] [40%N]) =
    [prepareVertices 20%N; prepareVerticesAndIndices 30%N;
     prepareVerticesAndIndices 40%N;
     Renderable_render 10%N; Renderable_render 20%N;
     Renderable_render 30%N; Renderable_render 40%N].
Proof.
  apply (render_prepares_all_then_renders_in_order sampleFrame).
  reflexivity.
Defined.

Lemma null_renderable_fails_ensure_witness :
  requests (sampleFrame ++ mkRequest false AsIndexedRenderable 0%N :: sampleFrame)
    emptyBatch = EnsureFailed "wrappee is null".
Proof.
  apply (proj2 (null_renderable_fails_ensure
                  (sampleFrame ++
                   mkRequest false AsIndexedRenderable 0%N :: sampleFrame)
                  emptyBatch)
           sampleFrame (mkRequest false AsIndexedRenderable 0%N) sampleFrame).
  - reflexivity.
  - repeat constructor; discriminate.
  - reflexivity.
Defined.

Lemma destructor_deletes_oneshots_and_wrappers_witness :
  destroy
    (mkRenderBatch
       [Given 10%N; Given 20%N; Wrapper 0 30%N; Wrapper 1 40%N]
       [20%N] [Wrapper 0 30%N; Wrapper 1 40%N] [40%N]) =
    Destroyed [Given 40%N; Wrapper 0 30%N; Wrapper 1 40%N] /\
  destroy
    (mkRenderBatch
       [Given 50%N; Given 60%N; Given 60%N; Wrapper 0 70%N]
       [60%N] [Wrapper 0 70%N] [50%N; 60%N; 60%N]) =
    DoubleDelete [Given 50%N; Given 60%N] (Given 60%N).
Proof.
  split.
  - apply (proj1 (proj1 (proj2 (proj2
             (destructor_deletes_oneshots_and_wrappers sampleFrame _ eq_refl)))
             ltac:(apply (bool_decide_unpack _); vm_compute; exact I))).
  - apply (proj2 (proj2 (proj2
             (destructor_deletes_oneshots_and_wrappers repeatedOneShot _
                eq_refl)))
             [50%N; 60%N] 60%N []).
    + reflexivity.
    + apply (bool_decide_unpack _). vm_compute. exact I.
    + apply (bool_decide_unpack _). vm_compute. exact I.
Defined.
End BatchFacts.

(** * [GameFactory] *)

Module GamesFacts.
Import Games.

Section Profiles.
Context {Path FS CompilationConfig GameEngineConfig : Type}.
Variable toPath : string -> Path.
Variable pathAdd : Path -> Path -> Path.
Variable addExtension : Path -> string -> Path.
Variable fileExists : FS -> Path -> bool.
Variable openFile : FS -> Path -> Exception FS + string.
Variable makeAbsolute : FS -> Path -> Path.
Variable copyFile : FS -> Path -> Path -> bool -> option (Exception FS) * FS.
Variable createFileAtomic : FS -> Path -> string -> option (Exception FS) * FS.
Variable parseCompilationConfig :
  string -> Path -> Exception FS + CompilationConfig.
Variable parseGameEngineConfig :
  string -> Path -> Exception FS + GameEngineConfig.
Variable writeCompilation : CompilationConfig -> string.
Variable writeGameEngine : GameEngineConfig -> string.
Variable compilationConfig_eqb : CompilationConfig -> CompilationConfig -> bool.
Variable gameEngineConfig_eqb : GameEngineConfig -> GameEngineConfig -> bool.

Local Abbreviation Config := (GameConfig CompilationConfig GameEngineConfig).
Local Abbreviation writeCompilationCfg :=
  (writeCompilationConfig toPath pathAdd addExtension makeAbsolute copyFile
     createFileAtomic writeCompilation compilationConfig_eqb).
Local Abbreviation writeGameEngineCfg :=
  (writeGameEngineConfig toPath pathAdd addExtension makeAbsolute copyFile
     createFileAtomic writeGameEngine gameEngineConfig_eqb).
Local Abbreviation loadCompilationCfg :=
  (loadCompilationConfig toPath pathAdd fileExists openFile makeAbsolute
     parseCompilationConfig).
Local Abbreviation loadGameEngineCfg :=
  (loadGameEngineConfig toPath pathAdd fileExists openFile makeAbsolute
     parseGameEngineConfig).

(** A write that returns leaves the configuration unflagged and equal to
    what was to be saved. *)
Lemma writeCompilationConfig_returns (gameConfig : Config)
  (newConfig : CompilationConfig) (fs : FS) :
  (writeCompilationCfg gameConfig newConfig fs).1.1.1 = None ->
  let gameConfig' := (writeCompilationCfg gameConfig newConfig fs).1.1.2 in
  compilationConfigParseFailed gameConfig' = false /\
  name gameConfig' = name gameConfig /\
  (compilationConfig gameConfig' = newConfig \/
   compilationConfig gameConfig' = compilationConfig gameConfig /\
   compilationConfig_eqb (compilationConfig gameConfig) newConfig = true).
Proof.
  unfold writeCompilationConfig, backupFile.
  destruct (compilationConfigParseFailed gameConfig) eqn:Hflag; simpl.
  - destruct (copyFile _ _ _ _) as [[e | ] fs1]; simpl; [discriminate | ].
    destruct (createFileAtomic _ _ _) as [[e | ] fs2]; simpl; [discriminate | ].
    intros _. split; [reflexivity | split; [reflexivity | now left]].
  - destruct (compilationConfig_eqb _ _) eqn:Heq; simpl.
    + intros _. split; [first [exact Hflag | reflexivity] | ].
      split; [reflexivity | right; now split].
    + destruct (createFileAtomic _ _ _) as [[e | ] fs2]; simpl; [discriminate | ].
      intros _. split; [first [exact Hflag | reflexivity] | ].
      split; [reflexivity | now left].
Qed.

Lemma writeGameEngineConfig_returns (gameConfig : Config)
  (newConfig : GameEngineConfig) (fs : FS) :
  (writeGameEngineCfg gameConfig newConfig fs).1.1.1 = None ->
  let gameConfig' := (writeGameEngineCfg gameConfig newConfig fs).1.1.2 in
  gameEngineConfigParseFailed gameConfig' = false /\
  name gameConfig' = name gameConfig /\
  (gameEngineConfig gameConfig' = newConfig \/
   gameEngineConfig gameConfig' = gameEngineConfig gameConfig /\
   gameEngineConfig_eqb (gameEngineConfig gameConfig) newConfig = true).
Proof.
  unfold writeGameEngineConfig, backupFile.
  destruct (gameEngineConfigParseFailed gameConfig) eqn:Hflag; simpl.
  - destruct (copyFile _ _ _ _) as [[e | ] fs1]; simpl; [discriminate | ].
    destruct (createFileAtomic _ _ _) as [[e | ] fs2]; simpl; [discriminate | ].
    intros _. split; [reflexivity | split; [reflexivity | now left]].
  - destruct (gameEngineConfig_eqb _ _) eqn:Heq; simpl.
    + intros _. split; [first [exact Hflag | reflexivity] | ].
      split; [reflexivity | right; now split].
    + destruct (createFileAtomic _ _ _) as [[e | ] fs2]; simpl; [discriminate | ].
      intros _. split; [first [exact Hflag | reflexivity] | ].
      split; [reflexivity | now left].
Qed.

(** A configuration that is not flagged and equal to the one to be saved
    is not written. *)
Lemma writeCompilationConfig_skips (gameConfig : Config)
  (newConfig : CompilationConfig) (fs : FS) :
  compilationConfigParseFailed gameConfig = false ->
  compilationConfig_eqb (compilationConfig gameConfig) newConfig = true ->
  writeCompilationCfg gameConfig newConfig fs =
    (None, gameConfig, fs,
     [(LoggerDebug, SkippingUnchangedCompilationConfig (name gameConfig))]).
Proof.
  intros Hflag Heq. unfold writeCompilationConfig. now rewrite Hflag, Heq.
Qed.

Lemma writeGameEngineConfig_skips (gameConfig : Config)
  (newConfig : GameEngineConfig) (fs : FS) :
  gameEngineConfigParseFailed gameConfig = false ->
  gameEngineConfig_eqb (gameEngineConfig gameConfig) newConfig = true ->
  writeGameEngineCfg gameConfig newConfig fs =
    (None, gameConfig, fs,
     [(StdOut, SkippingUnchangedGameEngineConfig (name gameConfig))]).
Proof.
  intros Hflag Heq. unfold writeGameEngineConfig. now rewrite Hflag, Heq.
Qed.

(** X16: saving twice writes once. When [operator==] of the configurations
    holds of a configuration and itself, and [writeCompilationConfig]
    returns, a second call with the same configuration touches neither the
    files nor the game configuration and logs that it skips the write;
    likewise for [writeGameEngineConfig]. *)
Theorem saving_again_writes_nothing (gameConfig : Config)
  (newCompilation : CompilationConfig) (newEngine : GameEngineConfig)
  (fs : FS) :
  (forall c, compilationConfig_eqb c c = true) ->
  (forall c, gameEngineConfig_eqb c c = true) ->
  (forall gameConfig' fs' lines,
     writeCompilationCfg gameConfig newCompilation fs =
       (None, gameConfig', fs', lines) ->
     forall fs'',
       writeCompilationCfg gameConfig' newCompilation fs'' =
         (None, gameConfig', fs'',
          [(LoggerDebug,
            SkippingUnchangedCompilationConfig (name gameConfig))])) /\
  (forall gameConfig' fs' lines,
     writeGameEngineCfg gameConfig newEngine fs =
       (None, gameConfig', fs', lines) ->
     forall fs'',
       writeGameEngineCfg gameConfig' newEngine fs'' =
         (None, gameConfig', fs'',
          [(StdOut, SkippingUnchangedGameEngineConfig (name gameConfig))])).
Proof.
  intros Hrefl Hrefl'. split.
  - intros gameConfig' fs' lines Hwrite fs''.
    pose proof (writeCompilationConfig_returns gameConfig newCompilation fs) as H.
    rewrite Hwrite in H. simpl in H.
    destruct (H eq_refl) as (Hflag & Hname & Hsaved). rewrite <- Hname.
    apply writeCompilationConfig_skips; [exact Hflag | ].
    destruct Hsaved as [-> | [-> Heq]]; [apply Hrefl | exact Heq].
  - intros gameConfig' fs' lines Hwrite fs''.
    pose proof (writeGameEngineConfig_returns gameConfig newEngine fs) as H.
    rewrite Hwrite in H. simpl in H.
    destruct (H eq_refl) as (Hflag & Hname & Hsaved). rewrite <- Hname.
    apply writeGameEngineConfig_skips; [exact Hflag | ].
    destruct Hsaved as [-> | [-> Heq]]; [apply Hrefl' | exact Heq].
Qed.

(** X17: what was loaded is not written back. When the compilation
    profiles of a game exist and parse, [loadCompilationConfig] takes the
    parsed configuration and clears the flag, and saving that very
    configuration afterwards touches no file, whatever the files have
    become since; a profiles file written by a newer version is so left
    alone until the configuration is changed. *)
Theorem loaded_config_is_not_written_back (gameConfig : Config) (fs : FS)
  (text : string) (parsed : CompilationConfig) :
  (forall c, compilationConfig_eqb c c = true) ->
  fileExists fs (compilationProfiles toPath pathAdd (name gameConfig)) = true ->
  openFile fs (compilationProfiles toPath pathAdd (name gameConfig)) =
    inr text ->
  parseCompilationConfig text
    (makeAbsolute fs (compilationProfiles toPath pathAdd (name gameConfig))) =
    inr parsed ->
  let loaded := (loadCompilationCfg fs gameConfig).1 in
  compilationConfig loaded = parsed /\
  compilationConfigParseFailed loaded = false /\
  forall fs',
    (writeCompilationCfg loaded parsed fs').1 = (None, loaded, fs').
Proof.
  intros Hrefl Hexists Hopen Hparse. unfold loadCompilationConfig.
  rewrite Hexists, Hopen, Hparse. simpl.
  split; [reflexivity | ]. split; [reflexivity | ]. intros fs'.
  rewrite writeCompilationConfig_skips; [reflexivity | reflexivity | apply Hrefl].
Qed.

(** X18: malformed profiles are backed up before they are overwritten.
    When the compilation profiles of a game exist but cannot be read or
    parsed, [loadCompilationConfig] flags the game configuration and keeps
    the rest of it. The next save of any configuration, equal to the one in
    memory or not, first copies the profiles to the same path with the
    extension [bak], overwriting an older backup; only when the copy went
    through is the flag cleared and the new text written, and if the copy
    throws, nothing is written and the flag stays. *)
Theorem malformed_profiles_are_backed_up_first (gameConfig : Config) (fs : FS)
  (newConfig : CompilationConfig) (fs' : FS) :
  let profiles := compilationProfiles toPath pathAdd (name gameConfig) in
  fileExists fs profiles = true ->
  (forall text parsed,
     openFile fs profiles = inr text ->
     parseCompilationConfig text (makeAbsolute fs profiles) <> inr parsed) ->
  let loaded := (loadCompilationCfg fs gameConfig).1 in
  let copied := copyFile fs' profiles (addExtension profiles "bak") true in
  let result := writeCompilationCfg loaded newConfig fs' in
  loaded =
    mkGameConfig (name gameConfig) (compilationConfig gameConfig)
      (gameEngineConfig gameConfig) true
      (gameEngineConfigParseFailed gameConfig) /\
  (forall e, copied.1 = Some e ->
     result = (Some e, loaded, copied.2, [])) /\
  (copied.1 = None ->
   result.1.2 =
     (createFileAtomic copied.2 profiles (writeCompilation newConfig)).2 /\
   result.1.1.1 =
     (createFileAtomic copied.2 profiles (writeCompilation newConfig)).1 /\
   compilationConfigParseFailed result.1.1.2 = false).
Proof.
  intros profiles Hexists Hbad loaded copied result.
  assert (Hloaded : loaded =
            mkGameConfig (name gameConfig) (compilationConfig gameConfig)
              (gameEngineConfig gameConfig) true
              (gameEngineConfigParseFailed gameConfig)).
  { subst loaded. unfold loadCompilationConfig. fold profiles.
    rewrite Hexists.
    destruct (openFile fs profiles) as [e | text] eqn:Hopen; [reflexivity | ].
    destruct (parseCompilationConfig text (makeAbsolute fs profiles))
      as [e | parsed] eqn:Hparse; [reflexivity | ].
    now destruct (Hbad text parsed). }
  split; [exact Hloaded | ].
  subst result. unfold writeCompilationConfig, backupFile.
  rewrite Hloaded. simpl. fold profiles. fold copied.
  destruct copied as [[e | ] fs1]; simpl.
  - split; [ | discriminate]. now intros e' [= <-].
  - split; [discriminate | ]. intros _.
    now destruct (createFileAtomic fs1 profiles (writeCompilation newConfig))
      as [[e | ] fs2].
Qed.
End Profiles.

(** ** The registry *)

Lemma emplace_is_Some {V} (k n : string) (v : V) (m : gmap string V) :
  is_Some (emplace k v m !! n) <-> n = k \/ is_Some (m !! n).
Proof.
  unfold emplace. destruct (m !! k) as [v' | ] eqn:Hk.
  - split; [now right | ]. intros [-> | H]; [now rewrite Hk | exact H].
  - destruct (decide (n = k)) as [-> | Hn].
    + rewrite lookup_insert_eq. split; [now left | eauto].
    + rewrite lookup_insert_ne by congruence. split; [now right | ].
      intros [? | H]; [contradiction | exact H].
Qed.

Lemma emplace_Some {V} (k n : string) (v c : V) (m : gmap string V) :
  emplace k v m !! n = Some c -> m !! n = Some c \/ n = k /\ c = v.
Proof.
  unfold emplace. destruct (m !! k) as [v' | ] eqn:Hk; [now left | ].
  destruct (decide (n = k)) as [-> | Hn].
  - rewrite lookup_insert_eq. intros [= <-]. now right.
  - rewrite lookup_insert_ne by congruence. now left.
Qed.

Lemma emplace_size {V} (k : string) (v : V) (m : gmap string V) :
  (size (emplace k v m) <= S (size m))%nat.
Proof.
  unfold emplace. destruct (m !! k) as [v' | ] eqn:Hk; [lia | ].
  rewrite map_size_insert_None by exact Hk. lia.
Qed.

Lemma sortedInsert_perm (a : string) (l : list string) :
  sortedInsert a l ≡ₚ a :: l.
Proof.
  induction l as [ | b l IH]; [reflexivity | ]. simpl.
  destruct (String.leb a b); [reflexivity | ].
  rewrite IH. apply Permutation_swap.
Qed.

Lemma col_sort_perm (l : list string) : col_sort l ≡ₚ l.
Proof.
  induction l as [ | a l IH]; [reflexivity | ].
  unfold col_sort in *. simpl. now rewrite sortedInsert_perm, IH.
Qed.

Lemma sortedInsert_head (a b : string) (l : list string) :
  String.leb b a = true ->
  ascending (b :: l) = true ->
  ascending (b :: sortedInsert a l) = true.
Proof.
  revert b. induction l as [ | c l IH]; intros b Hba Hasc.
  - simpl. now rewrite Hba.
  - simpl in Hasc. apply andb_true_iff in Hasc as [Hbc Hasc].
    cbn [sortedInsert]. destruct (String.leb a c) eqn:Hac.
    + cbn [ascending]. cbn [ascending] in Hasc. now rewrite Hba, Hac, Hasc.
    + change (String.leb b c && ascending (c :: sortedInsert a l) = true).
      rewrite Hbc. simpl. apply IH; [ | exact Hasc].
      destruct (String.leb_total a c) as [H | H]; congruence.
Qed.

Lemma sortedInsert_ascending (a : string) (l : list string) :
  ascending l = true -> ascending (sortedInsert a l) = true.
Proof.
  destruct l as [ | b l]; intros Hasc; [reflexivity | ].
  cbn [sortedInsert]. destruct (String.leb a b) eqn:Hab.
  - change (String.leb a b && ascending (b :: l) = true).
    now rewrite Hab, Hasc.
  - apply sortedInsert_head; [ | exact Hasc].
    destruct (String.leb_total a b) as [H | H]; congruence.
Qed.

Lemma col_sort_ascending (l : list string) : ascending (col_sort l) = true.
Proof.
  induction l as [ | a l IH]; [reflexivity | ].
  unfold col_sort in *. simpl. now apply sortedInsert_ascending.
Qed.

Section Registry.
Context {Path FS CompilationConfig GameEngineConfig : Type}.
Variable toPath : string -> Path.
Variable pathAdd : Path -> Path -> Path.
Variable addExtension : Path -> string -> Path.
Variable asString : Path -> string.
Variable fileExists : FS -> Path -> bool.
Variable openFile : FS -> Path -> Exception FS + string.
Variable makeAbsolute : FS -> Path -> Path.
Variable findItemsRecursively : FS -> Path -> string -> list Path.
Variable copyFile : FS -> Path -> Path -> bool -> option (Exception FS) * FS.
Variable createFileAtomic : FS -> Path -> string -> option (Exception FS) * FS.
Variable parseGameConfig :
  string -> Path ->
  Exception FS + GameConfig CompilationConfig GameEngineConfig.
Variable parseCompilationConfig :
  string -> Path -> Exception FS + CompilationConfig.
Variable parseGameEngineConfig :
  string -> Path -> Exception FS + GameEngineConfig.
Variable writeCompilation : CompilationConfig -> string.
Variable writeGameEngine : GameEngineConfig -> string.
Variable compilationConfig_eqb : CompilationConfig -> CompilationConfig -> bool.
Variable gameEngineConfig_eqb : GameEngineConfig -> GameEngineConfig -> bool.
Variable preferenceGet : Preference Path -> Path.

Local Abbreviation Config := (GameConfig CompilationConfig GameEngineConfig).
Local Abbreviation Factory :=
  (@GameFactory Path FS CompilationConfig GameEngineConfig).
Local Abbreviation loadCompilationCfg :=
  (loadCompilationConfig toPath pathAdd fileExists openFile makeAbsolute
     parseCompilationConfig).
Local Abbreviation loadGameEngineCfg :=
  (loadGameEngineConfig toPath pathAdd fileExists openFile makeAbsolute
     parseGameEngineConfig).
Local Abbreviation doLoad :=
  (doLoadGameConfig toPath pathAdd fileExists openFile makeAbsolute
     parseGameConfig parseCompilationConfig parseGameEngineConfig).
Local Abbreviation load :=
  (loadGameConfig toPath pathAdd fileExists openFile makeAbsolute
     parseGameConfig parseCompilationConfig parseGameEngineConfig).
Local Abbreviation loadAll :=
  (loadGameConfigs toPath pathAdd asString fileExists openFile makeAbsolute
     findItemsRecursively parseGameConfig parseCompilationConfig
     parseGameEngineConfig).
Local Abbreviation each :=
  (loadEach toPath pathAdd asString fileExists openFile makeAbsolute
     parseGameConfig parseCompilationConfig parseGameEngineConfig).
Local Abbreviation saveCompilation :=
  (saveCompilationConfig toPath pathAdd addExtension makeAbsolute copyFile
     createFileAtomic writeCompilation compilationConfig_eqb).
Local Abbreviation saveGameEngine :=
  (saveGameEngineConfig toPath pathAdd addExtension makeAbsolute copyFile
     createFileAtomic writeGameEngine gameEngineConfig_eqb).
Local Abbreviation read := (readGameConfig openFile makeAbsolute parseGameConfig).
Local Abbreviation reachableFactory :=
  (reachable toPath pathAdd addExtension asString fileExists openFile
     makeAbsolute findItemsRecursively copyFile createFileAtomic
     parseGameConfig parseCompilationConfig parseGameEngineConfig
     writeCompilation writeGameEngine compilationConfig_eqb
     gameEngineConfig_eqb).

Lemma loadCompilationConfig_name (fs : FS) (config : Config) :
  name (loadCompilationCfg fs config).1 = name config.
Proof.
  unfold loadCompilationConfig.
  destruct (fileExists _ _); [ | reflexivity].
  destruct (openFile _ _) as [e | text]; [reflexivity | ].
  now destruct (parseCompilationConfig _ _).
Qed.

Lemma loadGameEngineConfig_name (fs : FS) (config : Config) :
  name (loadGameEngineCfg fs config).1 = name config.
Proof.
  unfold loadGameEngineConfig.
  destruct (fileExists _ _); [ | reflexivity].
  destruct (openFile _ _) as [e | text]; [reflexivity | ].
  now destruct (parseGameEngineConfig _ _).
Qed.

(** The two ways [doLoadGameConfig] ends: it throws before it has touched
    anything, or it puts the configuration under its name. *)
Lemma doLoadGameConfig_cases (f : Factory) (path : Path) :
  match read (m_configFS f) path with
  | inl e => doLoad f path = (Some e, f, [])
  | inr config =>
      exists config2 lines,
        name config2 = name config /\
        doLoad f path =
          (None,
           mkGameFactory (m_configFS f) (m_names f ++ [name config])
             (emplace (name config) config2 (m_configs f))
             (emplace (name config)
                (gamePathPreference toPath pathAdd (name config))
                (m_gamePaths f))
             (emplace (name config)
                (defaultEnginePreference toPath pathAdd (name config))
                (m_defaultEngines f)),
           lines)
  end.
Proof.
  unfold readGameConfig, doLoadGameConfig.
  destruct (openFile _ _) as [e | text]; [reflexivity | ].
  destruct (parseGameConfig _ _) as [e | config]; [reflexivity | ].
  pose proof (loadCompilationConfig_name (m_configFS f) config) as H1.
  destruct (loadCompilationCfg (m_configFS f) config) as [config1 lines1].
  pose proof (loadGameEngineConfig_name (m_configFS f) config1) as H2.
  destruct (loadGameEngineCfg (m_configFS f) config1) as [config2 lines2].
  simpl in H1, H2. rewrite H2, H1.
  exists config2, (lines1 ++ lines2). split; [congruence | reflexivity].
Qed.

Lemma coherent_new (fs : FS) :
  coherent toPath pathAdd (newFactory fs : Factory).
Proof.
  unfold coherent, newFactory. simpl. repeat split.
  - intros H. inversion H.
  - rewrite lookup_empty. intros [? [=]].
  - rewrite lookup_empty. intros [? [=]].
  - rewrite lookup_empty. intros [? [=]].
  - rewrite lookup_empty. intros [? [=]].
  - rewrite lookup_empty. intros [? [=]].
  - intros n c. rewrite lookup_empty. discriminate.
  - intros n c. rewrite lookup_empty. discriminate.
  - intros n c. rewrite lookup_empty. discriminate.
  - rewrite map_size_empty. lia.
Qed.

Lemma coherent_added (f : Factory) (fs' : FS) (config : Config) :
  coherent toPath pathAdd f ->
  coherent toPath pathAdd
    (mkGameFactory fs' (m_names f ++ [name config])
       (emplace (name config) config (m_configs f))
       (emplace (name config)
          (gamePathPreference toPath pathAdd (name config)) (m_gamePaths f))
       (emplace (name config)
          (defaultEnginePreference toPath pathAdd (name config))
          (m_defaultEngines f))).
Proof.
  intros (Hnames & Hpaths & Hengines & Hown & Hpath & Hengine & Hsize).
  unfold coherent. simpl. repeat split.
  - rewrite elem_of_app, list_elem_of_singleton, emplace_is_Some, Hnames. tauto.
  - rewrite emplace_is_Some, elem_of_app, list_elem_of_singleton, Hnames. tauto.
  - rewrite !emplace_is_Some, Hpaths. tauto.
  - rewrite !emplace_is_Some, Hpaths. tauto.
  - rewrite !emplace_is_Some, Hengines. tauto.
  - rewrite !emplace_is_Some, Hengines. tauto.
  - intros n c Hc. apply emplace_Some in Hc as [Hc | [-> ->]];
      [now apply Hown | reflexivity].
  - intros n pref Hpref. apply emplace_Some in Hpref as [Hpref | [-> ->]];
      [now apply Hpath | reflexivity].
  - intros n pref Hpref. apply emplace_Some in Hpref as [Hpref | [-> ->]];
      [now apply Hengine | reflexivity].
  - rewrite length_app. simpl.
    pose proof (emplace_size (name config) config (m_configs f)). lia.
Qed.

Lemma coherent_files (f : Factory) (fs' : FS) (names : list string) :
  names ≡ₚ m_names f ->
  coherent toPath pathAdd f ->
  coherent toPath pathAdd
    (mkGameFactory fs' names (m_configs f) (m_gamePaths f)
       (m_defaultEngines f)).
Proof.
  intros Hperm (Hnames & Hpaths & Hengines & Hown & Hpath & Hengine & Hsize).
  unfold coherent. simpl. repeat split; try apply Hpaths; try apply Hengines;
    try exact Hown; try exact Hpath; try exact Hengine.
  - rewrite Hperm. apply Hnames.
  - rewrite Hperm. apply Hnames.
  - now rewrite Hperm.
Qed.

Lemma coherent_saved (f : Factory) (fs' : FS) (gameName : string)
  (config config' : Config) :
  m_configs f !! gameName = Some config ->
  name config' = name config ->
  coherent toPath pathAdd f ->
  coherent toPath pathAdd
    (mkGameFactory fs' (m_names f) (<[gameName := config']> (m_configs f))
       (m_gamePaths f) (m_defaultEngines f)).
Proof.
  intros Hconfig Hname
    (Hnames & Hpaths & Hengines & Hown & Hpath & Hengine & Hsize).
  assert (Hsame : forall n,
            is_Some (<[gameName := config']> (m_configs f) !! n) <->
            is_Some (m_configs f !! n)).
  { intros n. destruct (decide (n = gameName)) as [-> | Hn].
    - rewrite lookup_insert_eq, Hconfig. split; eauto.
    - now rewrite lookup_insert_ne by congruence. }
  unfold coherent. simpl. repeat split; try exact Hpath; try exact Hengine.
  - rewrite Hsame. apply Hnames.
  - rewrite Hsame. apply Hnames.
  - rewrite Hsame. apply Hpaths.
  - rewrite Hsame. apply Hpaths.
  - rewrite Hsame. apply Hengines.
  - rewrite Hsame. apply Hengines.
  - intros n c. destruct (decide (n = gameName)) as [-> | Hn].
    + rewrite lookup_insert_eq. intros [= <-]. rewrite Hname. now apply Hown.
    + rewrite lookup_insert_ne by congruence. apply Hown.
  - rewrite map_size_insert_Some by eauto. exact Hsize.
Qed.

Lemma coherent_doLoad (f : Factory) (path : Path) :
  coherent toPath pathAdd f ->
  coherent toPath pathAdd (doLoad f path).1.2.
Proof.
  intros Hf. pose proof (doLoadGameConfig_cases f path) as H.
  destruct (read (m_configFS f) path) as [e | config].
  - now rewrite H.
  - destruct H as (config2 & lines & Hname & ->). simpl.
    rewrite <- Hname. now apply coherent_added.
Qed.

Lemma coherent_load (f : Factory) (path : Path) :
  coherent toPath pathAdd f ->
  coherent toPath pathAdd (load f path).1.2.
Proof.
  intros Hf. unfold loadGameConfig.
  pose proof (coherent_doLoad f path Hf) as H1.
  destruct (doLoad f path) as [[[e | ] f1] lines1]; [ | exact H1].
  destruct e; try exact H1. simpl in H1.
  pose proof (coherent_doLoad
                (mkGameFactory (recover (m_configFS f1)) (m_names f1)
                   (m_configs f1) (m_gamePaths f1) (m_defaultEngines f1))
                path) as H2.
  destruct (doLoad _ path) as [[e2 f2] lines2]. simpl in *.
  apply H2. now apply coherent_files.
Qed.

Lemma coherent_each (configFiles : list Path) (f : Factory)
  (errors : list string) (lines : list (Channel * Message Path)) :
  coherent toPath pathAdd f ->
  coherent toPath pathAdd (each configFiles f errors lines).1.1.
Proof.
  revert f errors lines.
  induction configFiles as [ | path rest IH]; intros f errors lines Hf;
    [exact Hf | ].
  simpl. pose proof (coherent_load f path Hf) as H1.
  destruct (load f path) as [[[e | ] f1] lines1]; simpl in H1; now apply IH.
Qed.

Lemma coherent_loadAll (f : Factory) :
  coherent toPath pathAdd f ->
  coherent toPath pathAdd (loadAll f).1.2.
Proof.
  intros Hf. unfold loadGameConfigs.
  pose proof (coherent_each
                (findItemsRecursively (m_configFS f) (toPath "") "GameConfig.cfg")
                f [] [] Hf) as H.
  destruct (each _ f [] []) as [[f1 errors] lines]. simpl in *.
  apply coherent_files; [apply col_sort_perm | exact H].
Qed.

Lemma writeCompilationConfig_name (config : Config)
  (newConfig : CompilationConfig) (fs : FS) :
  name (writeCompilationConfig toPath pathAdd addExtension makeAbsolute
          copyFile createFileAtomic writeCompilation compilationConfig_eqb
          config newConfig fs).1.1.2 = name config.
Proof.
  unfold writeCompilationConfig, backupFile.
  destruct (compilationConfigParseFailed config); simpl.
  - destruct (copyFile _ _ _ _) as [[e | ] fs1]; [reflexivity | ].
    now destruct (createFileAtomic _ _ _) as [[e | ] fs2].
  - destruct (compilationConfig_eqb _ _); [reflexivity | ]. simpl.
    now destruct (createFileAtomic _ _ _) as [[e | ] fs2].
Qed.

Lemma writeGameEngineConfig_name (config : Config)
  (newConfig : GameEngineConfig) (fs : FS) :
  name (writeGameEngineConfig toPath pathAdd addExtension makeAbsolute
          copyFile createFileAtomic writeGameEngine gameEngineConfig_eqb
          config newConfig fs).1.1.2 = name config.
Proof.
  unfold writeGameEngineConfig, backupFile.
  destruct (gameEngineConfigParseFailed config); simpl.
  - destruct (copyFile _ _ _ _) as [[e | ] fs1]; [reflexivity | ].
    now destruct (createFileAtomic _ _ _) as [[e | ] fs2].
  - destruct (gameEngineConfig_eqb _ _); [reflexivity | ]. simpl.
    now destruct (createFileAtomic _ _ _) as [[e | ] fs2].
Qed.

Lemma coherent_saveCompilation (f : Factory) (gameName : string)
  (newConfig : CompilationConfig) :
  coherent toPath pathAdd f ->
  coherent toPath pathAdd (saveCompilation f gameName newConfig).1.2.
Proof.
  intros Hf. unfold saveCompilationConfig, gameConfig.
  destruct (m_configs f !! gameName) as [config | ] eqn:Hconfig; [ | exact Hf].
  pose proof (writeCompilationConfig_name config newConfig (m_configFS f)) as Hn.
  destruct (writeCompilationConfig _ _ _ _ _ _ _ _ config newConfig _)
    as [[[e config'] fs'] lines].
  simpl in *. now apply (coherent_saved f fs' gameName config config').
Qed.

Lemma coherent_saveGameEngine (f : Factory) (gameName : string)
  (newConfig : GameEngineConfig) :
  coherent toPath pathAdd f ->
  coherent toPath pathAdd (saveGameEngine f gameName newConfig).1.2.
Proof.
  intros Hf. unfold saveGameEngineConfig, gameConfig.
  destruct (m_configs f !! gameName) as [config | ] eqn:Hconfig; [ | exact Hf].
  pose proof (writeGameEngineConfig_name config newConfig (m_configFS f)) as Hn.
  destruct (writeGameEngineConfig _ _ _ _ _ _ _ _ config newConfig _)
    as [[[e config'] fs'] lines].
  simpl in *. now apply (coherent_saved f fs' gameName config config').
Qed.

Lemma reachable_coherent (f : Factory) :
  reachableFactory f -> coherent toPath pathAdd f.
Proof.
  induction 1 as [fs | f path _ IH | f _ IH | f gameName newConfig _ IH
                  | f gameName newConfig _ IH].
  - apply coherent_new.
  - now apply coherent_load.
  - now apply coherent_loadAll.
  - now apply coherent_saveCompilation.
  - now apply coherent_saveGameEngine.
Qed.

(** X19: the games listed are the games known. Whatever loads and saves a
    factory has gone through, returned or thrown, a game is in [gameList()]
    exactly when [gameConfig] finds its configuration, which then carries
    that name, and exactly when [gamePath] finds its preference; for any
    other name both throw the exception for an unknown game. [gameCount()]
    never exceeds the length of [gameList()]. *)
Theorem listed_games_are_the_known_games (f : Factory) (gameName : string) :
  reachableFactory f ->
  (gameName ∈ gameList f ->
   (exists config, gameConfig f gameName = inr config /\
                   name config = gameName) /\
   (exists path, gamePath preferenceGet f gameName = inr path)) /\
  (gameName ∉ gameList f ->
   gameConfig f gameName = inl (GameException ("Unknown game: " +:+ gameName)) /\
   gamePath preferenceGet f gameName =
     inl (GameException ("Unknown game: " +:+ gameName))) /\
  (gameCount f <= length (gameList f))%nat.
Proof.
  intros Hf. apply reachable_coherent in Hf
    as (Hnames & Hpaths & _ & Hown & _ & _ & Hsize).
  unfold gameList, gameCount, gameConfig, gamePath.
  specialize (Hnames gameName). specialize (Hpaths gameName).
  split; [ | split; [ | exact Hsize]].
  - intros Hin. apply Hnames in Hin as Hconfig.
    apply Hpaths in Hconfig as Hpath.
    destruct Hconfig as [config Hconfig]. destruct Hpath as [pref Hpref].
    rewrite Hconfig, Hpref. split; [ | eauto].
    exists config. split; [reflexivity | now apply Hown].
  - intros Hout.
    destruct (m_configs f !! gameName) as [config | ] eqn:Hconfig.
    { exfalso. apply Hout, Hnames. eauto. }
    destruct (m_gamePaths f !! gameName) as [pref | ] eqn:Hpref.
    { exfalso. apply Hout, Hnames, Hpaths. eauto. }
    now split.
Qed.

(** X24: the game path preference of a game. For a game in [gameList()],
    [isGamePathPreference] compares the given path with the preference path
    made of [Games], the name of the game and [Path], and [gamePath] reads
    that preference, whose default is the empty path. *)
Theorem game_path_preference_is_under_the_games_name
  (path_eqb : Path -> Path -> bool) (f : Factory) (gameName : string)
  (prefPath : Path) :
  reachableFactory f ->
  gameName ∈ gameList f ->
  isGamePathPreference path_eqb f gameName prefPath =
    inr (path_eqb
           (pathAdd (pathAdd (toPath "Games") (toPath gameName)) (toPath "Path"))
           prefPath) /\
  gamePath preferenceGet f gameName =
    inr (preferenceGet
           (mkPreference
              (pathAdd (pathAdd (toPath "Games") (toPath gameName))
                 (toPath "Path"))
              (toPath ""))).
Proof.
  intros Hf Hin. apply reachable_coherent in Hf
    as (Hnames & Hpaths & _ & _ & Hpath & _ & _).
  apply Hnames, Hpaths in Hin as [pref Hpref].
  unfold isGamePathPreference, gamePath. rewrite Hpref.
  now rewrite (Hpath gameName pref Hpref).
Qed.

(** X25: a save stays with its game. [saveCompilationConfig] for a game of
    a factory leaves [gameList()] and the configuration of every other game
    as they are, and the only file operations it can have made are the
    backup copy of the compilation profiles of that game and the write of
    those profiles; for a name without a configuration it throws and
    changes nothing. *)
Theorem saving_touches_only_the_profiles_of_its_game (f : Factory)
  (gameName : string) (newConfig : CompilationConfig) :
  reachableFactory f ->
  let result := saveCompilation f gameName newConfig in
  let profiles := compilationProfiles toPath pathAdd gameName in
  let copied :=
    (copyFile (m_configFS f) profiles (addExtension profiles "bak") true).2 in
  gameList result.1.2 = gameList f /\
  (forall other, other <> gameName ->
     gameConfig result.1.2 other = gameConfig f other) /\
  (m_configFS result.1.2 = m_configFS f \/
   m_configFS result.1.2 =
     (createFileAtomic (m_configFS f) profiles (writeCompilation newConfig)).2 \/
   m_configFS result.1.2 = copied \/
   m_configFS result.1.2 =
     (createFileAtomic copied profiles (writeCompilation newConfig)).2) /\
  (gameName ∉ gameList f ->
   result = (Some (GameException ("Unknown game: " +:+ gameName)), f, [])).
Proof.
  intros Hf result profiles copied. apply reachable_coherent in Hf
    as (Hnames & _ & _ & Hown & _ & _ & _).
  subst result. unfold saveCompilationConfig, gameConfig.
  destruct (m_configs f !! gameName) as [config | ] eqn:Hconfig.
  - pose proof (Hown gameName config Hconfig) as Hname.
    unfold writeCompilationConfig, backupFile. rewrite Hname.
    fold profiles.
    assert (Hother : forall (config' : Config) other, other <> gameName ->
              match <[gameName := config']> (m_configs f) !! other with
              | Some c => inr c
              | None => inl (GameException ("Unknown game: " +:+ other))
              end =
              match m_configs f !! other with
              | Some c => @inr (Exception FS) Config c
              | None => inl (GameException ("Unknown game: " +:+ other))
              end).
    { intros config' other Hne. now rewrite lookup_insert_ne by congruence. }
    assert (Hlisted : gameName ∈ gameList f) by (apply Hnames; eauto).
    destruct (compilationConfigParseFailed config); simpl.
    + fold copied.
      destruct (copyFile (m_configFS f) profiles (addExtension profiles "bak") true)
        as [[e | ] fs1] eqn:Hcopy; simpl in copied; subst copied.
      * simpl. repeat split; [apply Hother | tauto | contradiction].
      * destruct (createFileAtomic fs1 profiles (writeCompilation newConfig))
          as [[e | ] fs2]; simpl;
          (repeat split; [apply Hother | tauto | contradiction]).
    + destruct (compilationConfig_eqb (compilationConfig config) newConfig); simpl.
      * repeat split; [apply Hother | tauto | contradiction].
      * destruct (createFileAtomic (m_configFS f) profiles
                    (writeCompilation newConfig)) as [[e | ] fs2]; simpl;
          (repeat split; [apply Hother | tauto | contradiction]).
  - simpl. repeat split; tauto.
Qed.

Lemma load_plain (f : Factory) (path : Path) :
  (forall message recover,
     read (m_configFS f) path <> inl (RecoverableException message recover)) ->
  load f path = doLoad f path.
Proof.
  intros Hplain. unfold loadGameConfig.
  pose proof (doLoadGameConfig_cases f path) as H.
  destruct (read (m_configFS f) path) as [e | config].
  - rewrite H. destruct e; try reflexivity. now destruct (Hplain message recover).
  - now destruct H as (config2 & lines & _ & ->).
Qed.

Lemma configNames_cons (fs : FS) (path : Path) (rest : list Path) :
  configNames openFile makeAbsolute parseGameConfig fs (path :: rest) =
  match read fs path with
  | inl _ => []
  | inr config => [name config]
  end ++ configNames openFile makeAbsolute parseGameConfig fs rest.
Proof.
  unfold configNames. simpl. now destruct (read fs path).
Qed.

Lemma configErrors_cons (fs : FS) (path : Path) (rest : list Path) :
  configErrors asString openFile makeAbsolute parseGameConfig fs
    (path :: rest) =
  match read fs path with
  | inl e =>
      ["Could not load game configuration file " +:+ asString path +:+
       ": " +:+ what e]
  | inr _ => []
  end ++ configErrors asString openFile makeAbsolute parseGameConfig fs rest.
Proof.
  unfold configErrors. simpl. now destruct (read fs path).
Qed.

Lemma each_plain (configFiles : list Path) (f : Factory)
  (errors : list string) (lines : list (Channel * Message Path)) :
  (forall path, path ∈ configFiles -> forall message recover,
     read (m_configFS f) path <> inl (RecoverableException message recover)) ->
  m_configFS (each configFiles f errors lines).1.1 = m_configFS f /\
  m_names (each configFiles f errors lines).1.1 =
    m_names f ++
    configNames openFile makeAbsolute parseGameConfig (m_configFS f)
      configFiles /\
  (each configFiles f errors lines).1.2 =
    errors ++
    configErrors asString openFile makeAbsolute parseGameConfig (m_configFS f)
      configFiles.
Proof.
  revert f errors lines.
  induction configFiles as [ | path rest IH]; intros f errors lines Hplain.
  - simpl. now rewrite !app_nil_r.
  - cbn [loadEach]. rewrite load_plain by (apply Hplain; left).
    pose proof (doLoadGameConfig_cases f path) as H.
    rewrite configNames_cons, configErrors_cons.
    destruct (read (m_configFS f) path) as [e | config] eqn:Hread.
    + rewrite H.
      destruct (IH f
                  (errors ++
                   ["Could not load game configuration file " +:+
                    asString path +:+ ": " +:+ what e])
                  (lines ++ [])) as (Hfs & Hnames & Herrors).
      { intros p Hp. apply Hplain. now right. }
      rewrite Hfs, Hnames, Herrors. now rewrite <- app_assoc.
    + destruct H as (config2 & lines1 & _ & ->).
      destruct (IH (mkGameFactory (m_configFS f) (m_names f ++ [name config])
                      (emplace (name config) config2 (m_configs f))
                      (emplace (name config)
                         (gamePathPreference toPath pathAdd (name config))
                         (m_gamePaths f))
                      (emplace (name config)
                         (defaultEnginePreference toPath pathAdd (name config))
                         (m_defaultEngines f)))
                  errors (lines ++ lines1)) as (Hfs & Hnames & Herrors).
      { intros p Hp. apply Hplain. now right. }
      rewrite Hfs, Hnames, Herrors. simpl. now rewrite <- app_assoc.
Qed.

(** X20: one broken configuration file does not keep the others from
    loading. When no configuration file fails in a recoverable way,
    [loadGameConfigs] throws one error for each configuration file that
    cannot be opened or parsed, naming the file and the reason, in the order
    the files were found, and returns when there is none. Either way the
    names of all the files that could be read are in [gameList()], which is
    left in ascending order. *)
Theorem broken_config_files_are_reported_not_fatal (f : Factory) :
  let configFiles :=
    findItemsRecursively (m_configFS f) (toPath "") "GameConfig.cfg" in
  (forall path, path ∈ configFiles -> forall message recover,
     read (m_configFS f) path <> inl (RecoverableException message recover)) ->
  (loadAll f).1.1 =
    configErrors asString openFile makeAbsolute parseGameConfig (m_configFS f)
      configFiles /\
  gameList (loadAll f).1.2 =
    col_sort
      (gameList f ++
       configNames openFile makeAbsolute parseGameConfig (m_configFS f)
         configFiles) /\
  ascending (gameList (loadAll f).1.2) = true.
Proof.
  intros configFiles Hplain. unfold loadGameConfigs. fold configFiles.
  destruct (each_plain configFiles f [] [] Hplain) as (_ & Hnames & Herrors).
  destruct (each configFiles f [] []) as [[f1 errors] lines].
  simpl in *. subst errors. rewrite Hnames. unfold gameList. simpl.
  split; [reflexivity | ]. split; [reflexivity | apply col_sort_ascending].
Qed.
End Registry.

(** ** [initializeFileSystem] *)

Lemma chainDirs_roots {Path} (reversed : list Path) (chain : FileSystemChain Path) :
  roots (chainDirs reversed chain) = rev reversed ++ roots chain /\
  writableRoots (chainDirs reversed chain) = writableRoots chain.
Proof.
  revert chain. induction reversed as [ | path rest IH]; intros chain.
  - now split.
  - simpl.
    assert (Hstep : match chain with
                    | nullFileSystem => DiskFileSystem nullFileSystem path false
                    | _ => DiskFileSystem chain path false
                    end = DiskFileSystem chain path false)
      by now destruct chain.
    rewrite Hstep. destruct (IH (DiskFileSystem chain path false)) as [-> ->].
    simpl. now rewrite <- app_assoc.
Qed.

(** X21: the search order. [initializeFileSystem] makes [m_configFS] a chain
    that starts at the user's game directory and goes on through the search
    directories in the order they are configured; the user's directory is
    the only one of them that can be written to, and it becomes
    [m_userGameDir]. *)
Theorem config_file_system_searches_user_dir_first {Path}
  (gamePathConfig : GamePathConfig Path) :
  roots (initializeFileSystem gamePathConfig).1 =
    userGameDir gamePathConfig :: gameConfigSearchDirs gamePathConfig /\
  writableRoots (initializeFileSystem gamePathConfig).1 =
    [userGameDir gamePathConfig] /\
  (initializeFileSystem gamePathConfig).2 = userGameDir gamePathConfig.
Proof.
  unfold initializeFileSystem.
  destruct (chainDirs_roots (rev (gameConfigSearchDirs gamePathConfig))
              nullFileSystem) as [Hroots Hwritable].
  rewrite rev_involutive, app_nil_r in Hroots. simpl in Hwritable.
  destruct (chainDirs _ _) eqn:Hchain; simpl in *;
    rewrite <- ?Hroots, ?Hwritable; repeat split.
Qed.

(** ** The sample installation *)

Lemma saving_again_writes_nothing_witness :
  writeCompilationConfig GameSamples.toPath GameSamples.pathAdd
    GameSamples.addExtension GameSamples.makeAbsolute GameSamples.copyFile
    GameSamples.createFileAtomic GameSamples.writeProfiles String.eqb
    (mkGameConfig "Quake" "qbsp" "" false false) "qbsp" [] =
  (None, mkGameConfig "Quake" "qbsp" "" false false, [],
   [(LoggerDebug, SkippingUnchangedCompilationConfig "Quake")]).
Proof.
  eapply (proj1 (saving_again_writes_nothing GameSamples.toPath
                   GameSamples.pathAdd GameSamples.addExtension
                   GameSamples.makeAbsolute GameSamples.copyFile
                   GameSamples.createFileAtomic GameSamples.writeProfiles
                   GameSamples.writeProfiles String.eqb String.eqb
                   GameSamples.quake "qbsp" "" GameSamples.files
                   String.eqb_refl String.eqb_refl)).
  reflexivity.
Defined.

Lemma loaded_config_is_not_written_back_witness :
  (writeCompilationConfig GameSamples.toPath GameSamples.pathAdd
     GameSamples.addExtension GameSamples.makeAbsolute GameSamples.copyFile
     GameSamples.createFileAtomic GameSamples.writeProfiles String.eqb
     (mkGameConfig "Hexen2" "qbsp" "" false false) "qbsp"
     GameSamples.files).1 =
  (None, mkGameConfig "Hexen2" "qbsp" "" false false, GameSamples.files).
Proof.
  apply (loaded_config_is_not_written_back GameSamples.toPath
           GameSamples.pathAdd GameSamples.addExtension GameSamples.fileExists
           GameSamples.openFile GameSamples.makeAbsolute GameSamples.copyFile
           GameSamples.createFileAtomic GameSamples.parseProfiles
           GameSamples.writeProfiles String.eqb
           GameSamples.hexen2 GameSamples.files "qbsp" "qbsp"
           String.eqb_refl eq_refl eq_refl eq_refl).
Defined.

Lemma malformed_profiles_are_backed_up_first_witness :
  (writeCompilationConfig GameSamples.toPath GameSamples.pathAdd
     GameSamples.addExtension GameSamples.makeAbsolute GameSamples.copyFile
     GameSamples.createFileAtomic GameSamples.writeProfiles String.eqb
     (mkGameConfig "Quake" "" "" true false) "qbsp" GameSamples.files).1.2 =
  (["Quake"; "CompilationProfiles.cfg"], "qbsp")
  :: (["Quake"; "CompilationProfiles.cfg"; "bak"], "malformed")
  :: GameSamples.files.
Proof.
  refine (proj1 (proj2 (proj2
            (malformed_profiles_are_backed_up_first GameSamples.toPath
               GameSamples.pathAdd GameSamples.addExtension
               GameSamples.fileExists GameSamples.openFile
               GameSamples.makeAbsolute GameSamples.copyFile
               GameSamples.createFileAtomic GameSamples.parseProfiles
               GameSamples.writeProfiles String.eqb
               GameSamples.quake GameSamples.files "qbsp" GameSamples.files
               eq_refl _)) eq_refl)).
  intros text parsed [= <-]. discriminate.
Defined.

Lemma sample_reachable :
  reachable GameSamples.toPath GameSamples.pathAdd GameSamples.addExtension
    GameSamples.asString GameSamples.fileExists GameSamples.openFile
    GameSamples.makeAbsolute GameSamples.findItemsRecursively
    GameSamples.copyFile GameSamples.createFileAtomic
    GameSamples.parseGameConfig GameSamples.parseProfiles
    GameSamples.parseProfiles GameSamples.writeProfiles
    GameSamples.writeProfiles String.eqb String.eqb GameSamples.installed.
Proof.
  apply (reachable_loadAll _ _ _ _ _ _ _ _ _ _ _ _ _ _ _ _ _
           (newFactory GameSamples.files)).
  apply reachable_new.
Qed.

Lemma listed_games_are_the_known_games_witness :
  (gameCount GameSamples.installed <= length (gameList GameSamples.installed))%nat.
Proof.
  exact (proj2 (proj2
           (listed_games_are_the_known_games GameSamples.toPath
              GameSamples.pathAdd GameSamples.addExtension
              GameSamples.asString GameSamples.fileExists GameSamples.openFile
              GameSamples.makeAbsolute GameSamples.findItemsRecursively
              GameSamples.copyFile GameSamples.createFileAtomic
              GameSamples.parseGameConfig GameSamples.parseProfiles
              GameSamples.parseProfiles GameSamples.writeProfiles
              GameSamples.writeProfiles String.eqb String.eqb
              GameSamples.preferenceGet GameSamples.installed "Quake"
              sample_reachable))).
Defined.

Lemma broken_config_files_are_reported_not_fatal_witness :
  (GameSamples.loadGameConfigs (newFactory GameSamples.files)).1.1 =
    ["Could not load game configuration file Broken/GameConfig.cfg: Expected a name"] /\
  gameList GameSamples.installed = ["Hexen2"; "Quake"].
Proof.
  destruct (broken_config_files_are_reported_not_fatal GameSamples.toPath
              GameSamples.pathAdd GameSamples.asString GameSamples.fileExists
              GameSamples.openFile GameSamples.makeAbsolute
              GameSamples.findItemsRecursively GameSamples.parseGameConfig
              GameSamples.parseProfiles GameSamples.parseProfiles
              (newFactory GameSamples.files)) as (Herrors & Hnames & _).
  - intros path _ message recover.
    unfold readGameConfig, GameSamples.openFile, GameSamples.parseGameConfig.
    destruct (GameSamples.readAt _ path) as [text | ]; [ | discriminate].
    destruct (bool_decide (text = "")); discriminate.
  - split; [exact Herrors | exact Hnames].
Defined.

Lemma game_path_preference_is_under_the_games_name_witness :
  isGamePathPreference GameSamples.path_eqb GameSamples.installed "Quake"
    ["Games"; "Quake"; "Path"] = inr true.
Proof.
  refine (proj1
            (game_path_preference_is_under_the_games_name GameSamples.toPath
               GameSamples.pathAdd GameSamples.addExtension
               GameSamples.asString GameSamples.fileExists GameSamples.openFile
               GameSamples.makeAbsolute GameSamples.findItemsRecursively
               GameSamples.copyFile GameSamples.createFileAtomic
               GameSamples.parseGameConfig GameSamples.parseProfiles
               GameSamples.parseProfiles GameSamples.writeProfiles
               GameSamples.writeProfiles String.eqb String.eqb
               GameSamples.preferenceGet GameSamples.path_eqb
               GameSamples.installed "Quake" ["Games"; "Quake"; "Path"]
               sample_reachable _)).
  apply (bool_decide_unpack _). vm_compute. exact I.
Defined.

Lemma saving_touches_only_the_profiles_of_its_game_witness :
  gameList
    (saveCompilationConfig GameSamples.toPath GameSamples.pathAdd
       GameSamples.addExtension GameSamples.makeAbsolute GameSamples.copyFile
       GameSamples.createFileAtomic GameSamples.writeProfiles String.eqb
       GameSamples.installed "Quake" "qbsp").1.2 =
  gameList GameSamples.installed.
Proof.
  exact (proj1
           (saving_touches_only_the_profiles_of_its_game GameSamples.toPath
              GameSamples.pathAdd GameSamples.addExtension
              GameSamples.asString GameSamples.fileExists GameSamples.openFile
              GameSamples.makeAbsolute GameSamples.findItemsRecursively
              GameSamples.copyFile GameSamples.createFileAtomic
              GameSamples.parseGameConfig GameSamples.parseProfiles
              GameSamples.parseProfiles GameSamples.writeProfiles
              GameSamples.writeProfiles String.eqb String.eqb
              GameSamples.installed "Quake" "qbsp" sample_reachable)).
Defined.

End GamesFacts.

(** * [PointHandleRenderer] *)

Module HandlesFacts.
Import Handles.

Section PointHandleRenderer.
Context {Color Position Matrix : Type}.
Variable color_ltb : Color -> Color -> bool.
Variable mixAlpha : Color -> Opacity -> Color.
Variable translation : bool -> Position -> Matrix.

Local Abbreviation Map := (@HandleMap Color Position).
Local Abbreviation Renderer := (@PointHandleRenderer Color Position).
Local Abbreviation Calls := (list (@Call Color Matrix)).
Local Abbreviation handles := (renderHandles mixAlpha translation).

(** [operator[]] with [push_back] adds the position and keeps the others. *)
Lemma pushAt_positions (c : Color) (p : Position) (map : Map) :
  flat_map snd (pushAt color_ltb c p map) ≡ₚ p :: flat_map snd map.
Proof.
  induction map as [ | [c' ps] rest IH]; [reflexivity | ]. simpl.
  destruct (color_ltb c c'); [reflexivity | ].
  destruct (color_ltb c' c); simpl.
  - rewrite IH. now rewrite Permutation_middle.
  - rewrite <- app_assoc. simpl. now rewrite <- !Permutation_middle.
Qed.

Lemma addAll_positions (hs : list (@Handle Color Position)) (r : Renderer) :
  flat_map snd (m_pointHandles (addAll color_ltb hs r)) ≡ₚ
    flat_map snd (m_pointHandles r) ++ map position (handlesOf false hs) /\
  flat_map snd (m_highlights (addAll color_ltb hs r)) ≡ₚ
    flat_map snd (m_highlights r) ++ map position (handlesOf true hs).
Proof.
  revert r. induction hs as [ | h hs IH]; intros r.
  - simpl. now rewrite !app_nil_r.
  - unfold addAll in *. cbn [foldl]. destruct (IH (add color_ltb h r)) as [-> ->].
    unfold handlesOf, add. rewrite !filter_cons.
    destruct (highlight h); simpl.
    + rewrite pushAt_positions. split; [reflexivity | ].
      simpl. now rewrite <- Permutation_middle.
    + rewrite pushAt_positions. split; [ | reflexivity].
      simpl. now rewrite <- Permutation_middle.
Qed.

Lemma drawnAt_positions (circle c : Circle) (render3D : bool)
  (ps : list Position) (tail : Calls) :
  drawnAt circle
    (flat_map
       (fun position =>
          [MultiplyModelMatrix_enter (translation render3D position);
           Circle_render c; MultiplyModelMatrix_leave]) ps ++ tail) =
  (if decide (c = circle) then map (translation render3D) ps else [])
  ++ drawnAt circle tail.
Proof.
  induction ps as [ | p ps IH]; [now destruct (decide (c = circle)) | ].
  simpl. rewrite IH. now destruct (decide (c = circle)).
Qed.

Lemma drawnAt_entries (circle c : Circle) (render3D : bool) (opacity : Opacity)
  (map : Map) (tail : Calls) :
  drawnAt circle
    (flat_map
       (fun entry =>
          shader_set_Color (mixAlpha entry.1 opacity)
          :: flat_map
               (fun position =>
                  [MultiplyModelMatrix_enter (translation render3D position);
                   Circle_render c; MultiplyModelMatrix_leave])
               entry.2) map ++ tail) =
  (if decide (c = circle)
   then List.map (translation render3D) (flat_map snd map) else [])
  ++ drawnAt circle tail.
Proof.
  induction map as [ | [color ps] rest IH]; [now destruct (decide (c = circle)) | ].
  cbn [flat_map fst snd]. rewrite <- app_assoc.
  cbn [app drawnAt]. rewrite drawnAt_positions, IH.
  destruct (decide (c = circle)); [ | reflexivity].
  now rewrite map_app, app_assoc.
Qed.

Lemma drawnAt_renderHandles (circle c : Circle) (render3D : bool)
  (opacity : Opacity) (map : Map) (tail : Calls) :
  drawnAt circle (handles render3D map c opacity ++ tail) =
  (if decide (c = circle)
   then List.map (translation render3D) (flat_map snd map) else [])
  ++ drawnAt circle tail.
Proof.
  unfold renderHandles. rewrite <- !app_assoc. cbn [app drawnAt].
  now rewrite drawnAt_entries.
Qed.

Lemma depthTest_renderHandles (c : Circle) (render3D : bool)
  (opacity : Opacity) (map : Map) :
  depthTestCalls (handles render3D map c opacity) = [].
Proof.
  unfold renderHandles, depthTestCalls.
  rewrite !filter_app. cbn.
  induction map as [ | [color ps] rest IH]; [reflexivity | ].
  cbn [flat_map]. rewrite filter_app, filter_cons_False by (simpl; discriminate).
  rewrite app_nil_r in IH. rewrite app_nil_r. 
  assert (Hps : filter (fun call => isDepthTest call = true)
                  (flat_map
                     (fun position =>
                        [MultiplyModelMatrix_enter (translation render3D position);
                         @Circle_render Color Matrix c;
                         MultiplyModelMatrix_leave]) ps) = []).
  { clear. induction ps as [ | p ps IH]; [reflexivity | ]. simpl. exact IH. }
  cbn [fst snd]. rewrite Hps. exact IH.
Qed.

Lemma drawnAt_skip (circle : Circle) (call : @Call Color Matrix)
  (tail : Calls) :
  (forall matrix, call <> MultiplyModelMatrix_enter matrix) ->
  drawnAt circle ([call] ++ tail) = drawnAt circle tail.
Proof.
  intros Hcall. destruct call; try reflexivity. now destruct (Hcall matrix).
Qed.

(** X22: every handle of the frame is drawn, at its own place. After the
    handles of a frame are added to a new renderer, [doRender] renders the
    circle [m_handle] under the translations of the point handles that were
    added, and [m_highlight] under those of the highlights: each handle
    once in a 2D view, and in a 3D view once in an opaque pass and once more
    in a translucent pass that draws the same handles in the same order. *)
Theorem every_handle_is_drawn_at_its_place (render3D : bool)
  (hs : list (@Handle Color Position)) (highlights : bool) :
  let circle := if highlights then m_highlight else m_handle in
  let calls :=
    (doRender mixAlpha translation render3D
       (addAll color_ltb hs newRenderer)).1 in
  exists pass,
    pass ≡ₚ
      map (fun h => translation render3D (position h))
        (handlesOf highlights hs) /\
    drawnAt circle calls = if render3D then pass ++ pass else pass.
Proof.
  intros circle calls.
  destruct (addAll_positions hs newRenderer) as [Hpoints Hhighlights].
  simpl in Hpoints, Hhighlights.
  exists (map (translation render3D)
            (flat_map snd
               (if highlights
                then m_highlights (addAll color_ltb hs newRenderer)
                else m_pointHandles (addAll color_ltb hs newRenderer)))).
  split.
  - rewrite <- (map_map position (translation render3D)).
    apply Permutation_map. now destruct highlights.
  - subst calls circle. unfold doRender. cbn [fst].
    destruct render3D, highlights; rewrite <- ?app_assoc;
      repeat first
        [ rewrite drawnAt_skip by (intros; discriminate)
        | rewrite drawnAt_renderHandles ];
      repeat (destruct (decide _) as [Heq | Hne];
              [try discriminate Heq | try contradiction]);
      simpl; rewrite ?app_nil_r; reflexivity.
Qed.

(** X23: a frame leaves nothing behind. [doRender] switches the depth test
    off once and on again once after that, so that the depth test is on
    when it returns, whatever the view and the handles; and it clears the
    handles, so that a second [doRender] with nothing added in between
    renders no circle. *)
Theorem doRender_restores_depth_test_and_clears (render3D render3D' : bool)
  (r : Renderer) (circle : Circle) :
  depthTestCalls (doRender mixAlpha translation render3D r).1 =
    [glDisable_DEPTH_TEST; glEnable_DEPTH_TEST] /\
  (doRender mixAlpha translation render3D r).2 = newRenderer /\
  drawnAt circle
    (doRender mixAlpha translation render3D'
       (doRender mixAlpha translation render3D r).2).1 = [].
Proof.
  split; [ | split].
  - unfold doRender, depthTestCalls. cbn [fst].
    destruct render3D;
      rewrite !filter_app;
      repeat change (filter (fun call => isDepthTest call = true) ?l)
        with (depthTestCalls l);
      rewrite !depthTest_renderHandles; reflexivity.
  - reflexivity.
  - destruct render3D', circle; reflexivity.
Qed.
End PointHandleRenderer.

End HandlesFacts.
